(** * Quantum-Vedang: the state simulator and the signal feature extractor

    A shallow embedding of [src/api/quantum_algorithms.py]:
    - [QuantumCircuit] ([apply_gate], [entangle_qubits]) over an arbitrary
      commutative ring of amplitudes with a conjugation, instantiated
      with the complex numbers over the reals and with the Gaussian
      integers (the latter only to run the definitions);
    - [QuantumProcessor] (normalisation, the direct Fourier sum, phase
      estimation and the pattern metrics) over the real numbers.

    and of the parts of the other modules that do not need a library
    to run:
    - [app.py]: the Fibonacci entropy generator;
    - [api/security.py]: key and entropy generation, the noise layer,
      signatures, encryption and decryption over an abstract AES-GCM
      and HMAC;
    - [api/quantum_intelligence.py] with [api/monitoring.py]:
      [process_signal] over an abstract neural network, [quantum_entropy]
      and the monitor's metrics;
    - [api/Scaling.py]: the scaling decision;
    - [api/quantum_transfer.py]: the arithmetic of a transfer and the
      average latency;
    - [api/Config.py]: construction and validation of a configuration.

    Values drawn from a random generator and readings of the clock are
    arguments of the definitions.
    numpy's [float64]/[complex128] values are idealised as exact real and
    complex numbers: no rounding is modelled.  Where numpy's IEEE
    arithmetic leaves the finite numbers on exact inputs (a division by
    zero) the outcome is represented explicitly, see [np_float].
    Python exceptions are values of [exn] carried by [result]. *)

From Stdlib Require Import Reals Lra Lia Ring ZArith.
From Stdlib Require Floats.
From stdpp Require Import base tactics numbers option strings list.

(** ** Exceptions *)

Inductive exn : Set := IndexError | ValueError.

Inductive result (X : Type) : Type :=
  | Ok (x : X)
  | Raise (e : exn).
Arguments Ok {X} x.
Arguments Raise {X} e.

#[global] Instance result_ret : MRet result := @Ok.
#[global] Instance result_bind : MBind result :=
  λ X Y k m, match m with Ok x => k x | Raise e => Raise e end.
#[global] Instance result_fmap : FMap result :=
  λ X Y f m, match m with Ok x => Ok (f x) | Raise e => Raise e end.

(** A [for] loop over [xs] whose body may raise: the first exception
    leaves the loop. *)
Fixpoint for_each {St X : Type} (body : St → X → result St) (xs : list X) (s : St)
    : result St :=
  match xs with
  | [] => Ok s
  | x :: xs' => s' ← body s x; for_each body xs' s'
  end.

(** Python subscripting [l[k]] of a sequence with an [int] that may be
    negative: [-len l <= k < 0] counts from the end, anything outside
    [-len l <= k < len l] raises [IndexError]. *)
Definition py_norm_index (len : nat) (k : Z) : option nat :=
  if decide (0 ≤ k)%Z then
    (if decide (k < Z.of_nat len)%Z then Some (Z.to_nat k) else None)
  else
    (if decide (- Z.of_nat len ≤ k)%Z then Some (Z.to_nat (Z.of_nat len + k)) else None).

Definition py_index {X : Type} (l : list X) (k : Z) : result X :=
  match py_norm_index (length l) k with
  | Some i => match l !! i with Some x => Ok x | None => Raise IndexError end
  | None => Raise IndexError
  end.

(** [l[k] = v] on a Python list. *)
Definition py_set_index {X : Type} (l : list X) (k : Z) (v : X) : result (list X) :=
  match py_norm_index (length l) k with
  | Some i => Ok (<[i := v]> l)
  | None => Raise IndexError
  end.

(** ** Binary strings

    [format(i, f'0{n}b')]: the binary digits of [i], most significant
    first, padded on the left with ['0'] to width [n]; never truncated.
    A character is a [bool] (['1'] is [true]). *)
Fixpoint to_bits (w i : nat) : list bool :=
  match w with
  | 0 => []
  | S w' => to_bits w' (i / 2) ++ [Nat.odd i]
  end.

Definition format_bin (n i : nat) : list bool :=
  to_bits (Nat.max n (S (Nat.log2 i))) i.

(** [int(c)] for a binary digit and [int(s, 2)] for a binary string. *)
Definition int_of_char (c : bool) : nat := Nat.b2n c.

Definition int_of_bin (s : list bool) : nat :=
  foldl (λ acc c, 2 * acc + int_of_char c) 0 s.

(** ** Amplitudes

    The operations the simulator uses on [complex128] values, and the
    laws the proofs rely on: a commutative ring with a conjugation that
    is a ring morphism. *)
Class Scalar (A : Type) : Type := {
  s_zero : A;
  s_one : A;
  s_add : A → A → A;
  s_mul : A → A → A;
  s_sub : A → A → A;
  s_opp : A → A;
  s_conj : A → A
}.

Declare Scope scalar_scope.
Delimit Scope scalar_scope with sc.
Notation "0" := s_zero : scalar_scope.
Notation "1" := s_one : scalar_scope.
Infix "+" := s_add : scalar_scope.
Infix "*" := s_mul : scalar_scope.
Infix "-" := s_sub : scalar_scope.
Notation "- x" := (s_opp x) : scalar_scope.

Class ScalarLaws (A : Type) `{Scalar A} : Prop := {
  scalar_ring : ring_theory s_zero s_one s_add s_mul s_sub s_opp (@eq A);
  conj_add : ∀ a b : A, s_conj (a + b)%sc = (s_conj a + s_conj b)%sc;
  conj_mul : ∀ a b : A, s_conj (a * b)%sc = (s_conj a * s_conj b)%sc;
  conj_one : s_conj 1%sc = 1%sc
}.

#[global] Instance scalar_inhabited `{Scalar A} : Inhabited A := populate 0%sc.
#[global] Instance R_inhabited : Inhabited R := populate 0%R.

(** [np.sum] of a one-dimensional array. *)
Definition np_sum `{Scalar A} (v : list A) : A := foldr s_add 0%sc v.

(** Squared magnitude [|z|^2 = z * conj z], and the squared norm of a
    state vector. *)
Definition mag2 `{Scalar A} (z : A) : A := (z * s_conj z)%sc.
Definition norm2 `{Scalar A} (v : list A) : A := np_sum (mag2 <$> v).

(** ** QuantumCircuit *)

Record QuantumCircuit (A : Type) : Type := mkCircuit {
  n_qubits : nat;
  depth : nat;
  state : list A
}.
Arguments mkCircuit {A} _ _ _.
Arguments n_qubits {A} _.
Arguments depth {A} _.
Arguments state {A} _.

Section Circuit.
Context {A : Type} `{Scalar A}.
Local Open Scope scalar_scope.

(** Two-dimensional arrays are lists of rows. *)
Local Abbreviation matrix := (list (list A)).

(** [np.zeros(n, dtype=complex)] and [np.eye(dim, dtype=complex)]. *)
Definition np_zeros (n : nat) : list A := replicate n 0.

Definition np_eye (dim : nat) : matrix :=
  (λ i, (λ j, if decide (i = j) then 1 else 0) <$> seq 0 dim) <$> seq 0 dim.

(** [m[i, j]] and [m[i, j] = v] for indices that are not negative;
    numpy raises [IndexError] outside the array. *)
Definition mat_get (m : matrix) (i j : nat) : result A :=
  match m !! i with
  | Some row => match row !! j with Some x => Ok x | None => Raise IndexError end
  | None => Raise IndexError
  end.

Definition mat_set (m : matrix) (i j : nat) (v : A) : result matrix :=
  match m !! i with
  | Some row =>
      if decide (j < length row) then Ok (<[i := <[j := v]> row]> m)
      else Raise IndexError
  | None => Raise IndexError
  end.

(** [m @ v] for a square [dim] x [dim] matrix: numpy raises
    [ValueError] when the vector does not have [dim] entries. *)
Definition dot (row v : list A) : A := np_sum (zip_with s_mul row v).

Definition matmul (dim : nat) (m : matrix) (v : list A) : result (list A) :=
  if decide (length v = dim) then Ok ((λ row, dot row v) <$> m)
  else Raise ValueError.

(** [__init__]: the basis state with amplitude 1 at index 0. *)
Definition QuantumCircuit_init (n_qubits depth : nat) : QuantumCircuit A :=
  mkCircuit n_qubits depth (<[0%nat := 1]> (np_zeros (2 ^ n_qubits))).

(** [_initialize_gates]: the gates whose entries are 0, 1 and -1.
    [Y] and [H] need the imaginary unit and a square root and are
    defined with the complex numbers below. *)
Definition gate_X : matrix := [[0; 1]; [1; 0]].
Definition gate_Z : matrix := [[1; 0]; [0; s_opp 1]].

(** [all(i_bin[k] == j_bin[k] for k in range(n) if k != target)].
    Both strings have at least [n] characters, so [i_bin[k]] is in
    range for every [k] of the generator. *)
Definition agree_except (n : nat) (target : Z) (i_bin j_bin : list bool) : bool :=
  forallb (λ k, bool_decide (i_bin !!! k = j_bin !!! k))
          (filter (λ k, Z.of_nat k ≠ target) (seq 0 n)).

(** The body of the inner loop of [apply_gate]. *)
Definition apply_gate_cell (n : nat) (gate : matrix) (target : Z)
    (i : nat) (i_bin : list bool) (gate_full : matrix) (j : nat) : result matrix :=
  let j_bin := format_bin n j in
  if agree_except n target i_bin j_bin then
    a ← py_index i_bin target;
    b ← py_index j_bin target;
    v ← mat_get gate (int_of_char a) (int_of_char b);
    mat_set gate_full i j v
  else Ok gate_full.

Definition apply_gate_row (n : nat) (gate : matrix) (target : Z)
    (gate_full : matrix) (i : nat) : result matrix :=
  let i_bin := format_bin n i in
  for_each (apply_gate_cell n gate target i i_bin) (seq 0 (2 ^ n)) gate_full.

Definition apply_gate_full (n : nat) (gate : matrix) (target : Z) : result matrix :=
  for_each (apply_gate_row n gate target) (seq 0 (2 ^ n)) (np_eye (2 ^ n)).

(** [apply_gate]: the circuit with the new state, or the exception;
    [self.state] is only assigned by the last statement. *)
Definition apply_gate (gate : matrix) (target : Z) (self : QuantumCircuit A)
    : result (QuantumCircuit A) :=
  let dim := 2 ^ n_qubits self in
  gate_full ← apply_gate_full (n_qubits self) gate target;
  st ← matmul dim gate_full (state self);
  Ok (mkCircuit (n_qubits self) (depth self) st).

(** The body of the loop of [entangle_qubits].  The right-hand side
    [i_bin[target]] is read before the element is assigned, and each
    tuple assignment stores left to right. *)
Definition entangle_row (n : nat) (control target : Z)
    (gate_full : matrix) (i : nat) : result matrix :=
  let i_bin := format_bin n i in
  c ← py_index i_bin control;
  if (c : bool) then
    t ← py_index i_bin target;
    i_bin_flipped ← py_set_index i_bin target (negb t);
    let j := int_of_bin i_bin_flipped in
    g1 ← mat_set gate_full i i 0;
    g2 ← mat_set g1 i j 1;
    g3 ← mat_set g2 j j 0;
    mat_set g3 j i 1
  else Ok gate_full.

Definition entangle_full (n : nat) (control target : Z) : result matrix :=
  for_each (entangle_row n control target) (seq 0 (2 ^ n)) (np_eye (2 ^ n)).

Definition entangle_qubits (control target : Z) (self : QuantumCircuit A)
    : result (QuantumCircuit A) :=
  let dim := 2 ^ n_qubits self in
  gate_full ← entangle_full (n_qubits self) control target;
  st ← matmul dim gate_full (state self);
  Ok (mkCircuit (n_qubits self) (depth self) st).

End Circuit.

(** ** Gaussian integers: an instance that computes *)

Definition GaussZ : Type := (Z * Z)%type.

#[global] Instance GaussZ_scalar : Scalar GaussZ := {|
  s_zero := (0, 0)%Z;
  s_one := (1, 0)%Z;
  s_add := λ x y, (x.1 + y.1, x.2 + y.2)%Z;
  s_mul := λ x y, (x.1 * y.1 - x.2 * y.2, x.1 * y.2 + x.2 * y.1)%Z;
  s_sub := λ x y, (x.1 - y.1, x.2 - y.2)%Z;
  s_opp := λ x, (- x.1, - x.2)%Z;
  s_conj := λ x, (x.1, - x.2)%Z
|}.

(** ** Complex numbers over the reals: the amplitudes of the program *)

Definition C : Type := (R * R)%type.

Definition RtoC (x : R) : C := (x, 0%R).
Definition Cadd (z w : C) : C := (z.1 + w.1, z.2 + w.2)%R.
Definition Cmul (z w : C) : C := (z.1 * w.1 - z.2 * w.2, z.1 * w.2 + z.2 * w.1)%R.
Definition Csub (z w : C) : C := (z.1 - w.1, z.2 - w.2)%R.
Definition Copp (z : C) : C := (- z.1, - z.2)%R.
Definition Cconj (z : C) : C := (z.1, - z.2)%R.

#[global] Instance C_scalar : Scalar C := {|
  s_zero := RtoC 0;
  s_one := RtoC 1;
  s_add := Cadd;
  s_mul := Cmul;
  s_sub := Csub;
  s_opp := Copp;
  s_conj := Cconj
|}.

#[global] Instance C_laws : ScalarLaws C.
Proof.
  split; [split|..]; repeat intros [? ?];
    cbv [s_zero s_one s_add s_mul s_sub s_opp s_conj C_scalar
         Cadd Cmul Csub Copp Cconj RtoC fst snd];
    f_equal; ring.
Qed.

(** Division of a complex number by a real one. *)
Definition Cdiv_real (z : C) (x : R) : C := (z.1 / x, z.2 / x)%R.

(** [np.abs], [np.exp] and [np.angle] on a complex number; [np.angle]
    is [arctan2] of the imaginary and the real part. *)
Definition Cabs (z : C) : R := sqrt (z.1 * z.1 + z.2 * z.2).

Definition Cexp (z : C) : C := (exp z.1 * cos z.2, exp z.1 * sin z.2)%R.

Definition arctan2 (y x : R) : R :=
  if Rlt_dec 0 x then atan (y / x)
  else if Rlt_dec x 0 then
    (if Rle_dec 0 y then atan (y / x) + PI else atan (y / x) - PI)%R
  else if Rlt_dec 0 y then (PI / 2)%R
  else if Rlt_dec y 0 then (- (PI / 2))%R
  else 0%R.

Definition np_angle (z : C) : R := arctan2 z.2 z.1.

(** The sum of the squared magnitudes of a state vector, as a real. *)
Definition sq_norm (v : list C) : R :=
  foldr Rplus 0%R ((λ z, z.1 * z.1 + z.2 * z.2)%R <$> v).

(** [_initialize_gates]: the two remaining gates, with exact entries.
    The array that the program stores for [H] has the float64 value of
    [1 / sqrt 2] for entries, see [H_float64]. *)
Definition gate_Y : list (list C) :=
  [[RtoC 0; (0, -1)%R]; [(0, 1)%R; RtoC 0]].

Definition gate_H : list (list C) :=
  [[RtoC (1 / sqrt 2); RtoC (1 / sqrt 2)]; [RtoC (1 / sqrt 2); RtoC (-1 / sqrt 2)]].

(** ** QuantumProcessor

    The methods below do not read the processor's circuit or its
    configuration, so the object itself is not represented.  A signal is
    a one-dimensional array of reals, on which [ravel] is the identity.
    The exact reals stand for the program's float64 values, which they
    follow up to rounding on the inputs that [float64_safe] describes;
    an overflow of the program is not represented. *)

(** A [float64] that may have left the finite numbers. *)
Inductive np_float : Type :=
  | Finite (r : R)
  | PosInf
  | NegInf
  | NaN.

(** [a / b] on [float64] values: a zero divisor yields an infinity, or
    NaN for [0 / 0], with a warning and no exception. *)
Definition np_true_divide (a b : R) : np_float :=
  if Req_dec_T b 0 then
    (if Req_dec_T a 0 then NaN else if Rlt_dec 0 a then PosInf else NegInf)
  else Finite (a / b).

Definition Rsum (v : list R) : R := foldr Rplus 0%R v.

Definition ravel (signal : list R) : list R := signal.

(** [np.linalg.norm] of a one-dimensional real array. *)
Definition np_linalg_norm (v : list R) : R := sqrt (Rsum ((λ x, x * x)%R <$> v)).

(** The guard of the normalisation, [1e-10]. *)
Definition eps : R := (1 / 10 ^ 10)%R.

(** [_prepare_quantum_state].  The divisor is at least [eps], so the
    division stays finite. *)
Definition _prepare_quantum_state (signal : list R) : list R :=
  let signal := ravel signal in
  (λ x, x / (np_linalg_norm signal + eps))%R <$> signal.

(** [np.arange(n)] and the array
    [np.exp(-2j * np.pi * k * np.arange(n) / n)]. *)
Definition np_arange (n : nat) : list R := INR <$> seq 0 n.

Definition twiddles (n k : nat) : list C :=
  (λ t, Cexp (Cdiv_real
                (Cmul (Cmul (Cmul (0, -2)%R (RtoC PI)) (RtoC (INR k))) (RtoC t))
                (INR n)))
    <$> np_arange n.

(** [_quantum_feature_extraction]: the loop stores one coefficient per
    iteration in an array of [n] zeros. *)
Definition _quantum_feature_extraction (signal : list R) : list C :=
  let n := length signal in
  let features : list C := np_zeros n in
  foldl (λ features k,
           <[k := np_sum (zip_with Cmul (RtoC <$> signal) (twiddles n k))]> features)
        features (seq 0 n).

(** [np.argmax] of a one-dimensional array: the index of the first
    occurrence of the maximum; [ValueError] on an empty array.  Values
    that are equal as real numbers may differ by a rounding in the
    program, which then need not choose the first of them. *)
Fixpoint argmax_scan (best_i : nat) (best : R) (i : nat) (v : list R) : nat :=
  match v with
  | [] => best_i
  | x :: v' =>
      if Rlt_dec best x then argmax_scan i x (S i) v'
      else argmax_scan best_i best (S i) v'
  end.

Definition np_argmax (v : list R) : result nat :=
  match v with
  | [] => Raise ValueError
  | x :: v' => Ok (argmax_scan 0 x 1 v')
  end.

(** [np.max] of a one-dimensional array. *)
Definition np_max (v : list R) : result R :=
  match v with
  | [] => Raise ValueError
  | x :: v' => Ok (foldl Rmax x v')
  end.

(** [_quantum_phase_estimation]. *)
Definition _quantum_phase_estimation (signal : list R) : result (list C * R) :=
  let phases := _quantum_feature_extraction signal in
  k ← np_argmax (Cabs <$> phases);
  Ok (phases, np_angle (phases !!! k)).

(** [np.fft.fft] of a one-dimensional real array, as numpy documents
    it: coefficient [k] is the sum over [m] of
    [a[m] * exp(-2 pi i m k / n)]; [ValueError] on an empty array. *)
Definition np_fft_fft (a : list R) : result (list C) :=
  let n := length a in
  match a with
  | [] => Raise ValueError
  | _ :: _ =>
      Ok ((λ k, np_sum ((λ m, Cmul (RtoC (a !!! m))
                                 (Cexp (0, - (2 * PI * INR m * INR k / INR n))%R))
                        <$> seq 0 n))
          <$> seq 0 n)
  end.

(** [_detect_periodicity]. *)
Definition _detect_periodicity (signal : list R) : result np_float :=
  fft ← np_fft_fft signal;
  let power := (λ z, Cabs z ^ 2)%R <$> fft in
  m ← np_max power;
  Ok (np_true_divide m (Rsum power)).

(** [np.mean] and [np.std] (the population standard deviation) of a
    one-dimensional real array; both are NaN on an empty array. *)
Definition np_mean (v : list R) : np_float :=
  np_true_divide (Rsum v) (INR (length v)).

Definition np_std (v : list R) : np_float :=
  match np_mean v with
  | Finite mean =>
      match np_mean ((λ x, Rabs (x - mean) ^ 2)%R <$> v) with
      | Finite var => Finite (sqrt var)
      | other => other
      end
  | _ => NaN
  end.

(** [_estimate_noise]. *)
Definition _estimate_noise (signal : list R) : np_float := np_std signal.

(** [np.diff] and [_quantum_complexity]. *)
Definition np_diff (v : list R) : list R :=
  zip_with (λ a b, b - a)%R v (tail v).

Definition _quantum_complexity (signal : list R) : R :=
  Rsum (Rabs <$> np_diff signal).

(** [_quantum_pattern_recognition]: the dictionary's values are
    evaluated in the order they are written. *)
Record patterns : Type := mkPatterns {
  periodic : np_float;
  noise_level : np_float;
  complexity : R
}.

Definition _quantum_pattern_recognition (signal : list R) : result patterns :=
  p ← _detect_periodicity signal;
  let noise := _estimate_noise signal in
  let cplx := _quantum_complexity signal in
  Ok (mkPatterns p noise cplx).

(** [_serialize_complex] and [process_signal]. *)
Record serialized : Type := mkSerialized {
  real : list R;
  imag : list R
}.

Definition _serialize_complex (data : list C) : serialized :=
  mkSerialized (fst <$> data) (snd <$> data).

Record feature_set : Type := mkFeatureSet {
  fs_features : serialized;
  fs_phases : serialized;
  fs_dominant_phase : R;
  fs_patterns : patterns;
  fs_processed_signal : list R
}.

Definition process_signal (signal : list R) : result feature_set :=
  let signal_norm := _prepare_quantum_state signal in
  let features := _quantum_feature_extraction signal_norm in
  '(phases, dominant_phase) ← _quantum_phase_estimation signal_norm;
  pats ← _quantum_pattern_recognition signal_norm;
  Ok (mkFeatureSet (_serialize_complex features) (_serialize_complex phases)
        dominant_phase pats signal_norm).

(** * Vocabulary of the statements *)

(** [bit n t i] is the character [i_bin[t]] of the [n]-character string
    of [i], that is binary digit [n - 1 - t] of [i]; [flip n t i] is the
    index whose string differs from that of [i] in character [t]
    exactly. *)
Definition bit (n t i : nat) : bool := to_bits n i !!! t.

Definition flip (n t i : nat) : nat :=
  int_of_bin (<[t := negb (bit n t i)]> (to_bits n i)).

(** The map on indices that [entangle_qubits] realises: [i] is sent to
    [flip n t i] when character [c] is ['1'] in the string of [i] or in
    the string of [flip n t i], and to itself otherwise. *)
Definition entangle_perm (n c t i : nat) : nat :=
  if bit n c i || bit n c (flip n t i) then flip n t i else i.

(** [i] and [j] agree on every bit position other than [t]. *)
Definition agree_elsewhere (n t i j : nat) : Prop :=
  Forall (λ k, k ≠ t → bit n k i = bit n k j) (seq 0 n).

#[global] Instance agree_elsewhere_dec n t i j : Decision (agree_elsewhere n t i j).
Proof. unfold agree_elsewhere. apply _. Defined.

Section Operators.
Context {A : Type} `{Scalar A}.
Local Open Scope scalar_scope.
Local Abbreviation matrix := (list (list A)).

(** Entry [(i, j)] of a matrix, and the shape of a square matrix. *)
Definition entry (m : matrix) (i j : nat) : A := (m !!! i) !!! j.

Definition square (dim : nat) (m : matrix) : Prop :=
  length m = dim ∧ ∀ i row, m !! i = Some row → length row = dim.

(** [sum_below n f] is the sum of [f j] for [j] in [[0, n)]. *)
Definition sum_below (n : nat) (f : nat → A) : A := np_sum (f <$> seq 0 n).

(** The product of an operator given by its entries with a vector. *)
Definition op_apply (dim : nat) (E : nat → nat → A) (v : list A) : list A :=
  (λ i, sum_below dim (λ j, E i j * v !!! j)) <$> seq 0 dim.

(** The operator of the specification of [apply_gate]: entry [(i, j)]
    is [gate[bit(i, t), bit(j, t)]] when [i] and [j] agree on every
    bit position other than [t], and 0 otherwise. *)
Definition gate_at (gate : matrix) (a b : bool) : A :=
  entry gate (int_of_char a) (int_of_char b).

Definition embedded_entry (n t : nat) (gate : matrix) (i j : nat) : A :=
  if decide (agree_elsewhere n t i j)
  then gate_at gate (bit n t i) (bit n t j)
  else 0.

(** The shape of a two-dimensional array, and a two by two array. *)
Definition shape (gate : matrix) (r c : nat) : Prop :=
  length gate = r ∧ ∀ i row, gate !! i = Some row → length row = c.

Definition shape_2x2 (gate : matrix) : Prop := shape gate 2 2.

(** A two by two unitary: the conjugate transpose times the gate is
    the identity, entry by entry. *)
Definition unitary_2x2 (gate : matrix) : Prop :=
  shape_2x2 gate ∧
  ∀ a b : bool,
    s_conj (gate_at gate false a) * gate_at gate false b
    + s_conj (gate_at gate true a) * gate_at gate true b
    = if decide (a = b) then 1 else 0.

(** The circuit owns a state vector of [2 ^ n_qubits] amplitudes. *)
Definition well_formed (self : QuantumCircuit A) : Prop :=
  length (state self) = 2 ^ n_qubits self.

(** Sequences of operations on a circuit. *)
Inductive operation : Type :=
  | ApplyGate (gate : matrix) (target : Z)
  | Entangle (control target : Z).

Definition run_operation (self : QuantumCircuit A) (o : operation)
    : result (QuantumCircuit A) :=
  match o with
  | ApplyGate gate target => apply_gate gate target self
  | Entangle control target => entangle_qubits control target self
  end.

Definition run (os : list operation) (self : QuantumCircuit A)
    : result (QuantumCircuit A) :=
  for_each run_operation os self.

(** The preconditions of the specification. *)
Definition valid_operation (n : nat) (o : operation) : Prop :=
  match o with
  | ApplyGate gate target => unitary_2x2 gate ∧ (0 ≤ target < Z.of_nat n)%Z
  | Entangle control target =>
      control ≠ target ∧ (0 ≤ control < Z.of_nat n)%Z ∧ (0 ≤ target < Z.of_nat n)%Z
  end.

End Operators.

(** The direct discrete Fourier transform of the specification:
    coefficient [k] of a signal of length [N] is the sum over [t] in
    [[0, N)] of [signal[t] * exp(-2 pi i k t / N)]. *)
Definition dft_coeff (signal : list R) (k : nat) : C :=
  let N := length signal in
  sum_below N (λ t, Cmul (RtoC (signal !!! t))
                         (Cexp (0, - (2 * PI * INR k * INR t / INR N))%R)).

(** [z] has magnitude [r] and argument [θ]. *)
Definition polar (z : C) (r θ : R) : Prop :=
  z = (r * cos θ, r * sin θ)%R.

(** ** app.py: the Fibonacci entropy generator

    The generator made by [_initialize_quantum_fibonacci_generator]
    closes over the list [previous_states]; that list is the state that
    successive calls of [generate_quantum_entropy] share.  Python's
    integers are unbounded. *)

Definition _initialize_quantum_fibonacci_generator : list Z := [0; 1]%Z.

(** One [next()] of the generator: the value yielded and the list
    after the [append]. *)
Definition generator_next (previous_states : list Z) : result (Z * list Z) :=
  a ← py_index previous_states (-1);
  b ← py_index previous_states (-2);
  let next_state := (a + b)%Z in
  Ok (next_state, previous_states ++ [next_state]).

(** [generate_quantum_entropy]: the list returned and the generator's
    list afterwards.  [fib_value * seed % 1000] is
    [(fib_value * seed) % 1000], and [%] takes the sign of the
    divisor. *)
Definition generate_quantum_entropy (seed : Z) (previous_states : list Z)
    : result (list Z * list Z) :=
  for_each (λ '(entropy, previous_states) _,
              '(fib_value, previous_states') ← generator_next previous_states;
              Ok (entropy ++ [(fib_value * seed) mod 1000]%Z, previous_states'))
           (seq 0 10) ([], previous_states).

(** Successive requests to the route [/generate_entropy], which all use
    the one [api] object of the module: the responses, in order. *)
Fixpoint generate_entropy_requests (seeds : list Z) (previous_states : list Z)
    : result (list (list Z) * list Z) :=
  match seeds with
  | [] => Ok ([], previous_states)
  | seed :: seeds' =>
      '(entropy, previous_states') ← generate_quantum_entropy seed previous_states;
      '(responses, final) ← generate_entropy_requests seeds' previous_states';
      Ok (entropy :: responses, final)
  end.

(** The response to a request with [seed] made after the requests
    [earlier] on a fresh [api] object. *)
Definition response_after (earlier : list Z) (seed : Z) : result (list Z) :=
  '(_, previous_states) ←
     generate_entropy_requests earlier _initialize_quantum_fibonacci_generator;
  '(entropy, _) ← generate_quantum_entropy seed previous_states;
  Ok entropy.

(** The Fibonacci numbers, [fib 0 = 0] and [fib 1 = 1]. *)
Fixpoint fib_pair (n : nat) : Z * Z :=
  match n with
  | 0 => (0, 1)%Z
  | S n' => let '(a, b) := fib_pair n' in (b, (a + b)%Z)
  end.

Definition fib (n : nat) : Z := (fib_pair n).1.

Section GateAlgebra.
Context {A : Type} `{Scalar A}.
Local Open Scope scalar_scope.
Local Abbreviation matrix := (list (list A)).

(** The product of two gates, as two by two matrices: applying
  [gate_mul h g] is applying [g] and then [h]. *)
Definition gate_mul (h g : matrix) : matrix :=
let h_ := gate_at h in
let g_ := gate_at g in
[[h_ false false * g_ false false + h_ false true * g_ true false;
  h_ false false * g_ false true + h_ false true * g_ true true];
 [h_ true false * g_ false false + h_ true true * g_ true false;
  h_ true false * g_ false true + h_ true true * g_ true true]].

(** A gate that is its own inverse. *)
Definition self_inverse (g : matrix) : Prop :=
∀ a b : bool, gate_at (gate_mul g g) a b = if Bool.eqb a b then 1 else 0.

End GateAlgebra.

(** ** Config.py

    The values a configuration holds, the class attributes in the order
    of [dir()], and the three steps of [__init__].  Python's [int()],
    [float()], [str.lower] and [str.split(',')] are parameters; the
    first two give [None] where Python raises.  The environment is a
    function from names to values, the same when the class is created
    and when an object is. *)

#[warnings="-register-all"] Inductive pyval : Type :=
  | PBool (b : bool)
  | PInt (z : Z)
  | PFloat (r : R)
  | PStr (s : string)
  | PList (l : list pyval)
  | PTuple (l : list pyval).

Inductive config_exn : Set := AssertionError | TypeError | KeyError.

(** [d[key]] on a dictionary kept as a list of items with distinct
    keys. *)
Fixpoint dict_get (key : string) (d : list (string * pyval)) : option pyval :=
  match d with
  | [] => None
  | (k, v) :: d' => if String.eqb k key then Some v else dict_get key d'
  end.

Definition startswith_underscore (key : string) : bool := String.prefix "_" key.

(** The attributes of the class that are data; the methods [get] and
    [to_dict], which [dir()] lists as well, fail the [isinstance] test
    of [_load_defaults].  [jwt_secret_key] is the value computed when
    the class is created. *)
Definition class_attributes (jwt_secret_key : string) : list (string * pyval) :=
  [("API_VERSION", PStr "1.0.quantum");
   ("BATCH_SIZE", PInt 32);
   ("CACHE_TIMEOUT", PInt 3600);
   ("DEBUG", PBool false);
   ("DEFAULT_PORT", PInt 7777);
   ("ENTANGLEMENT_LAYERS", PInt 2);
   ("HIDDEN_LAYERS", PList [PInt 256; PInt 128; PInt 64]);
   ("HOST", PStr "0.0.0.0");
   ("INPUT_SHAPE", PTuple [PInt 128; PInt 1]);
   ("JWT_SECRET_KEY", PStr jwt_secret_key);
   ("LATENCY_THRESHOLD", PInt 50);
   ("LEARNING_RATE", PFloat (1 / 1000));
   ("LOG_LEVEL", PStr "INFO");
   ("MAX_PENDING_REQUESTS", PInt 100);
   ("MAX_REQUESTS_PER_WORKER", PInt 1000);
   ("MAX_WORKERS", PInt 4);
   ("METRICS_INTERVAL", PInt 60);
   ("NOISE_THRESHOLD", PFloat (1 / 100));
   ("N_QUBITS", PInt 4);
   ("QUANTUM_DEPTH", PInt 3);
   ("SECURITY_LEVEL", PStr "high");
   ("TOKEN_EXPIRE_HOURS", PInt 24);
   ("WORKER_TIMEOUT", PInt 30)].

Section Config.
Variable py_int : string → option Z.
Variable py_float : string → option R.
Variable str_lower : string → string.
Variable str_split_comma : string → list string.
Variable env : string → option string.
(** [secrets.token_hex(32)]. *)
Variable token_hex : string.

Definition JWT_SECRET_KEY : string :=
  default token_hex (env "QUANTUM_API_JWT_SECRET_KEY").

(** [_load_defaults]. *)
Definition _load_defaults : list (string * pyval) :=
  filter (λ kv, startswith_underscore kv.1 = false)
         (class_attributes JWT_SECRET_KEY).

(** [ref_type(x)] for the type of the reference list's first
    element; [None] where the constructor raises. *)
Definition convert_element (first : option pyval) (x : string) : option pyval :=
  match first with
  | None => PInt <$> py_int x
  | Some (PBool _) => Some (PBool (negb (String.eqb x "")))
  | Some (PInt _) => PInt <$> py_int x
  | Some (PFloat _) => PFloat <$> py_float x
  | Some (PStr _) => Some (PStr x)
  | Some (PList _) =>
      Some (PList ((λ c, PStr (String c EmptyString)) <$> String.list_ascii_of_string x))
  | Some (PTuple _) =>
      Some (PTuple ((λ c, PStr (String c EmptyString)) <$> String.list_ascii_of_string x))
  end.

(** [_convert_type]: an exception inside the [try] gives the
    reference back. *)
Definition _convert_type (value : string) (reference : pyval) : pyval :=
  match reference with
  | PBool _ =>
      PBool (bool_decide (str_lower value ∈ ["true"; "1"; "yes"]))
  | PInt _ => default reference (PInt <$> py_int value)
  | PFloat _ => default reference (PFloat <$> py_float value)
  | PList l =>
      default reference
        (PList <$> mapM (convert_element (head l)) (str_split_comma value))
  | _ => PStr value
  end.

(** [_load_env_vars]: the keys of the dictionary do not change. *)
Definition _load_env_vars (config_dict : list (string * pyval))
    : list (string * pyval) :=
  (λ kv, match env ("QUANTUM_API_" +:+ kv.1) with
         | Some env_value => (kv.1, _convert_type env_value kv.2)
         | None => kv
         end) <$> config_dict.

(** [v > 0] and [v >= 0]; comparing a string or a sequence with an
    integer raises [TypeError]. *)
Definition py_gt_0 (v : pyval) : config_exn + bool :=
  match v with
  | PBool b => inr b
  | PInt z => inr (bool_decide (0 < z)%Z)
  | PFloat r => inr (if Rlt_dec 0 r then true else false)
  | _ => inl TypeError
  end.

Definition py_ge_0 (v : pyval) : config_exn + bool :=
  match v with
  | PBool b => inr true
  | PInt z => inr (bool_decide (0 ≤ z)%Z)
  | PFloat r => inr (if Rle_dec 0 r then true else false)
  | _ => inl TypeError
  end.

(** The truth value of an object. *)
Definition py_truthy (v : pyval) : bool :=
  match v with
  | PBool b => b
  | PInt z => negb (Z.eqb z 0)
  | PFloat r => if Req_dec_T r 0 then false else true
  | PStr s => negb (String.eqb s "")
  | PList l | PTuple l => negb (Nat.eqb (length l) 0)
  end.

(** [assert d[key] <test>]. *)
Definition assert_key (d : list (string * pyval)) (key : string)
    (test : pyval → config_exn + bool) : config_exn + unit :=
  match dict_get key d with
  | None => inl KeyError
  | Some v =>
      match test v with
      | inl e => inl e
      | inr true => inr ()
      | inr false => inl AssertionError
      end
  end.

Definition input_shape_test (v : pyval) : config_exn + bool :=
  match v with
  | PTuple l =>
      if Nat.eqb (length l) 2 then
        match l with
        | first :: _ => py_gt_0 first
        | [] => inr false
        end
      else inr false
  | _ => inr false
  end.

(** [_validate_config]. *)
Definition _validate_config (d : list (string * pyval)) : config_exn + unit :=
  foldl (λ acc check, match acc with inl e => inl e | inr _ => check end)
    (inr ())
    [assert_key d "INPUT_SHAPE" input_shape_test;
     assert_key d "QUANTUM_DEPTH" py_gt_0;
     assert_key d "N_QUBITS" py_gt_0;
     assert_key d "MAX_WORKERS" py_gt_0;
     assert_key d "JWT_SECRET_KEY" (λ v, inr (py_truthy v));
     assert_key d "LATENCY_THRESHOLD" py_gt_0;
     assert_key d "MAX_PENDING_REQUESTS" py_ge_0].

(** [Config.__init__]: the dictionary of the new object, or the
    exception. *)
Definition Config_init : config_exn + list (string * pyval) :=
  let config_dict := _load_defaults in
  let config_dict := _load_env_vars config_dict in
  match _validate_config config_dict with
  | inl e => inl e
  | inr _ => inr config_dict
  end.
End Config.

(** ** monitoring.py: QuantumMonitor

    A [datetime] is the real number of seconds it stands for, and the
    field ["timestamp"] holds the reading whose ISO rendering the
    program stores.  The only caller of [log_error] passes an exception
    and the dictionary [{'signal_shape': shape}]; the record keeps the
    exception and the shape. *)

Record error_data : Type := mkErrorData {
  error_timestamp : R;
  error : exn;
  info : list nat
}.

Record request_data : Type := mkRequestData {
  timestamp : R;
  type : string;
  duration : R;
  status : string
}.

Record QuantumMonitor : Type := mkMonitor {
  errors : list error_data;
  requests : list request_data;
  start_time : R
}.

Definition QuantumMonitor_init (now : R) : QuantumMonitor := mkMonitor [] [] now.

Definition log_error (now : R) (e : exn) (additional_info : list nat)
    (self : QuantumMonitor) : error_data * QuantumMonitor :=
  let error_data := mkErrorData now e additional_info in
  (error_data,
   mkMonitor (errors self ++ [error_data]) (requests self) (start_time self)).

Definition log_request (now : R) (request_type : string) (duration : R)
    (status : string) (self : QuantumMonitor) : request_data * QuantumMonitor :=
  let request_data := mkRequestData now request_type duration status in
  (request_data,
   mkMonitor (errors self) (requests self ++ [request_data]) (start_time self)).

Record monitor_metrics : Type := mkMetrics {
  total_errors : nat;
  total_requests : nat;
  successful_requests : nat;
  error_rate : R;
  avg_request_duration : R;
  uptime_seconds : R
}.

Definition get_metrics (now : R) (self : QuantumMonitor) : monitor_metrics :=
  let total_requests := length (requests self) in
  let successful_requests :=
    length (filter (λ r, status r = "success") (requests self)) in
  let avg_duration :=
    if decide (0 < total_requests)
    then (Rsum (duration <$> requests self) / INR total_requests)%R
    else 0%R in
  mkMetrics (length (errors self)) total_requests successful_requests
    (if decide (0 < total_requests)
     then (INR (length (errors self)) / INR total_requests)%R else 0%R)
    avg_duration (now - start_time self)%R.

(** ** Scaling.py: QuantumScaler

    The decision part of the scaler.  The fields are the values that
    [__init__] and the methods read from the configuration; a metrics
    dictionary is a record. *)

Record QuantumScaler : Type := mkScaler {
  min_replicas : Z;
  max_replicas : Z;
  target_cpu_utilization : R;
  LATENCY_THRESHOLD : R;
  MAX_PENDING_REQUESTS : Z
}.

Record scaler_metrics : Type := mkScalerMetrics {
  cpu_utilization : R;
  memory_utilization : R;
  active_pods : Z;
  pending_requests : Z;
  latency : R
}.

Definition Rgtb (a b : R) : bool := if Rlt_dec b a then true else false.

(** [_should_scale]. *)
Definition _should_scale (self : QuantumScaler) (metrics : scaler_metrics) : bool :=
  Rgtb (cpu_utilization metrics) (target_cpu_utilization self)
  || Rgtb (latency metrics) (LATENCY_THRESHOLD self)
  || bool_decide (pending_requests metrics > MAX_PENDING_REQUESTS self)%Z.

(** [_scale_deployment]: the number of replicas that the method writes
    to the deployment, or [None] when it leaves the deployment alone. *)
Definition _scale_deployment (self : QuantumScaler) (metrics : scaler_metrics)
    : option Z :=
  let current_replicas := active_pods metrics in
  let new_replicas :=
    if Rgtb (cpu_utilization metrics) (target_cpu_utilization self)
    then Z.min (current_replicas + 1) (max_replicas self)
    else Z.max (current_replicas - 1) (min_replicas self) in
  if decide (new_replicas ≠ current_replicas) then Some new_replicas else None.

(** One round of the loop of [monitor_and_scale]: the patch, if any. *)
Definition scaling_round (self : QuantumScaler) (metrics : scaler_metrics)
    : option Z :=
  if _should_scale self metrics then _scale_deployment self metrics else None.

(** ** security.py: QuantumSecurityProtocol

    A [bytes] object is a list of integers.  The arrays that the
    methods draw from numpy's random generator are arguments of the
    definitions, so that a property holds for every outcome of the
    draw.  AES-GCM and HMAC belong to libraries and are parameters. *)

(** [bytes(ints)]: [ValueError] unless every element is in
    [range(256)]. *)
Definition py_bytes (ints : list Z) : result (list Z) :=
  if forallb (λ x, bool_decide (0 ≤ x < 256)%Z) ints then Ok ints
  else Raise ValueError.

(** [range(0, stop, step)]. *)
Definition py_range_step (stop step : nat) : list nat :=
  (λ j, j * step) <$> seq 0 ((stop + step - 1) / step).

Definition quantum_noise_threshold : R := (1 / 100)%R.

(** [_generate_quantum_key]; [quantum_random] is the array
    [np.random.randn(length * 8)]. *)
Definition _generate_quantum_key (key_length : nat) (quantum_random : list R)
    : result (list Z) :=
  let quantum_bits :=
    (λ r, if Rlt_dec quantum_noise_threshold r then true else false)
      <$> quantum_random in
  key_bytes ← py_bytes ((λ i, Z.of_nat (int_of_bin (take 8 (drop i quantum_bits))))
                          <$> py_range_step (length quantum_bits) 8);
  Ok (take key_length key_bytes).

(** [_generate_quantum_entropy]; [psi] is the array
    [np.random.uniform(0, 2*np.pi, bits)]. *)
Definition _generate_quantum_entropy (psi : list R) : list Z :=
  let quantum_states := (λ p, Cexp (Cmul (0, 1)%R (RtoC p))) <$> psi in
  (λ z, if Rlt_dec (1 / sqrt 2) (Cabs z) then 1 else 0)%Z <$> quantum_states.

(** The fields of the object that the methods below read: the AES key
    and the keys of the security layers, in order. *)
Record QuantumSecurityProtocol : Type := mkSecurity {
  quantum_key : list Z;
  security_layers : list (list Z)
}.

Record metadata : Type := mkMetadata {
  nonce : list Z;
  auth_tag : list Z
}.

(** What a call of [decrypt_multi_layer] does: it returns the data, or
    raises a Python exception, or the AES-GCM library raises its
    [InvalidTag]. *)
Inductive decrypt_outcome : Type :=
  | Decrypted (original_data : list Z)
  | DecryptRaises (e : exn)
  | DecryptInvalidTag.

(** [_add_quantum_noise] and [_remove_quantum_noise]: each call draws a
    key of its own. *)
Definition _add_quantum_noise (quantum_random : list R) (data : list Z)
    : result (list Z) :=
  noise ← _generate_quantum_key (length data) quantum_random;
  py_bytes (zip_with Z.lxor data noise).

Definition _remove_quantum_noise (quantum_random : list R) (data : list Z)
    : result (list Z) :=
  noise ← _generate_quantum_key (length data) quantum_random;
  py_bytes (zip_with Z.lxor data noise).

Section Security.
(** [hmac.new(key, msg, hashlib.sha3_512).digest()], and
    [AESGCM(key).encrypt(nonce, data, None)] with its [decrypt], which
    gives [None] where the library raises [InvalidTag]. *)
Variable hmac_sha3_512 : list Z → list Z → list Z.
Variable aesgcm_encrypt : list Z → list Z → list Z → list Z.
Variable aesgcm_decrypt : list Z → list Z → list Z → option (list Z).

(** [generate_quantum_signature]; [psi] is the draw of its call of
    [_generate_quantum_entropy(256)]. *)
Definition generate_quantum_signature (self : QuantumSecurityProtocol)
    (psi : list R) (data : list Z) : result (list Z) :=
  quantum_entropy ← py_bytes (_generate_quantum_entropy psi);
  let signatures :=
    foldl (λ signatures key,
             signatures ++ [hmac_sha3_512 key (data ++ quantum_entropy)])
          [] (security_layers self) in
  Ok (concat signatures).

(** [encrypt_multi_layer]; [urandom] is [os.urandom(12)]. *)
Definition encrypt_multi_layer (self : QuantumSecurityProtocol)
    (urandom : list Z) (quantum_random psi : list R) (data : list Z)
    : result (list Z * metadata) :=
  let nonce := urandom in
  noisy_data ← _add_quantum_noise quantum_random data;
  let encrypted_data := aesgcm_encrypt (quantum_key self) nonce noisy_data in
  auth_tag ← generate_quantum_signature self psi encrypted_data;
  Ok (encrypted_data, mkMetadata nonce auth_tag).

(** [decrypt_multi_layer]; [hmac.compare_digest] is equality. *)
Definition decrypt_multi_layer (self : QuantumSecurityProtocol)
    (psi quantum_random : list R) (encrypted_data : list Z) (md : metadata)
    : decrypt_outcome :=
  match generate_quantum_signature self psi encrypted_data with
  | Raise e => DecryptRaises e
  | Ok expected_tag =>
      if bool_decide (auth_tag md = expected_tag) then
        match aesgcm_decrypt (quantum_key self) (nonce md) encrypted_data with
        | None => DecryptInvalidTag
        | Some decrypted_data =>
            match _remove_quantum_noise quantum_random decrypted_data with
            | Ok original_data => Decrypted original_data
            | Raise e => DecryptRaises e
            end
        end
      else DecryptRaises ValueError
  end.
End Security.

(** ** quantum_transfer.py: QuantumTransferProtocol

    The arithmetic of a transfer.  The arrays drawn from numpy's random
    generator are arguments. *)

(** [np.argmin] of a one-dimensional array: the index of the first
    occurrence of the minimum; [ValueError] on an empty array. *)
Fixpoint argmin_scan (best_i : nat) (best : R) (i : nat) (v : list R) : nat :=
  match v with
  | [] => best_i
  | x :: v' =>
      if Rlt_dec x best then argmin_scan i x (S i) v'
      else argmin_scan best_i best (S i) v'
  end.

Definition np_argmin (v : list R) : result nat :=
  match v with
  | [] => Raise ValueError
  | x :: v' => Ok (argmin_scan 0 x 1 v')
  end.

(** [_quantum_transform]; [random] is [np.random.random(data.shape)]. *)
Definition _quantum_transform (random : list R) (data : list C) : list C :=
  let phase :=
    (λ u, Cexp (Cmul (Cmul (0, 2)%R (RtoC PI)) (RtoC u))) <$> random in
  zip_with Cmul data phase.

(** [_optimize_transfer]; [paths] is [np.random.randn(8, len(data))],
    a list of rows. *)
Definition _optimize_transfer (paths : list (list R)) (data : list C)
    : result (list C) :=
  let path_scores := (λ row, Rsum (Rabs <$> row)) <$> paths in
  k ← np_argmin path_scores;
  optimal_path ← py_index paths (Z.of_nat k);
  Ok (zip_with (λ z p, Cmul z (RtoC p)) data optimal_path).

(** An entry of [transfer_metrics]. *)
Record transfer_metric : Type := mkTransferMetric {
  tm_latency : R;
  tm_priority : bool;
  tm_error : option string
}.

(** [_calculate_average_latency]; [transfer_metrics[-10:]] is the last
    ten entries, or all of them when there are fewer. *)
Definition _calculate_average_latency (transfer_metrics : list transfer_metric)
    : np_float :=
  match transfer_metrics with
  | [] => Finite 0
  | _ :: _ =>
      let latencies :=
        tm_latency <$> drop (length transfer_metrics - 10) transfer_metrics in
      np_mean latencies
  end.

(** ** quantum_intelligence.py: QuantumIntelligenceAPI

    [process_signal] for a one-dimensional input.  The configuration
    holds [INPUT_SHAPE = (required_length, 1)]; after the reshape the
    array has the shape [(1, required_length, 1)], and its only block,
    [signal_data[0]], holds the fitted samples.  The neural network is a
    parameter, and so are the readings of the clock and the phase drawn
    by [quantum_phase_shift]. *)

(** [quantum_entropy]; [flatten] is the identity on the samples.  As
    for the processor, the differences and their deviation are exact
    reals: an overflow of the program is not represented. *)
Definition quantum_entropy (data : list R) : np_float :=
  if decide (length data < 2) then Finite 0
  else
    let state_differences := np_diff data in
    np_std state_differences.

(** [quantum_phase_shift]; [phase] is
    [np.random.uniform(0, 2*np.pi, size)]. *)
Definition quantum_phase_shift (phase : list R) : list C :=
  (λ p, Cexp (Cmul (0, 1)%R (RtoC p))) <$> phase.

(** The padding or truncation to [required_length] samples:
    [np.pad(..., (0, n), mode='constant')] appends [n] zeros. *)
Definition fit_to_input_shape (required_length : nat) (signal_data : list R)
    : list R :=
  if decide (length signal_data < required_length) then
    signal_data ++ replicate (required_length - length signal_data) 0%R
  else if decide (required_length < length signal_data) then
    take required_length signal_data
  else signal_data.

(** The fields of the object that [process_signal] reads or writes. *)
Record QuantumIntelligenceAPI : Type := mkAPI {
  metrics_requests : nat;
  monitor : QuantumMonitor
}.

Definition QuantumIntelligenceAPI_init (now : R) : QuantumIntelligenceAPI :=
  mkAPI 0 (QuantumMonitor_init now).

Section IntelligenceAPI.
(** [self.neural_network.predict], on the block of fitted samples; an
    exception it gives stands for whatever the network raises, which
    [process_signal] catches as [Exception] and raises again. *)
Context {NeuralFeatures : Type}.
Variable predict : list R → result NeuralFeatures.
Variable required_length : nat.

Record api_result : Type := mkApiResult {
  res_quantum_features : serialized;
  res_neural_features : NeuralFeatures;
  res_patterns : patterns;
  res_phases : serialized;
  res_processed_signal : list R;
  res_entropy : np_float;
  res_phase_shift : serialized
}.

(** The body of the [try] statement. *)
Definition process_signal_try (phase : list R) (signal_data : list R)
    : result api_result :=
  let signal_data := fit_to_input_shape required_length signal_data in
  quantum_results ← process_signal signal_data;
  neural_features ← predict signal_data;
  Ok (mkApiResult (fs_features quantum_results) neural_features
        (fs_patterns quantum_results) (fs_phases quantum_results)
        (fs_processed_signal quantum_results)
        (quantum_entropy signal_data)
        (_serialize_complex (quantum_phase_shift phase))).

(** [QuantumIntelligenceAPI.process_signal]: what the call returns or
    raises, and the object afterwards.  [time_start] and [time_end]
    are the two readings of [time.time()], [now] the reading of
    [datetime.now()] in the monitor. *)
Definition api_process_signal (time_start time_end now : R) (phase : list R)
    (signal_data : list R) (self : QuantumIntelligenceAPI)
    : result api_result * QuantumIntelligenceAPI :=
  let requests' := S (metrics_requests self) in
  match process_signal_try phase signal_data with
  | Ok result =>
      let duration := (time_end - time_start)%R in
      (Ok result,
       mkAPI requests'
         (log_request now "process_signal" duration "success" (monitor self)).2)
  | Raise e =>
      (Raise e,
       mkAPI requests'
         (log_error now e [1; required_length; 1] (monitor self)).2)
  end.
End IntelligenceAPI.

(** The objects that calls of [process_signal] can produce from a new
    object. *)
Inductive api_reachable {NeuralFeatures : Type}
    (predict : list R → result NeuralFeatures) (required_length : nat)
    : QuantumIntelligenceAPI → Prop :=
  | api_reachable_init (now : R) :
      api_reachable predict required_length (QuantumIntelligenceAPI_init now)
  | api_reachable_call (time_start time_end now : R) (phase signal_data : list R)
      (self : QuantumIntelligenceAPI) :
      api_reachable predict required_length self →
      api_reachable predict required_length
        (api_process_signal predict required_length
           time_start time_end now phase signal_data self).2.

(** ** The amplitudes of the program: float64 pairs

    The circuit's definitions above take any [Scalar]; this instance is
    numpy's [complex128] with IEEE 754 binary64 arithmetic, rounding to
    nearest: a sum or a product of complex numbers rounds each real
    operation once. *)
Section Float64.
Import PrimFloat.
Local Open Scope float_scope.

Definition complex128 : Type := (float * float)%type.

Definition complex128_scalar : Scalar complex128 := {|
s_zero := (0, 0);
s_one := (1, 0);
s_add := λ z w, (z.1 + w.1, z.2 + w.2);
s_mul := λ z w, (z.1 * w.1 - z.2 * w.2, z.1 * w.2 + z.2 * w.1);
s_sub := λ z w, (z.1 - w.1, z.2 - w.2);
s_opp := λ z, (- z.1, - z.2);
s_conj := λ z, (z.1, - z.2)
|}.

#[local] Existing Instance complex128_scalar.

(** [self.H], as [_initialize_gates] computes it:
  [np.array([[1, 1], [1, -1]]) / np.sqrt(2)]. *)
Definition H_float64 : list (list complex128) :=
let root := sqrt 2 in
[[(1 / root, 0); (1 / root, 0)]; [(1 / root, 0); (-1 / root, 0)]].

(** The sum of the squared magnitudes of a state, in float64. *)
Definition squared_magnitude_sum (state : list complex128) : float :=
foldl (λ acc z, acc + (z.1 * z.1 + z.2 * z.2)) 0 state.

(** [k] calls of [apply_gate(self.H, target)] in a row. *)
Definition apply_H_repeatedly (k : positive) (target : Z)
  (self : QuantumCircuit complex128) : result (QuantumCircuit complex128) :=
Pos.iter (λ r, r ≫= apply_gate H_float64 target)
         (Ok self) k.

(** The product of a two by two gate and a state of one qubit, summed
  as [np_sum] does.  [evaluated] gives its argument back, after the
  four floats of the two amplitudes have been computed. *)
Definition computed {T : Type} (x : float) (t : T) : T :=
if ltb x x then t else t.

Definition evaluated (z w : complex128) : list complex128 :=
computed z.1 (computed z.2 (computed w.1 (computed w.2 [z; w]))).

Definition one_qubit_product (gate : list (list complex128))
  (st : list complex128) : list complex128 :=
match gate, st with
| [[a; b]; [c; d]], [x; y] =>
    evaluated (s_add (s_mul a x) (s_add (s_mul b y) s_zero))
              (s_add (s_mul c x) (s_add (s_mul d y) s_zero))
| _, _ => st
end.

(** The state of one qubit with the real amplitude [a] at index 0. *)
Definition one_qubit_state (a : float) : list complex128 := [(a, 0); (0, 0)].

End Float64.

(** ** The range of float64

    The definitions of the processor compute with exact real numbers.
    They follow the float64 program up to rounding as long as no
    intermediate value leaves the finite floats, the largest of which
    is about 1.8e308.  [float64_safe signal] is a sufficient condition:
    the number of samples times the sum of their squares is at most
    1e300, which bounds every sum of squares, every power of a Fourier
    coefficient and their total.  The properties that an overflow would
    break assume it. *)
Definition float64_safe (signal : list R) : Prop :=
  (INR (length signal) * Rsum ((λ x, x * x) <$> signal) <= 10 ^ 300)%R.

(** * Running the definitions *)

Example format_bin_5 : format_bin 4 5 = [false; true; false; true].
Proof. reflexivity. Qed.
Example format_bin_wide : format_bin 2 5 = [true; false; true].
Proof. reflexivity. Qed.
Example format_bin_zero_width : format_bin 0 0 = [false].
Proof. reflexivity. Qed.
Example int_of_bin_5 : int_of_bin [false; true; false; true] = 5.
Proof. reflexivity. Qed.
Example py_index_neg : py_index [10; 20; 30] (-1) = Ok 30.
Proof. reflexivity. Qed.
Example py_index_out : py_index [10; 20; 30] 3 = Raise IndexError.
Proof. reflexivity. Qed.
Example py_index_out_neg : py_index [10; 20; 30] (-4) = Raise IndexError.
Proof. reflexivity. Qed.

Example init_2 : state (QuantumCircuit_init (A:=GaussZ) 2 3) = [(1,0); (0,0); (0,0); (0,0)]%Z.
Proof. reflexivity. Qed.

(** X on qubit 0 flips the most significant bit of the index. *)
Example apply_X_0 :
  state <$> apply_gate gate_X 0 (QuantumCircuit_init (A:=GaussZ) 2 3)
  = Ok [(0,0); (0,0); (1,0); (0,0)]%Z.
Proof. vm_compute. reflexivity. Qed.

(** The controlled NOT with control 0 and target 1 exchanges the
    amplitudes of indices 2 and 3. *)
Example entangle_0_1 :
  state <$> entangle_qubits 0 1
              (mkCircuit (A:=GaussZ) 2 3 [(1,0); (2,0); (3,0); (4,0)]%Z)
  = Ok [(1,0); (2,0); (4,0); (3,0)]%Z.
Proof. vm_compute. reflexivity. Qed.

Example apply_gate_target_too_large :
  apply_gate gate_X 2 (QuantumCircuit_init (A:=GaussZ) 2 3) = Raise IndexError.
Proof. vm_compute. reflexivity. Qed.

(** A three by three array is accepted as a gate: only its upper left
    block is read. *)
Example apply_gate_3x3 :
  state <$> apply_gate [[(0,0); (1,0); (7,0)]; [(1,0); (0,0); (7,0)]; [(7,0); (7,0); (7,0)]]%Z
              0 (QuantumCircuit_init (A:=GaussZ) 1 3)
  = Ok [(0,0); (1,0)]%Z.
Proof. vm_compute. reflexivity. Qed.

(** * Properties *)

(** ** Binary strings and indices *)

Lemma length_to_bits (w i : nat) : length (to_bits w i) = w.
Proof.
  revert i. induction w as [|w IH]; intros i; simpl; [done|].
  rewrite length_app, IH. simpl. lia.
Qed.

Lemma int_of_bin_snoc (s : list bool) (c : bool) :
  int_of_bin (s ++ [c]) = 2 * int_of_bin s + int_of_char c.
Proof. unfold int_of_bin. by rewrite foldl_snoc. Qed.

Lemma int_of_bin_bound (s : list bool) : int_of_bin s < 2 ^ length s.
Proof.
  induction s as [|c s IH] using rev_ind; [cbv; lia|].
  rewrite int_of_bin_snoc, length_app, Nat.add_1_r, Nat.pow_succ_r'.
  unfold int_of_char. destruct c; cbn [Nat.b2n]; lia.
Qed.

Lemma int_of_bin_to_bits (w i : nat) : i < 2 ^ w → int_of_bin (to_bits w i) = i.
Proof.
  revert i. induction w as [|w IH]; intros i Hi.
  - simpl in *. unfold int_of_bin. simpl. lia.
  - cbn [to_bits]. rewrite int_of_bin_snoc, IH.
    + unfold int_of_char.
      pose proof (Nat.div_mod_eq i 2) as Hdm.
      assert (Nat.b2n (Nat.odd i) = i mod 2) as ->; [|lia].
      rewrite <- Nat.bit0_mod. by rewrite Nat.bit0_odd.
    + rewrite Nat.pow_succ_r' in Hi.
      apply Nat.Div0.div_lt_upper_bound. lia.
Qed.

Lemma to_bits_int_of_bin (s : list bool) : to_bits (length s) (int_of_bin s) = s.
Proof.
  induction s as [|c s IH] using rev_ind; [done|].
  rewrite length_app, Nat.add_1_r, int_of_bin_snoc. cbn [to_bits].
  assert ((2 * int_of_bin s + int_of_char c) / 2 = int_of_bin s) as ->.
  { symmetry. apply (Nat.div_unique _ 2 _ (int_of_char c)); [|lia].
    destruct c; cbv; lia. }
  rewrite IH. f_equal. f_equal.
  rewrite Nat.odd_add, Nat.odd_mul. by destruct c.
Qed.

(** Inside the range of the loops the string has exactly [n] characters. *)
Lemma format_bin_to_bits (n i : nat) : 0 < n → i < 2 ^ n → format_bin n i = to_bits n i.
Proof.
  intros Hn Hi. unfold format_bin. f_equal.
  destruct (decide (i = 0)) as [->|Hne]; [rewrite Nat.log2_nonpos by lia; lia|].
  assert (Nat.log2 i < n) by (apply Nat.log2_lt_pow2; lia). lia.
Qed.

Lemma length_format_bin (n i : nat) : 0 < n → i < 2 ^ n → length (format_bin n i) = n.
Proof. intros. by rewrite format_bin_to_bits, length_to_bits. Qed.

Lemma to_bits_inj (n i j : nat) :
  i < 2 ^ n → j < 2 ^ n → to_bits n i = to_bits n j → i = j.
Proof.
  intros Hi Hj Heq.
  by rewrite <- (int_of_bin_to_bits n i), <- (int_of_bin_to_bits n j), Heq.
Qed.

Lemma flip_bound (n t i : nat) : flip n t i < 2 ^ n.
Proof.
  unfold flip.
  pose proof (int_of_bin_bound (<[t := negb (bit n t i)]> (to_bits n i))) as Hb.
  by rewrite length_insert, length_to_bits in Hb.
Qed.

Lemma to_bits_flip (n t i : nat) :
  to_bits n (flip n t i) = <[t := negb (bit n t i)]> (to_bits n i).
Proof.
  unfold flip.
  set (s := <[t := negb (bit n t i)]> (to_bits n i)).
  assert (length s = n) as Hlen by (unfold s; by rewrite length_insert, length_to_bits).
  rewrite <- Hlen at 1. apply to_bits_int_of_bin.
Qed.

Lemma bit_flip (n t i : nat) : t < n → bit n t (flip n t i) = negb (bit n t i).
Proof.
  intros Ht. unfold bit at 1. rewrite to_bits_flip.
  apply list_lookup_total_insert_eq. by rewrite length_to_bits.
Qed.

Lemma bit_flip_ne (n t k i : nat) : t ≠ k → bit n k (flip n t i) = bit n k i.
Proof.
  intros Hne. unfold bit at 1. rewrite to_bits_flip.
  by apply list_lookup_total_insert_ne.
Qed.

Lemma flip_flip (n t i : nat) : i < 2 ^ n → flip n t (flip n t i) = i.
Proof.
  intros Hi. apply (to_bits_inj n); [apply flip_bound|done|].
  rewrite to_bits_flip, to_bits_flip, list_insert_insert_eq.
  destruct (decide (t < n)) as [Ht|Ht].
  - rewrite bit_flip, negb_involutive by done.
    apply list_insert_id. unfold bit.
    apply list_lookup_lookup_total_lt. by rewrite length_to_bits.
  - apply list_insert_ge. rewrite length_to_bits. lia.
Qed.

Lemma flip_ne (n t i : nat) : t < n → flip n t i ≠ i.
Proof.
  intros Ht Heq. pose proof (bit_flip n t i Ht) as Hb.
  rewrite Heq in Hb. by destruct (bit n t i).
Qed.

(** Two indices whose strings agree on every character but [t] are
    equal or each other's [flip]. *)
Lemma agree_except_spec (n t i j : nat) :
  t < n → i < 2 ^ n → j < 2 ^ n →
  (∀ k, k < n → k ≠ t → bit n k i = bit n k j) ↔ j = i ∨ j = flip n t i.
Proof.
  intros Ht Hi Hj. split.
  - intros Hag. destruct (decide (bit n t i = bit n t j)) as [Heq|Hne].
    + left. apply (to_bits_inj n); [done..|].
      apply (list_eq_same_length _ _ n); [by rewrite length_to_bits..|].
      intros k x y Hk Hx Hy.
      apply list_lookup_total_correct in Hx, Hy.
      destruct (decide (k = t)) as [->|Hkt].
      * unfold bit in Heq. congruence.
      * specialize (Hag k Hk Hkt). unfold bit in Hag. congruence.
    + right. apply (to_bits_inj n); [done|apply flip_bound|].
      rewrite to_bits_flip.
      apply (list_eq_same_length _ _ n);
        [by rewrite length_insert, length_to_bits|by rewrite length_to_bits|].
      intros k x y Hk Hx Hy.
      apply list_lookup_total_correct in Hx, Hy.
      destruct (decide (k = t)) as [->|Hkt].
      * rewrite list_lookup_total_insert_eq in Hy by (by rewrite length_to_bits).
        unfold bit in *. subst.
        destruct (to_bits n i !!! t), (to_bits n j !!! t); done.
      * rewrite list_lookup_total_insert_ne in Hy by done.
        specialize (Hag k Hk Hkt). unfold bit in Hag. congruence.
  - intros [->| ->] k Hk Hkt; [done|]. by rewrite bit_flip_ne.
Qed.

Lemma bit_testbit (n t i : nat) : t < n → bit n t i = Nat.testbit i (n - 1 - t).
Proof.
  unfold bit. revert i t. induction n as [|n IH]; intros i t Ht; [lia|].
  cbn [to_bits]. destruct (decide (t = n)) as [->|Hne].
  - rewrite list_lookup_total_middle by (by rewrite length_to_bits).
    replace (S n - 1 - n) with 0 by lia. by rewrite Nat.bit0_odd.
  - rewrite lookup_total_app_l by (rewrite length_to_bits; lia).
    rewrite IH by lia. rewrite Nat.div2_bits by lia.
    f_equal. lia.
Qed.

Lemma lookup_fmap_seq {X : Type} (f : nat → X) (n k : nat) :
  k < n → (f <$> seq 0 n) !! k = Some (f k).
Proof. intros Hk. by rewrite list_lookup_fmap, lookup_seq_lt. Qed.

(** ** Loops *)

Lemma bind_Ok {X Y : Type} (x : X) (k : X → result Y) : (Ok x ≫= k) = k x.
Proof. done. Qed.

Lemma for_each_app {St X : Type} (body : St → X → result St) (xs ys : list X) (s : St) :
  for_each body (xs ++ ys) s = s' ← for_each body xs s; for_each body ys s'.
Proof.
  revert s. induction xs as [|x xs IH]; intros s; [done|].
  simpl. destruct (body s x) as [s'|e]; simpl; [apply IH|done].
Qed.

(** The loop rule for [for k in range(n)]: an invariant indexed by the
    number of completed iterations. *)
Lemma for_range_inv {St : Type} (body : St → nat → result St) (Inv : nat → St → Prop)
    (n : nat) (s : St) :
  Inv 0 s →
  (∀ k s, k < n → Inv k s → ∃ s', body s k = Ok s' ∧ Inv (S k) s') →
  ∃ s', for_each body (seq 0 n) s = Ok s' ∧ Inv n s'.
Proof.
  intros H0 Hstep.
  assert (∀ m a s, a + m = n → Inv a s →
            ∃ s', for_each body (seq a m) s = Ok s' ∧ Inv n s') as Hgen.
  { induction m as [|m IH]; intros a s0 Ham Ha; simpl.
    - exists s0. split; [done|]. by replace n with a by lia.
    - destruct (Hstep a s0) as (s1 & -> & H1); [lia|done|]. simpl.
      apply IH; [lia|done]. }
  by apply Hgen.
Qed.

(** An exception raised by the first iteration leaves the loop. *)
Lemma for_each_raise_first {St X : Type} (body : St → X → result St) x xs s e :
  body s x = Raise e → for_each body (x :: xs) s = Raise e.
Proof. intros Hb. simpl. by rewrite Hb. Qed.

(** A loop raises [e] when some iteration raises [e] from every state
    and no iteration raises anything else. *)
Lemma for_each_raise {St X : Type} (body : St → X → result St) (e : exn) xs x s :
  x ∈ xs →
  (∀ s, body s x = Raise e) →
  (∀ s y e', body s y = Raise e' → e' = e) →
  for_each body xs s = Raise e.
Proof.
  intros Hin Hx Honly. revert s.
  induction xs as [|y xs IH]; intros s; [by apply elem_of_nil in Hin|].
  simpl. destruct (body s y) as [s'|e'] eqn:Hb; simpl.
  - apply elem_of_cons in Hin as [->|Hin]; [by rewrite Hx in Hb|by apply IH].
  - f_equal. by eapply Honly.
Qed.

Lemma py_norm_index_nat (len k : nat) :
  k < len → py_norm_index len (Z.of_nat k) = Some k.
Proof.
  intros Hk. unfold py_norm_index.
  rewrite decide_True by lia. rewrite decide_True by lia. by rewrite Nat2Z.id.
Qed.

Lemma py_norm_index_None (len : nat) (k : Z) :
  (k < - Z.of_nat len ∨ Z.of_nat len ≤ k)%Z → py_norm_index len k = None.
Proof.
  intros Hk. unfold py_norm_index.
  destruct (decide (0 ≤ k)%Z).
  - by rewrite decide_False by lia.
  - by rewrite decide_False by lia.
Qed.

Lemma py_index_nat {X : Type} `{!Inhabited X} (l : list X) (k : nat) :
  k < length l → py_index l (Z.of_nat k) = Ok (l !!! k).
Proof.
  intros Hk. unfold py_index. rewrite py_norm_index_nat by done.
  by rewrite (list_lookup_lookup_total_lt l k Hk).
Qed.

Lemma py_index_out_of_range {X : Type} (l : list X) (k : Z) :
  (k < - Z.of_nat (length l) ∨ Z.of_nat (length l) ≤ k)%Z →
  py_index l k = Raise IndexError.
Proof. intros Hk. unfold py_index. by rewrite py_norm_index_None. Qed.

Lemma py_index_only_IndexError {X : Type} (l : list X) (k : Z) e :
  py_index l k = Raise e → e = IndexError.
Proof.
  unfold py_index. destruct (py_norm_index _ _) as [i|]; [|congruence].
  destruct (l !! i); congruence.
Qed.

Lemma py_set_index_nat {X : Type} (l : list X) (k : nat) (v : X) :
  k < length l → py_set_index l (Z.of_nat k) v = Ok (<[k := v]> l).
Proof.
  intros Hk. unfold py_set_index. by rewrite py_norm_index_nat.
Qed.

Lemma agree_elsewhere_iff (n t i j : nat) :
  agree_elsewhere n t i j ↔ ∀ k, k < n → k ≠ t → bit n k i = bit n k j.
Proof.
  unfold agree_elsewhere. rewrite Forall_forall. split.
  - intros Hall k Hk. apply Hall, elem_of_seq. lia.
  - intros Hall k Hk%elem_of_seq. apply Hall. lia.
Qed.

Lemma agree_elsewhere_refl (n t i : nat) : agree_elsewhere n t i i.
Proof. by apply agree_elsewhere_iff. Qed.

Lemma agree_elsewhere_flip (n t i j : nat) :
  t < n → i < 2 ^ n → j < 2 ^ n →
  agree_elsewhere n t i j ↔ j = i ∨ j = flip n t i.
Proof. intros. rewrite agree_elsewhere_iff. by apply agree_except_spec. Qed.

(** The test of [apply_gate] on the two strings decides
    [agree_elsewhere]. *)
Lemma agree_except_decide (n t i j : nat) :
  agree_except n (Z.of_nat t) (to_bits n i) (to_bits n j)
  = bool_decide (agree_elsewhere n t i j).
Proof.
  apply eq_bool_prop_intro. unfold agree_except.
  rewrite forallb_True, Forall_forall, bool_decide_spec, agree_elsewhere_iff.
  split.
  - intros Hall k Hk Hkt. specialize (Hall k).
    rewrite bool_decide_spec in Hall. apply Hall.
    apply list_elem_of_filter. split; [lia|]. apply elem_of_seq. lia.
  - intros Hall k [Hkt Hk%elem_of_seq]%list_elem_of_filter.
    apply bool_decide_spec. apply Hall; lia.
Qed.

Section MatrixFacts.
Context {A : Type} `{Scalar A}.
Local Open Scope scalar_scope.
Local Abbreviation matrix := (list (list A)).

Lemma square_lookup (dim : nat) (m : matrix) (i : nat) :
  square dim m → i < dim → ∃ row, m !! i = Some row ∧ length row = dim.
Proof.
  intros [Hlen Hrows] Hi.
  destruct (lookup_lt_is_Some_2 m i) as [row Hrow]; [lia|].
  exists row. split; [done|]. by eapply Hrows.
Qed.

Lemma square_eye (dim : nat) : square dim (np_eye dim).
Proof.
  unfold np_eye. split.
  - by rewrite length_fmap, length_seq.
  - intros i row Hrow. rewrite list_lookup_fmap in Hrow.
    destruct (seq 0 dim !! i); simplify_eq/=.
    by rewrite length_fmap, length_seq.
Qed.

Lemma entry_eye (dim i j : nat) :
  i < dim → j < dim → entry (np_eye dim) i j = if decide (i = j) then 1 else 0.
Proof.
  intros Hi Hj. unfold entry, np_eye.
  rewrite (list_lookup_total_correct _ i
             ((λ j, if decide (i = j) then 1 else 0) <$> seq 0 dim)).
  - apply list_lookup_total_correct.
    by rewrite list_lookup_fmap, lookup_seq_lt.
  - by rewrite list_lookup_fmap, lookup_seq_lt.
Qed.

(** An assignment inside a square matrix succeeds and changes one
    entry. *)
Lemma mat_set_square (dim : nat) (m : matrix) (i j : nat) (v : A) :
  square dim m → i < dim → j < dim →
  ∃ m', mat_set m i j v = Ok m' ∧ square dim m' ∧
        ∀ i' j', entry m' i' j' = if decide (i' = i ∧ j' = j) then v else entry m i' j'.
Proof.
  intros Hsq Hi Hj.
  destruct (square_lookup dim m i Hsq Hi) as (row & Hrow & Hlen).
  destruct Hsq as [Hm Hrows].
  exists (<[i := <[j := v]> row]> m). split; [|split; [split|]].
  - unfold mat_set. rewrite Hrow. by rewrite decide_True by lia.
  - by rewrite length_insert.
  - intros i' row' Hrow'.
    destruct (decide (i = i')) as [<-|Hne].
    + rewrite list_lookup_insert_eq in Hrow' by lia. simplify_eq.
      by rewrite length_insert.
    + rewrite list_lookup_insert_ne in Hrow' by done. by eapply Hrows.
  - intros i' j'. unfold entry.
    destruct (decide (i' = i)) as [->|Hne].
    + rewrite list_lookup_total_insert_eq by lia.
      destruct (decide (j' = j)) as [->|Hnej].
      * rewrite list_lookup_total_insert_eq by lia. by rewrite decide_True.
      * rewrite list_lookup_total_insert_ne by done.
        rewrite decide_False by tauto.
        by rewrite (list_lookup_total_correct m i row).
    + rewrite list_lookup_total_insert_ne by done.
      by rewrite decide_False by tauto.
Qed.

Lemma mat_get_entry (m : matrix) (i j : nat) :
  (∃ row, m !! i = Some row ∧ j < length row) → mat_get m i j = Ok (entry m i j).
Proof.
  intros (row & Hrow & Hj). unfold mat_get, entry. rewrite Hrow.
  rewrite (list_lookup_total_correct m i row Hrow).
  by rewrite (list_lookup_lookup_total_lt row j Hj).
Qed.

Lemma mat_get_gate (gate : matrix) (a b : bool) :
  shape_2x2 gate → mat_get gate (int_of_char a) (int_of_char b) = Ok (gate_at gate a b).
Proof.
  intros [Hlen Hrows]. apply mat_get_entry.
  destruct (lookup_lt_is_Some_2 gate (int_of_char a)) as [row Hrow].
  { destruct a; simpl; lia. }
  exists row. split; [done|]. rewrite (Hrows _ _ Hrow). destruct b; simpl; lia.
Qed.

Lemma mat_get_only_IndexError (m : matrix) (i j : nat) e :
  mat_get m i j = Raise e → e = IndexError.
Proof.
  unfold mat_get. destruct (m !! i) as [row|]; [|congruence].
  destruct (row !! j); congruence.
Qed.

Lemma mat_set_only_IndexError (m : matrix) (i j : nat) v e :
  mat_set m i j v = Raise e → e = IndexError.
Proof.
  unfold mat_set. destruct (m !! i) as [row|]; [|congruence].
  case_decide; congruence.
Qed.

(** *** The operator built by [apply_gate] *)

Lemma apply_gate_cell_ok (n t : nat) (gate : matrix) (dim i j : nat) (m : matrix) :
  0 < n → t < n → dim = 2 ^ n → i < dim → j < dim →
  shape_2x2 gate → square dim m →
  ∃ m', apply_gate_cell n gate (Z.of_nat t) i (format_bin n i) m j = Ok m' ∧
        square dim m' ∧
        ∀ i' j', entry m' i' j' =
          if decide (i' = i ∧ j' = j ∧ agree_elsewhere n t i j)
          then gate_at gate (bit n t i) (bit n t j)
          else entry m i' j'.
Proof.
  intros Hn Ht -> Hi Hj Hg Hsq. unfold apply_gate_cell.
  rewrite !format_bin_to_bits by done. rewrite agree_except_decide.
  destruct (decide (agree_elsewhere n t i j)) as [Hag|Hag].
  - rewrite bool_decide_eq_true_2 by done.
    rewrite !py_index_nat by (by rewrite length_to_bits). simpl.
    rewrite mat_get_gate by done. simpl.
    destruct (mat_set_square (2 ^ n) m i j (gate_at gate (bit n t i) (bit n t j)))
      as (m' & Hset & Hsq' & Hent); [done..|].
    exists m'. split; [done|]. split; [done|].
    intros i' j'. rewrite Hent.
    destruct (decide (i' = i ∧ j' = j)) as [[-> ->]|Hne].
    + by rewrite decide_True.
    + by rewrite decide_False by tauto.
  - rewrite bool_decide_eq_false_2 by done.
    exists m. split; [done|]. split; [done|].
    intros i' j'. by rewrite decide_False by tauto.
Qed.

Lemma apply_gate_row_ok (n t : nat) (gate : matrix) (dim i : nat) (m : matrix) :
  0 < n → t < n → dim = 2 ^ n → i < dim →
  shape_2x2 gate → square dim m →
  ∃ m', apply_gate_row n gate (Z.of_nat t) m i = Ok m' ∧
        square dim m' ∧
        ∀ i' j', j' < dim → entry m' i' j' =
          if decide (i' = i ∧ agree_elsewhere n t i j')
          then gate_at gate (bit n t i) (bit n t j')
          else entry m i' j'.
Proof.
  intros Hn Ht Hdim Hi Hg Hsq. unfold apply_gate_row. rewrite <- Hdim.
  destruct (for_range_inv
    (apply_gate_cell n gate (Z.of_nat t) i (format_bin n i))
    (λ k m', square dim m' ∧
       ∀ i' j', entry m' i' j' =
         if decide (i' = i ∧ j' < k ∧ agree_elsewhere n t i j')
         then gate_at gate (bit n t i) (bit n t j')
         else entry m i' j')
    dim m) as (m' & Hrun & Hsq' & Hent).
  - split; [done|]. intros i' j'. by rewrite decide_False by lia.
  - intros k m1 Hk [Hsq1 Hent1].
    destruct (apply_gate_cell_ok n t gate dim i k m1) as (m2 & Hc & Hsq2 & Hent2);
      [done..|].
    exists m2. split; [done|]. split; [done|].
    intros i' j'. rewrite Hent2, Hent1.
    destruct (decide (i' = i ∧ j' = k ∧ agree_elsewhere n t i k))
      as [(-> & -> & Hag)|Hne].
    { by rewrite decide_True by (split_and!; [done|lia|done]). }
    destruct (decide (i' = i ∧ j' < k ∧ agree_elsewhere n t i j'))
      as [(-> & Hlt & Hag)|Hne2].
    { by rewrite decide_True by (split_and!; [done|lia|done]). }
    rewrite decide_False; [done|]. intros (-> & Hlt & Hag).
    destruct (decide (j' = k)) as [->|Hjk]; [by apply Hne|].
    apply Hne2. split_and!; [done|lia|done].
  - exists m'. split; [done|]. split; [done|].
    intros i' j' Hj'. rewrite Hent.
    destruct (decide (i' = i ∧ agree_elsewhere n t i j')) as [[-> Hag]|Hne].
    { by rewrite decide_True by (split_and!; done). }
    rewrite decide_False; [done|]. intros (-> & _ & Hag). by apply Hne.
Qed.

Lemma apply_gate_full_ok (n t : nat) (gate : matrix) :
  t < n → shape_2x2 gate →
  ∃ m, apply_gate_full n gate (Z.of_nat t) = Ok m ∧
       square (2 ^ n) m ∧
       ∀ i j, i < 2 ^ n → j < 2 ^ n → entry m i j = embedded_entry n t gate i j.
Proof.
  intros Ht Hg. unfold apply_gate_full.
  set (dim := 2 ^ n).
  destruct (for_range_inv
    (apply_gate_row n gate (Z.of_nat t))
    (λ k m', square dim m' ∧
       ∀ i j, i < dim → j < dim → entry m' i j =
         if decide (i < k ∧ agree_elsewhere n t i j)
         then gate_at gate (bit n t i) (bit n t j)
         else entry (np_eye dim) i j)
    dim (np_eye dim)) as (m' & Hrun & Hsq' & Hent).
  - split; [apply square_eye|]. intros i j _ _. by rewrite decide_False by lia.
  - intros k m1 Hk [Hsq1 Hent1].
    destruct (apply_gate_row_ok n t gate dim k m1) as (m2 & Hc & Hsq2 & Hent2);
      [lia|done..|].
    exists m2. split; [done|]. split; [done|].
    intros i j Hi Hj. rewrite Hent2 by done.
    destruct (decide (i = k ∧ agree_elsewhere n t k j)) as [[-> Hag]|Hne].
    + by rewrite decide_True by (split; [lia|done]).
    + rewrite Hent1 by done.
      destruct (decide (i < k ∧ agree_elsewhere n t i j)) as [[Hlt Hag]|Hne1].
      { by rewrite decide_True by (split; [lia|done]). }
      rewrite decide_False; [done|]. intros [Hlt Hag].
      destruct (decide (i = k)) as [->|Hik]; [by apply Hne|].
      apply Hne1. split; [lia|done].
  - exists m'. split; [done|]. split; [done|].
    intros i j Hi Hj. rewrite Hent by done. unfold embedded_entry.
    destruct (decide (agree_elsewhere n t i j)) as [Hag|Hag].
    + by rewrite decide_True by done.
    + rewrite decide_False by tauto. rewrite entry_eye by done.
      rewrite decide_False; [done|]. intros ->. apply Hag, agree_elsewhere_refl.
Qed.

(** *** The operator built by [entangle_qubits] *)

Lemma entangle_row_ok (n c t : nat) (dim i : nat) (m : matrix) :
  0 < n → c < n → t < n → dim = 2 ^ n → i < dim → square dim m →
  ∃ m', entangle_row n (Z.of_nat c) (Z.of_nat t) m i = Ok m' ∧
        square dim m' ∧
        ∀ i' j', entry m' i' j' =
          if bit n c i then
            if decide (i' = i) then
              (if decide (j' = flip n t i) then 1
               else if decide (j' = i) then 0 else entry m i' j')
            else if decide (i' = flip n t i) then
              (if decide (j' = i) then 1
               else if decide (j' = flip n t i) then 0 else entry m i' j')
            else entry m i' j'
          else entry m i' j'.
Proof.
  intros Hn Hc Ht -> Hi Hsq. unfold entangle_row.
  rewrite format_bin_to_bits by done.
  rewrite (py_index_nat _ c) by (by rewrite length_to_bits). simpl.
  fold (bit n c i). destruct (bit n c i); [|exists m; by split_and!].
  rewrite (py_index_nat _ t) by (by rewrite length_to_bits). simpl.
  rewrite py_set_index_nat by (by rewrite length_to_bits). simpl.
  fold (bit n t i). fold (flip n t i).
  pose proof (flip_bound n t i) as Hj.
  pose proof (flip_ne n t i Ht) as Hji.
  set (j := flip n t i) in *.
  destruct (mat_set_square (2 ^ n) m i i 0) as (m1 & -> & Hsq1 & He1); [done..|].
  simpl.
  destruct (mat_set_square (2 ^ n) m1 i j 1) as (m2 & -> & Hsq2 & He2); [done..|].
  simpl.
  destruct (mat_set_square (2 ^ n) m2 j j 0) as (m3 & -> & Hsq3 & He3); [done..|].
  simpl.
  destruct (mat_set_square (2 ^ n) m3 j i 1) as (m4 & -> & Hsq4 & He4); [done..|].
  exists m4. split; [done|]. split; [done|]. clearbody j.
  intros i' j'. rewrite He4, He3, He2, He1.
  repeat case_decide; destruct_and?; subst; try done; exfalso; intuition congruence.
Qed.

Lemma entangle_full_ok (n c t : nat) :
  c < n → t < n →
  ∃ m, entangle_full n (Z.of_nat c) (Z.of_nat t) = Ok m ∧
       square (2 ^ n) m ∧
       ∀ i j, i < 2 ^ n → j < 2 ^ n →
         entry m i j = if decide (j = entangle_perm n c t i) then 1 else 0.
Proof.
  intros Hc Ht. unfold entangle_full.
  set (dim := 2 ^ n).
  set (touched := λ k i : nat,
         (i < k ∧ bit n c i) ∨ (flip n t i < k ∧ bit n c (flip n t i))).
  destruct (for_range_inv
    (entangle_row n (Z.of_nat c) (Z.of_nat t))
    (λ k m', square dim m' ∧
       ∀ i j, i < dim → j < dim → entry m' i j =
         if decide (touched k i)
         then (if decide (j = flip n t i) then 1 else 0)
         else entry (np_eye dim) i j)
    dim (np_eye dim)) as (m' & Hrun & Hsq' & Hent).
  - split; [apply square_eye|]. intros i j _ _.
    rewrite decide_False; [done|]. unfold touched. lia.
  - intros k m1 Hk [Hsq1 Hent1].
    destruct (entangle_row_ok n c t dim k m1) as (m2 & Hr & Hsq2 & Hent2);
      [lia|done..|].
    exists m2. split; [done|]. split; [done|].
    intros i j Hi Hj. rewrite Hent2.
    pose proof (flip_ne n t k Ht) as Hfk.
    pose proof (flip_ne n t i Ht) as Hfi.
    pose proof (flip_flip n t k Hk) as Hffk.
    pose proof (flip_flip n t i Hi) as Hffi.
    destruct (bit n c k) eqn:Hbk.
    + destruct (decide (i = k)) as [->|Hik].
      { rewrite (decide_True (P := touched (S k) k)) by (left; split; [lia|by rewrite Hbk]).
        destruct (decide (j = flip n t k)) as [->|Hjf]; [done|].
        destruct (decide (j = k)) as [->|Hjk]; [done|].
        rewrite Hent1 by done. case_decide; [by rewrite decide_False|].
        rewrite entry_eye by done. by rewrite decide_False. }
      destruct (decide (i = flip n t k)) as [->|Hifk].
      { rewrite (decide_True (P := touched (S k) (flip n t k)))
          by (right; rewrite Hffk; split; [lia|by rewrite Hbk]).
        rewrite Hffk.
        destruct (decide (j = k)) as [->|Hjk]; [done|].
        destruct (decide (j = flip n t k)) as [->|Hjf]; [done|].
        rewrite Hent1 by done.
        case_decide; [rewrite Hffk; by rewrite decide_False|].
        rewrite entry_eye by done. by rewrite decide_False. }
      rewrite Hent1 by done.
      assert (flip n t i ≠ k) as Hfik.
      { intros Hfe. apply Hifk. by rewrite <- Hfe, Hffi. }
      assert (touched (S k) i ↔ touched k i) as Hiff.
      { unfold touched. split; intros [[? ?]|[? ?]]; [left|right|left|right];
          (split; [lia|done]). }
      destruct (decide (touched k i)) as [Htk|Htk].
      * by rewrite (decide_True (P := touched (S k) i)) by (by apply Hiff).
      * by rewrite (decide_False (P := touched (S k) i)) by (by rewrite Hiff).
    + rewrite Hent1 by done.
      assert (touched (S k) i ↔ touched k i) as Hiff.
      { unfold touched. split; intros [[? Hb]|[? Hb]]; [left|right|left|right];
          (split; [|done]); try lia.
        - destruct (decide (i = k)) as [->|]; [|lia]. by rewrite Hbk in Hb.
        - destruct (decide (flip n t i = k)) as [Hfe|]; [|lia].
          by rewrite Hfe, Hbk in Hb. }
      destruct (decide (touched k i)) as [Htk|Htk].
      * by rewrite (decide_True (P := touched (S k) i)) by (by apply Hiff).
      * by rewrite (decide_False (P := touched (S k) i)) by (by rewrite Hiff).
  - exists m'. split; [done|]. split; [done|].
    intros i j Hi Hj. rewrite Hent by done. unfold entangle_perm.
    pose proof (flip_bound n t i) as Hfb. fold dim in Hfb.
    destruct (bit n c i || bit n c (flip n t i)) eqn:Hor.
    + rewrite decide_True; [done|]. unfold touched.
      apply orb_prop in Hor as [Hb|Hb]; [left|right]; (split; [lia|by rewrite Hb]).
    + apply orb_false_elim in Hor as [Hb1 Hb2].
      rewrite decide_False.
      * rewrite entry_eye by done.
        destruct (decide (i = j)) as [->|Hne]; [by rewrite decide_True|].
        by rewrite decide_False by congruence.
      * unfold touched. rewrite Hb1, Hb2. intros [[_ []]|[_ []]].
Qed.

End MatrixFacts.

(** ** Sums and products with a vector *)

Section SumFacts.
Context {A : Type} `{ScalarLaws A}.
Local Open Scope scalar_scope.
Local Abbreviation matrix := (list (list A)).

Add Ring scalar_ring_facts : scalar_ring.

Lemma np_sum_cons (x : A) (v : list A) : np_sum (x :: v) = x + np_sum v.
Proof. done. Qed.

Lemma np_sum_ext {X : Type} (f g : X → A) (l : list X) :
  (∀ x, x ∈ l → f x = g x) → np_sum (f <$> l) = np_sum (g <$> l).
Proof.
  induction l as [|x l IH]; intros Hfg; [done|].
  rewrite !fmap_cons, !np_sum_cons, Hfg, IH; [done| |by left].
  intros y Hy. apply Hfg. by right.
Qed.

Lemma np_sum_zero {X : Type} (f : X → A) (l : list X) :
  (∀ x, x ∈ l → f x = 0) → np_sum (f <$> l) = 0.
Proof.
  induction l as [|x l IH]; intros Hf; [done|].
  rewrite fmap_cons, np_sum_cons, Hf, IH; [ring| |by left].
  intros y Hy. apply Hf. by right.
Qed.

Lemma np_sum_add {X : Type} (f g : X → A) (l : list X) :
  np_sum ((λ x, f x + g x) <$> l) = np_sum (f <$> l) + np_sum (g <$> l).
Proof.
  induction l as [|x l IH]; [simpl; unfold np_sum; simpl; ring|].
  rewrite !fmap_cons, !np_sum_cons, IH. ring.
Qed.

Lemma np_sum_perm (v w : list A) : v ≡ₚ w → np_sum v = np_sum w.
Proof.
  induction 1 as [|x v w _ IH|x y v|v w u _ IH1 _ IH2].
  - done.
  - by rewrite !np_sum_cons, IH.
  - rewrite !np_sum_cons. ring.
  - congruence.
Qed.

(** A sum with a single term that may differ from 0. *)
Lemma np_sum_single {X : Type} `{EqDecision X} (f : X → A) (l : list X) (a : X) :
  NoDup l → a ∈ l → (∀ x, x ∈ l → x ≠ a → f x = 0) → np_sum (f <$> l) = f a.
Proof.
  induction l as [|x l IH]; intros Hnd Hin Hz; [by apply elem_of_nil in Hin|].
  apply NoDup_cons in Hnd as [Hx Hnd].
  rewrite fmap_cons, np_sum_cons.
  destruct (decide (x = a)) as [->|Hne].
  - rewrite np_sum_zero; [ring|].
    intros y Hy. apply Hz; [by right|]. by intros ->.
  - apply elem_of_cons in Hin as [->|Hin]; [done|].
    rewrite (Hz x) by (done || by left). rewrite IH; [ring|done..|].
    intros y Hy. apply Hz. by right.
Qed.

Lemma sum_below_ext (n : nat) (f g : nat → A) :
  (∀ j, j < n → f j = g j) → sum_below n f = sum_below n g.
Proof.
  intros Hfg. apply np_sum_ext. intros j Hj%elem_of_seq. apply Hfg. lia.
Qed.

Lemma sum_below_add (n : nat) (f g : nat → A) :
  sum_below n (λ j, f j + g j) = sum_below n f + sum_below n g.
Proof. apply np_sum_add. Qed.

Lemma sum_below_single (n a : nat) (f : nat → A) :
  a < n → (∀ j, j < n → j ≠ a → f j = 0) → sum_below n f = f a.
Proof.
  intros Ha Hz. apply np_sum_single; [apply NoDup_seq|apply elem_of_seq; lia|].
  intros j Hj%elem_of_seq. apply Hz. lia.
Qed.

(** A sum with two terms that may differ from 0. *)
Lemma sum_below_pair (n a b : nat) (f : nat → A) :
  a < n → b < n → a ≠ b →
  (∀ j, j < n → j ≠ a → j ≠ b → f j = 0) → sum_below n f = f a + f b.
Proof.
  intros Ha Hb Hab Hz.
  rewrite (sum_below_ext n f
    (λ j, (if decide (j = a) then f a else 0) + (if decide (j = b) then f b else 0))).
  - rewrite sum_below_add. f_equal.
    + rewrite (sum_below_single n a) by (done || intros; by case_decide).
      by rewrite decide_True.
    + rewrite (sum_below_single n b) by (done || intros; by case_decide).
      by rewrite decide_True.
  - intros j Hj. repeat case_decide; subst; try done; try ring.
    rewrite Hz by done. ring.
Qed.

(** Reindexing a sum along an involution of the index range. *)
Lemma sum_below_reindex (n : nat) (σ : nat → nat) (f : nat → A) :
  (∀ j, j < n → σ j < n) → (∀ j, j < n → σ (σ j) = j) →
  sum_below n (λ j, f (σ j)) = sum_below n f.
Proof.
  intros Hb Hinv. unfold sum_below.
  rewrite (list_fmap_compose σ f). apply np_sum_perm, fmap_Permutation.
  apply NoDup_Permutation.
  - apply NoDup_fmap_2_strong; [|apply NoDup_seq].
    intros x y Hx%elem_of_seq Hy%elem_of_seq Heq.
    rewrite <- (Hinv x), <- (Hinv y), Heq by lia. done.
  - apply NoDup_seq.
  - intros x. rewrite list_elem_of_fmap. setoid_rewrite elem_of_seq. split.
    + intros (y & -> & Hy). specialize (Hb y). lia.
    + intros Hx. exists (σ x). split; [by rewrite Hinv by lia|].
      specialize (Hb x). lia.
Qed.

Lemma dot_sum_below (dim : nat) (row v : list A) :
  length row = dim → length v = dim →
  dot row v = sum_below dim (λ j, row !!! j * v !!! j).
Proof.
  intros Hr Hv. unfold dot, sum_below. f_equal.
  apply (list_eq_same_length _ _ dim).
  - by rewrite length_fmap, length_seq.
  - rewrite length_zip_with. lia.
  - intros j x y Hj Hx Hy.
    rewrite lookup_zip_with in Hx.
    rewrite list_lookup_fmap, lookup_seq_lt in Hy by done. simplify_eq/=.
    rewrite (list_lookup_lookup_total_lt row j) in Hx by lia.
    rewrite (list_lookup_lookup_total_lt v j) in Hx by lia.
    by simplify_eq/=.
Qed.

Lemma matmul_op_apply (dim : nat) (m : matrix) (v : list A) :
  square dim m → length v = dim →
  matmul dim m v = Ok (op_apply dim (entry m) v).
Proof.
  intros [Hm Hrows] Hv. unfold matmul. rewrite decide_True by done. f_equal.
  unfold op_apply. apply (list_eq_same_length _ _ dim).
  - by rewrite length_fmap, length_seq.
  - by rewrite length_fmap.
  - intros i x y Hi Hx Hy.
    rewrite list_lookup_fmap in Hx.
    rewrite list_lookup_fmap, lookup_seq_lt in Hy by done. simplify_eq/=.
    destruct (m !! i) as [row|] eqn:Hrow; simplify_eq/=.
    rewrite (dot_sum_below (length m)); [|by eapply Hrows|done].
    unfold entry. by rewrite (list_lookup_total_correct m i row).
Qed.

Lemma op_apply_ext (dim : nat) (E F : nat → nat → A) (v : list A) :
  (∀ i j, i < dim → j < dim → E i j = F i j) → op_apply dim E v = op_apply dim F v.
Proof.
  intros HEF. unfold op_apply. apply list_fmap_ext.
  intros k i Hi%lookup_seq. apply sum_below_ext. intros j Hj.
  rewrite HEF by lia. done.
Qed.

Lemma length_op_apply (dim : nat) (E : nat → nat → A) (v : list A) :
  length (op_apply dim E v) = dim.
Proof. unfold op_apply. by rewrite length_fmap, length_seq. Qed.

Lemma lookup_op_apply (dim : nat) (E : nat → nat → A) (v : list A) (i : nat) :
  i < dim → op_apply dim E v !! i = Some (sum_below dim (λ j, E i j * v !!! j)).
Proof.
  intros Hi. unfold op_apply. by rewrite list_lookup_fmap, lookup_seq_lt.
Qed.

(** The product with a permutation matrix permutes the entries. *)
Lemma op_apply_perm (dim : nat) (σ : nat → nat) (v : list A) :
  (∀ i, i < dim → σ i < dim) →
  op_apply dim (λ i j, if decide (j = σ i) then 1 else 0) v
  = (λ i, v !!! σ i) <$> seq 0 dim.
Proof.
  intros Hσ. unfold op_apply. apply list_fmap_ext.
  intros k i Hi%lookup_seq.
  rewrite (sum_below_single dim (σ i)).
  - rewrite decide_True by done. ring.
  - apply Hσ. lia.
  - intros j Hj Hne. rewrite decide_False by done. ring.
Qed.

End SumFacts.

(** ** The two operations on a well-formed circuit *)

Lemma entangle_perm_bound (n c t i : nat) : i < 2 ^ n → entangle_perm n c t i < 2 ^ n.
Proof. intros Hi. unfold entangle_perm. case_match; [apply flip_bound|done]. Qed.

Lemma entangle_perm_involutive (n c t i : nat) :
  i < 2 ^ n → entangle_perm n c t (entangle_perm n c t i) = i.
Proof.
  intros Hi. unfold entangle_perm.
  destruct (bit n c i || bit n c (flip n t i)) eqn:Hor.
  - rewrite flip_flip by done. by rewrite orb_comm, Hor.
  - by rewrite Hor.
Qed.

(** With distinct control and target this is the controlled NOT. *)
Lemma entangle_perm_cnot (n c t i : nat) :
  c ≠ t → entangle_perm n c t i = if bit n c i then flip n t i else i.
Proof.
  intros Hct. unfold entangle_perm. rewrite bit_flip_ne by done. by rewrite orb_diag.
Qed.

(** With control equal to target it flips the bit of every index. *)
Lemma entangle_perm_same (n t i : nat) : t < n → entangle_perm n t t i = flip n t i.
Proof.
  intros Ht. unfold entangle_perm. rewrite bit_flip by done.
  by rewrite orb_negb_r.
Qed.

Section CircuitFacts.
Context {A : Type} `{ScalarLaws A}.
Local Open Scope scalar_scope.
Local Abbreviation matrix := (list (list A)).

Add Ring scalar_ring_circuit : scalar_ring.

Lemma apply_gate_ok (gate : matrix) (t : nat) (self : QuantumCircuit A) :
  t < n_qubits self → shape_2x2 gate → well_formed self →
  apply_gate gate (Z.of_nat t) self
  = Ok (mkCircuit (n_qubits self) (depth self)
          (op_apply (2 ^ n_qubits self)
             (embedded_entry (n_qubits self) t gate) (state self))).
Proof.
  intros Ht Hg Hwf. unfold apply_gate.
  destruct (apply_gate_full_ok (n_qubits self) t gate Ht Hg) as (m & -> & Hsq & Hent).
  simpl. rewrite matmul_op_apply by done. simpl. do 2 f_equal.
  by apply op_apply_ext.
Qed.

Lemma entangle_qubits_ok (c t : nat) (self : QuantumCircuit A) :
  c < n_qubits self → t < n_qubits self → well_formed self →
  entangle_qubits (Z.of_nat c) (Z.of_nat t) self
  = Ok (mkCircuit (n_qubits self) (depth self)
          ((λ i, state self !!! entangle_perm (n_qubits self) c t i)
             <$> seq 0 (2 ^ n_qubits self))).
Proof.
  intros Hc Ht Hwf. unfold entangle_qubits.
  destruct (entangle_full_ok (n_qubits self) c t Hc Ht) as (m & -> & Hsq & Hent).
  simpl. rewrite matmul_op_apply by done. simpl. do 2 f_equal.
  rewrite <- op_apply_perm by (intros; by apply entangle_perm_bound).
  by apply op_apply_ext.
Qed.

(** A vector is the list of its entries. *)
Lemma list_as_lookups (dim : nat) (v : list A) :
  length v = dim → v = (λ i, v !!! i) <$> seq 0 dim.
Proof.
  intros Hv. apply (list_eq_same_length _ _ dim); [|done|].
  - by rewrite length_fmap, length_seq.
  - intros i x y Hi Hx Hy.
    rewrite list_lookup_fmap, lookup_seq_lt in Hy by done. simplify_eq/=.
    by apply list_lookup_total_correct in Hx.
Qed.

Lemma norm2_sum_below (dim : nat) (v : list A) :
  length v = dim → norm2 v = sum_below dim (λ i, mag2 (v !!! i)).
Proof.
  intros Hv. unfold norm2, sum_below.
  rewrite (list_as_lookups dim v Hv) at 1. by rewrite <- list_fmap_compose.
Qed.

Lemma norm2_fmap_seq (dim : nat) (f : nat → A) :
  norm2 (f <$> seq 0 dim) = sum_below dim (λ i, mag2 (f i)).
Proof. unfold norm2, sum_below. by rewrite <- list_fmap_compose. Qed.

(** *** Preservation of the squared norm *)

Lemma norm2_permuted (dim : nat) (σ : nat → nat) (v : list A) :
  length v = dim →
  (∀ i, i < dim → σ i < dim) → (∀ i, i < dim → σ (σ i) = i) →
  norm2 ((λ i, v !!! σ i) <$> seq 0 dim) = norm2 v.
Proof.
  intros Hv Hb Hinv. rewrite norm2_fmap_seq, (norm2_sum_below dim) by done.
  by apply (sum_below_reindex dim σ (λ i, mag2 (v !!! i))).
Qed.

(** Row [i] of the embedded operator has two entries that may differ
    from 0: the columns [i] and [flip n t i]. *)
Lemma embedded_row (n t : nat) (gate : matrix) (v : list A) (i : nat) :
  t < n → i < 2 ^ n →
  sum_below (2 ^ n) (λ j, embedded_entry n t gate i j * v !!! j)
  = gate_at gate (bit n t i) (bit n t i) * v !!! i
    + gate_at gate (bit n t i) (negb (bit n t i)) * v !!! flip n t i.
Proof.
  intros Ht Hi.
  pose proof (flip_bound n t i) as Hfb.
  pose proof (flip_ne n t i Ht) as Hne.
  rewrite (sum_below_pair (2 ^ n) i (flip n t i)); [|done|done|congruence|].
  2: { intros j Hj Hji Hjf. unfold embedded_entry.
       rewrite decide_False; [ring|].
       intros [?|?]%agree_elsewhere_flip; done. }
  unfold embedded_entry.
  rewrite decide_True by apply agree_elsewhere_refl.
  rewrite decide_True by (apply agree_elsewhere_flip; auto).
  by rewrite bit_flip.
Qed.

Lemma norm2_embedded (n t : nat) (gate : matrix) (v : list A) :
  t < n → unitary_2x2 gate → length v = 2 ^ n →
  norm2 (op_apply (2 ^ n) (embedded_entry n t gate) v) = norm2 v.
Proof.
  intros Ht [Hshape Hun] Hv. unfold op_apply.
  rewrite norm2_fmap_seq, (norm2_sum_below (2 ^ n) v) by done.
  set (g := gate_at gate). set (σ := flip n t).
  set (U := λ i, g (bit n t i) (bit n t i) * s_conj (g (bit n t i) (bit n t i))
                   * (v !!! i * s_conj (v !!! i))
                 + g (bit n t i) (bit n t i)
                   * s_conj (g (bit n t i) (negb (bit n t i)))
                   * (v !!! i * s_conj (v !!! σ i))).
  set (V := λ i, g (bit n t i) (negb (bit n t i))
                   * s_conj (g (bit n t i) (negb (bit n t i)))
                   * (v !!! σ i * s_conj (v !!! σ i))
                 + s_conj (g (bit n t i) (bit n t i))
                   * g (bit n t i) (negb (bit n t i))
                   * (s_conj (v !!! i) * v !!! σ i)).
  rewrite (sum_below_ext _ _ (λ i, U i + V i)).
  2: { intros i Hi. rewrite embedded_row by done. fold g. fold (σ i).
       unfold mag2, U, V. rewrite conj_add, !conj_mul. ring. }
  rewrite sum_below_add.
  rewrite <- (sum_below_reindex (2 ^ n) σ V)
    by (intros; (apply flip_bound || by apply flip_flip)).
  rewrite <- sum_below_add. apply sum_below_ext. intros i Hi.
  unfold U, V, σ, mag2. rewrite flip_flip, bit_flip by done.
  rewrite negb_involutive.
  pose proof (Hun (bit n t i) (bit n t i)) as H1.
  pose proof (Hun (negb (bit n t i)) (bit n t i)) as H2.
  fold g in H1, H2. rewrite decide_True in H1 by done.
  rewrite decide_False in H2 by (by destruct (bit n t i)).
  set (x := v !!! i) in *. set (y := v !!! flip n t i) in *.
  destruct (bit n t i); simpl in *.
  - transitivity
      ((s_conj (g false true) * g false true + s_conj (g true true) * g true true)
         * (x * s_conj x)
       + (s_conj (g false false) * g false true + s_conj (g true false) * g true true)
         * (x * s_conj y)); [ring|].
    rewrite H1, H2. ring.
  - transitivity
      ((s_conj (g false false) * g false false + s_conj (g true false) * g true false)
         * (x * s_conj x)
       + (s_conj (g false true) * g false false + s_conj (g true true) * g true false)
         * (x * s_conj y)); [ring|].
    rewrite H1, H2. ring.
Qed.

(** *** Sequences of valid operations *)

Lemma well_formed_init (n d : nat) : well_formed (QuantumCircuit_init (A:=A) n d).
Proof.
  unfold well_formed, QuantumCircuit_init, np_zeros. simpl.
  by rewrite length_insert, length_replicate.
Qed.

Lemma norm2_init (n d : nat) : norm2 (state (QuantumCircuit_init (A:=A) n d)) = 1.
Proof.
  unfold QuantumCircuit_init, np_zeros. simpl.
  assert (0 < 2 ^ n) as Hpos by (apply Nat.neq_0_lt_0, Nat.pow_nonzero; lia).
  destruct (2 ^ n) as [|k]; [lia|]. simpl.
  unfold norm2. rewrite fmap_cons, np_sum_cons.
  rewrite np_sum_zero.
  - unfold mag2. rewrite conj_one. ring.
  - intros x Hx%elem_of_replicate. destruct Hx as [-> _]. unfold mag2. ring.
Qed.

Lemma run_operation_valid (n : nat) (o : operation) (self : QuantumCircuit A) :
  valid_operation n o → n_qubits self = n → well_formed self →
  ∃ self', run_operation self o = Ok self' ∧
           n_qubits self' = n ∧ depth self' = depth self ∧ well_formed self' ∧
           norm2 (state self') = norm2 (state self).
Proof.
  intros Hv <- Hwf. destruct o as [gate target|control target]; simpl in *.
  - destruct Hv as [Hun Ht].
    rewrite <- (Z2Nat.id target) by lia.
    rewrite apply_gate_ok; [|lia|apply Hun|done].
    eexists. split; [done|]. simpl. split_and!; [done..| |].
    + unfold well_formed. simpl. apply length_op_apply.
    + apply norm2_embedded; [lia|done..].
  - destruct Hv as (Hne & Hc & Ht).
    rewrite <- (Z2Nat.id control), <- (Z2Nat.id target) by lia.
    rewrite entangle_qubits_ok; [|lia..|done].
    eexists. split; [done|]. simpl. split_and!; [done..| |].
    + unfold well_formed. simpl. by rewrite length_fmap, length_seq.
    + apply norm2_permuted; [done|..]; intros i Hi.
      * by apply entangle_perm_bound.
      * by apply entangle_perm_involutive.
Qed.

Lemma run_valid (n : nat) (os : list operation) (self : QuantumCircuit A) :
  Forall (valid_operation n) os → n_qubits self = n → well_formed self →
  ∃ self', run os self = Ok self' ∧
           n_qubits self' = n ∧ depth self' = depth self ∧ well_formed self' ∧
           norm2 (state self') = norm2 (state self).
Proof.
  intros Hall. revert self.
  induction Hall as [|o os Ho _ IH]; intros self Hn Hwf.
  - exists self. by split_and!.
  - destruct (run_operation_valid n o self Ho Hn Hwf)
      as (self1 & Hrun1 & Hn1 & Hd1 & Hwf1 & Hnorm1).
    destruct (IH self1 Hn1 Hwf1) as (self2 & Hrun2 & Hn2 & Hd2 & Hwf2 & Hnorm2).
    exists self2. split_and!; [|done|congruence|done|congruence].
    unfold run in *. simpl. rewrite Hrun1. simpl. done.
Qed.

(** *** The X gate *)

Lemma shape_gate_X : shape_2x2 (gate_X (A:=A)).
Proof.
  split; [done|]. intros [|[|i]] row Hrow; simplify_eq/=; done.
Qed.

Lemma op_apply_gate_X (n t : nat) (v : list A) :
  t < n →
  op_apply (2 ^ n) (embedded_entry n t gate_X) v
  = (λ i, v !!! flip n t i) <$> seq 0 (2 ^ n).
Proof.
  intros Ht. unfold op_apply. apply list_fmap_ext.
  intros k i Hi%lookup_seq. rewrite embedded_row by (done || lia).
  destruct (bit n t i); cbn; ring.
Qed.

(** *** A negative target inside [[-n, 0)] is accepted *)

Lemma apply_gate_X_minus_one (d : nat) :
  apply_gate gate_X (-1) (QuantumCircuit_init (A:=A) 1 d)
  = Ok (mkCircuit 1 d [0; 0]).
Proof.
  cbv -[s_zero s_one s_add s_mul s_sub s_opp s_conj].
  replace (0 * 1 + (0 * 0 + 0)) with 0 by ring. done.
Qed.

End CircuitFacts.

(** ** Calls that raise *)

Lemma for_each_only {St X : Type} (body : St → X → result St) (e : exn) xs s e' :
  (∀ s y e', body s y = Raise e' → e' = e) →
  for_each body xs s = Raise e' → e' = e.
Proof.
  intros Honly. revert s. induction xs as [|x xs IH]; intros s; simpl; [done|].
  destruct (body s x) as [s1|e1] eqn:Hb; simpl.
  - apply IH.
  - intros [= <-]. by eapply Honly.
Qed.

Lemma to_bits_zero (n : nat) : to_bits n 0 = replicate n false.
Proof.
  induction n as [|n IH]; [done|].
  cbn [to_bits]. rewrite Nat.Div0.div_0_l, IH.
  change [Nat.odd 0] with (replicate 1 false).
  rewrite <- replicate_add. f_equal. lia.
Qed.

Lemma to_bits_ones (n : nat) : to_bits n (2 ^ n - 1) = replicate n true.
Proof.
  induction n as [|n IH]; [done|].
  cbn [to_bits].
  assert (0 < 2 ^ n) as Hpos by (apply Nat.neq_0_lt_0, Nat.pow_nonzero; lia).
  assert ((2 ^ S n - 1) / 2 = 2 ^ n - 1) as ->.
  { symmetry. apply (Nat.div_unique _ 2 _ 1); [lia|].
    rewrite Nat.pow_succ_r'. lia. }
  assert (Nat.odd (2 ^ S n - 1) = true) as ->.
  { replace (2 ^ S n - 1) with (1 + 2 * (2 ^ n - 1)) by (rewrite Nat.pow_succ_r'; lia).
    rewrite Nat.odd_add_mul_2. done. }
  rewrite IH. change [true] with (replicate 1 true).
  rewrite <- replicate_add. f_equal. lia.
Qed.

Lemma py_index_replicate {X : Type} (n : nat) (x : X) (k : Z) :
  (- Z.of_nat n ≤ k < Z.of_nat n)%Z → py_index (replicate n x) k = Ok x.
Proof.
  intros Hk. unfold py_index, py_norm_index. rewrite length_replicate.
  destruct (decide (0 ≤ k)%Z).
  - rewrite decide_True by lia. rewrite lookup_replicate_2; [done|lia].
  - rewrite decide_True by lia. rewrite lookup_replicate_2; [done|lia].
Qed.

Section ErrorFacts.
Context {A : Type} `{Scalar A}.
Local Open Scope scalar_scope.
Local Abbreviation matrix := (list (list A)).

Lemma agree_except_same (n : nat) (target : Z) (s : list bool) :
  agree_except n target s s = true.
Proof.
  unfold agree_except. apply Is_true_true. rewrite forallb_True, Forall_forall.
  intros k _. by apply bool_decide_spec.
Qed.

Lemma apply_gate_cell_only_IndexError n (gate : matrix) target i i_bin m j e :
  apply_gate_cell n gate target i i_bin m j = Raise e → e = IndexError.
Proof.
  unfold apply_gate_cell. case_match; [|congruence].
  destruct (py_index i_bin target) as [a|e1] eqn:Ha; simpl;
    [|intros [= <-]; by eapply py_index_only_IndexError].
  destruct (py_index (format_bin n j) target) as [b|e2] eqn:Hb; simpl;
    [|intros [= <-]; by eapply py_index_only_IndexError].
  destruct (mat_get gate (int_of_char a) (int_of_char b)) as [v|e3] eqn:Hv; simpl;
    [|intros [= <-]; by eapply mat_get_only_IndexError].
  apply mat_set_only_IndexError.
Qed.

Lemma apply_gate_row_only_IndexError n (gate : matrix) target m i e :
  apply_gate_row n gate target m i = Raise e → e = IndexError.
Proof.
  unfold apply_gate_row. apply for_each_only.
  intros s y e'. apply apply_gate_cell_only_IndexError.
Qed.

Lemma entangle_row_only_IndexError n control target (m : matrix) i e :
  entangle_row n control target m i = Raise e → e = IndexError.
Proof.
  unfold entangle_row.
  destruct (py_index (format_bin n i) control) as [c|e1] eqn:Hc; simpl;
    [|intros [= <-]; by eapply py_index_only_IndexError].
  destruct c; [|congruence].
  destruct (py_index (format_bin n i) target) as [t|e2] eqn:Ht; simpl;
    [|intros [= <-]; by eapply py_index_only_IndexError].
  unfold py_set_index.
  destruct (py_norm_index _ target); simpl; [|congruence].
  repeat (match goal with
          | |- context [mat_set ?m ?i ?j ?v ≫= _] =>
              let Hs := fresh "Hs" in
              destruct (mat_set m i j v) eqn:Hs; simpl;
              [|intros [= <-]; by eapply mat_set_only_IndexError]
          end).
  apply mat_set_only_IndexError.
Qed.

(** A target outside [[-n, n)] makes the first cell of the first row
    raise. *)
Lemma apply_gate_target_out_of_range (gate : matrix) (target : Z)
    (self : QuantumCircuit A) :
  0 < n_qubits self →
  (target < - Z.of_nat (n_qubits self) ∨ Z.of_nat (n_qubits self) ≤ target)%Z →
  apply_gate gate target self = Raise IndexError.
Proof.
  intros Hn Ht. unfold apply_gate, apply_gate_full.
  set (n := n_qubits self) in *.
  assert (0 < 2 ^ n) as Hpos by (apply Nat.neq_0_lt_0, Nat.pow_nonzero; lia).
  destruct (2 ^ n) as [|k] eqn:Hdim; [lia|].
  cbn [seq]. erewrite for_each_raise_first; [done|].
  unfold apply_gate_row. rewrite Hdim. cbn [seq].
  apply for_each_raise_first. unfold apply_gate_cell.
  rewrite agree_except_same.
  rewrite py_index_out_of_range; [done|].
  rewrite length_format_bin by lia. done.
Qed.

(** A gate without an entry at some index of [{0,1} x {0,1}] makes
    the cell that reads it raise. *)
Lemma apply_gate_missing_entry (gate : matrix) (t : nat) (a b : bool)
    (self : QuantumCircuit A) :
  t < n_qubits self →
  mat_get gate (int_of_char a) (int_of_char b) = Raise IndexError →
  apply_gate gate (Z.of_nat t) self = Raise IndexError.
Proof.
  intros Ht Hmiss. unfold apply_gate, apply_gate_full.
  set (n := n_qubits self) in *.
  assert (0 < 2 ^ n) as Hpos by (apply Nat.neq_0_lt_0, Nat.pow_nonzero; lia).
  assert (bit n t 0 = false) as Hb0.
  { unfold bit. rewrite to_bits_zero. apply list_lookup_total_correct.
    by apply lookup_replicate_2. }
  set (pick := λ c : bool, if c then flip n t 0 else 0%nat).
  assert (∀ c, pick c < 2 ^ n) as Hpick.
  { intros [|]; simpl; [apply flip_bound|done]. }
  assert (∀ c, bit n t (pick c) = c) as Hbit.
  { intros [|]; simpl; [by rewrite bit_flip, Hb0|done]. }
  erewrite (for_each_raise _ IndexError _ (pick a)); [done| | |].
  - apply elem_of_seq. specialize (Hpick a). lia.
  - intros m. unfold apply_gate_row.
    apply (for_each_raise _ IndexError _ (pick b)).
    + apply elem_of_seq. specialize (Hpick b). lia.
    + intros m'. unfold apply_gate_cell.
      rewrite !format_bin_to_bits by (done || lia).
      rewrite agree_except_decide, bool_decide_eq_true_2.
      * rewrite !py_index_nat by (by rewrite length_to_bits). simpl.
        fold (bit n t (pick a)). fold (bit n t (pick b)).
        rewrite !Hbit, Hmiss. done.
      * apply agree_elsewhere_flip; [done..|].
        destruct a, b; simpl; auto.
        right. by rewrite flip_flip.
    + intros m' y e. apply apply_gate_cell_only_IndexError.
  - intros m y e. apply apply_gate_row_only_IndexError.
Qed.

(** A control or a target outside [[-n, n)] makes [entangle_qubits]
    raise: the control at the first index, the target at the index
    whose string is all ['1']. *)
Lemma entangle_out_of_range (control target : Z) (self : QuantumCircuit A) :
  0 < n_qubits self →
  (control < - Z.of_nat (n_qubits self) ∨ Z.of_nat (n_qubits self) ≤ control
   ∨ target < - Z.of_nat (n_qubits self) ∨ Z.of_nat (n_qubits self) ≤ target)%Z →
  entangle_qubits control target self = Raise IndexError.
Proof.
  intros Hn Hout. unfold entangle_qubits, entangle_full.
  set (n := n_qubits self) in *.
  assert (0 < 2 ^ n) as Hpos by (apply Nat.neq_0_lt_0, Nat.pow_nonzero; lia).
  destruct (decide (- Z.of_nat n ≤ control < Z.of_nat n)%Z) as [Hc|Hc].
  - erewrite (for_each_raise _ IndexError _ (2 ^ n - 1)%nat); [done| | |].
    + apply elem_of_seq. lia.
    + intros m. unfold entangle_row.
      rewrite format_bin_to_bits by lia. rewrite to_bits_ones.
      rewrite (py_index_replicate n true control) by done. simpl.
      rewrite (py_index_out_of_range _ target); [done|].
      rewrite length_replicate. lia.
    + intros m y e. apply entangle_row_only_IndexError.
  - destruct (2 ^ n) as [|k] eqn:Hdim; [lia|].
    cbn [seq]. erewrite for_each_raise_first; [done|].
    unfold entangle_row.
    rewrite (py_index_out_of_range _ control); [done|].
    rewrite length_format_bin by lia. lia.
Qed.

End ErrorFacts.

(** ** The complex amplitudes *)

Lemma C_eq (z w : C) : z.1 = w.1 → z.2 = w.2 → z = w.
Proof. destruct z, w. simpl. by intros -> ->. Qed.

(** On the complex numbers [norm2] is the real [sq_norm]. *)
Lemma norm2_sq_norm (v : list C) : norm2 v = RtoC (sq_norm v).
Proof.
  unfold norm2, sq_norm, np_sum.
  induction v as [|z v IH]; [done|].
  rewrite !fmap_cons. cbn [foldr]. rewrite IH.
  apply C_eq; simpl; ring.
Qed.

Ltac gate_unitary :=
  split;
  [ split; [done|]; intros [|[|?]] ? ?; simplify_eq/=; done
  | intros [|] [|];
    first [rewrite decide_True by done | rewrite decide_False by done];
    apply C_eq; cbn; try ring ].

Lemma unitary_gate_X : unitary_2x2 (gate_X (A:=C)).
Proof. gate_unitary. Qed.

Lemma unitary_gate_Z : unitary_2x2 (gate_Z (A:=C)).
Proof. gate_unitary. Qed.

Lemma unitary_gate_Y : unitary_2x2 gate_Y.
Proof. gate_unitary; lra. Qed.

Lemma sqrt2_sq : (sqrt 2 * sqrt 2 = 2)%R.
Proof. apply sqrt_sqrt. lra. Qed.

Lemma sqrt2_neq_0 : sqrt 2 ≠ 0%R.
Proof. pose proof (sqrt_lt_R0 2). lra. Qed.

Lemma unitary_gate_H : unitary_2x2 gate_H.
Proof.
  pose proof sqrt2_sq as Hs. pose proof sqrt2_neq_0 as Hn.
  assert (1 / sqrt 2 * (1 / sqrt 2) = 1 / 2)%R as Hh.
  { field_simplify_eq; [|done]. lra. }
  gate_unitary; try lra; nra.
Qed.

(** * The state simulator *)

(** C1, as it holds.  Over exact complex arithmetic, starting from the
    initial basis state, after each operation of a sequence of valid
    operations -- [apply_gate] with a two by two unitary gate and
    [0 <= target < n], [entangle_qubits] with [control <> target] both
    in range -- the call has succeeded and the sum of the squared
    magnitudes of the state vector is exactly 1.  The float64 program
    keeps the sum near 1 only as long as the roundings of the calls
    have not added up, see [hadamard_norm_drifts_in_float64]. *)
Theorem norm_preserved_by_valid_operations
    (n d : nat) (os : list (operation (A:=C))) (k : nat) :
  Forall (valid_operation n) os →
  ∃ self', run (take k os) (QuantumCircuit_init n d) = Ok self' ∧
           sq_norm (state self') = 1%R.
Proof.
  intros Hall.
  destruct (run_valid n (take k os) (QuantumCircuit_init n d))
    as (self' & Hrun & _ & _ & _ & Hnorm).
  - by apply Forall_take.
  - done.
  - apply well_formed_init.
  - exists self'. split; [done|].
    rewrite norm2_init, norm2_sq_norm in Hnorm.
    by injection Hnorm.
Qed.

Lemma norm_preserved_by_valid_operations_witness :
  let os := [ApplyGate gate_H 0; Entangle 0 1; ApplyGate gate_X 1] in
  Forall (valid_operation 2) os ∧
  ∃ self', run (take 3 os) (QuantumCircuit_init 2 3) = Ok self' ∧
           sq_norm (state self') = 1%R.
Proof.
  assert (Forall (valid_operation (A:=C) 2)
            [ApplyGate gate_H 0; Entangle 0 1; ApplyGate gate_X 1]) as Hall.
  { constructor; [split; [apply unitary_gate_H|simpl; lia]|].
    constructor; [simpl; lia|].
    constructor; [split; [apply unitary_gate_X|simpl; lia]|].
    constructor. }
  split; [exact Hall|].
  exact (norm_preserved_by_valid_operations 2 3 _ 3 Hall).
Defined.

(** C2.  For a two by two gate and [0 <= target < n], [apply_gate]
    builds the [2^n] by [2^n] operator whose entry [(i, j)] is
    [gate[bit(i, target), bit(j, target)]] when [i] and [j] agree on
    every bit position other than [target] and 0 otherwise
    ([embedded_entry]), and replaces the state by the product of that
    operator with the state; the qubit count and the depth are
    unchanged. *)
Theorem apply_gate_embeds_gate
    (gate : list (list C)) (target : Z) (self : QuantumCircuit C) :
  shape_2x2 gate →
  (0 ≤ target < Z.of_nat (n_qubits self))%Z →
  well_formed self →
  let n := n_qubits self in
  let t := Z.to_nat target in
  ∃ gate_full,
    apply_gate_full n gate target = Ok gate_full ∧
    square (2 ^ n) gate_full ∧
    (∀ i j, i < 2 ^ n → j < 2 ^ n →
       entry gate_full i j = embedded_entry n t gate i j) ∧
    apply_gate gate target self
    = Ok (mkCircuit n (depth self)
            (op_apply (2 ^ n) (embedded_entry n t gate) (state self))).
Proof.
  intros Hg Ht Hwf n t. subst n t.
  assert (∃ t, target = Z.of_nat t ∧ t < n_qubits self) as (t & -> & Htn)
    by (exists (Z.to_nat target); lia).
  rewrite Nat2Z.id.
  destruct (apply_gate_full_ok (n_qubits self) t gate Htn Hg)
    as (m & Hfull & Hsq & Hent).
  exists m. split_and!; [done..|].
  by apply apply_gate_ok.
Qed.

Lemma apply_gate_embeds_gate_witness :
  let self := QuantumCircuit_init (A:=C) 2 3 in
  ∃ gate_full,
    apply_gate_full 2 gate_H 1 = Ok gate_full ∧
    square 4 gate_full ∧
    (∀ i j, i < 4 → j < 4 → entry gate_full i j = embedded_entry 2 1 gate_H i j) ∧
    apply_gate gate_H 1 self
    = Ok (mkCircuit 2 3 (op_apply 4 (embedded_entry 2 1 gate_H) (state self))).
Proof.
  apply (apply_gate_embeds_gate gate_H 1 (QuantumCircuit_init 2 3)).
  - apply unitary_gate_H.
  - simpl. lia.
  - apply well_formed_init.
Defined.

(** C3.  With [control <> target] both in range, one application of
    [entangle_qubits] exchanges the amplitudes of every pair of indices
    that differ in the target bit and have the control bit set, and
    leaves the others in place; a second application with the same
    arguments restores the circuit. *)
Theorem entangle_qubits_self_inverse
    (control target : Z) (self : QuantumCircuit C) :
  control ≠ target →
  (0 ≤ control < Z.of_nat (n_qubits self))%Z →
  (0 ≤ target < Z.of_nat (n_qubits self))%Z →
  well_formed self →
  let n := n_qubits self in
  let c := Z.to_nat control in
  let t := Z.to_nat target in
  ∃ mid,
    entangle_qubits control target self = Ok mid ∧
    n_qubits mid = n ∧ length (state mid) = 2 ^ n ∧
    (∀ i, i < 2 ^ n →
       state mid !! i
       = Some (state self !!! (if bit n c i then flip n t i else i))) ∧
    entangle_qubits control target mid = Ok self.
Proof.
  intros Hne Hc Ht Hwf n c t. subst n c t.
  assert (∃ c, control = Z.of_nat c ∧ c < n_qubits self) as (c & -> & Hcn)
    by (exists (Z.to_nat control); lia).
  assert (∃ t, target = Z.of_nat t ∧ t < n_qubits self) as (t & -> & Htn)
    by (exists (Z.to_nat target); lia).
  rewrite !Nat2Z.id.
  assert (c ≠ t) as Hct by congruence.
  eexists. split; [by apply entangle_qubits_ok|]. simpl.
  split_and!; [done|by rewrite length_fmap, length_seq| |].
  - intros i Hi. rewrite list_lookup_fmap, lookup_seq_lt by done. simpl.
    by rewrite entangle_perm_cnot.
  - rewrite entangle_qubits_ok; simpl; [|done..|].
    2: { unfold well_formed. simpl. by rewrite length_fmap, length_seq. }
    destruct self as [n d st]. simpl in *. do 2 f_equal.
    symmetry. rewrite (list_as_lookups (2 ^ n) st) at 1 by done.
    apply list_fmap_ext. intros k i Hi%lookup_seq.
    assert (entangle_perm n c t i < 2 ^ n) as Hb
      by (apply entangle_perm_bound; lia).
    rewrite (list_lookup_total_correct _ (entangle_perm n c t i)
               (st !!! entangle_perm n c t (entangle_perm n c t i))).
    + rewrite entangle_perm_involutive by lia. done.
    + by rewrite list_lookup_fmap, lookup_seq_lt.
Qed.

Lemma entangle_qubits_self_inverse_witness :
  let self := mkCircuit 2 3 [RtoC 1; RtoC 2; RtoC 3; RtoC 4] in
  ∃ mid,
    entangle_qubits 0 1 self = Ok mid ∧
    n_qubits mid = 2 ∧ length (state mid) = 4 ∧
    (∀ i, i < 4 →
       state mid !! i = Some (state self !!! (if bit 2 0 i then flip 2 1 i else i))) ∧
    entangle_qubits 0 1 mid = Ok self.
Proof.
  apply (entangle_qubits_self_inverse 0 1
           (mkCircuit 2 3 [RtoC 1; RtoC 2; RtoC 3; RtoC 4])).
  - done.
  - simpl. lia.
  - simpl. lia.
  - reflexivity.
Defined.

(** C10.  For [0 <= t < n], [entangle_qubits(t, t)] raises nothing and
    yields the circuit that [apply_gate] with the X gate on qubit [t]
    yields: the amplitudes of every index and its [flip] exchanged. *)
Theorem entangle_same_qubit_is_X (t : Z) (self : QuantumCircuit C) :
  (0 ≤ t < Z.of_nat (n_qubits self))%Z →
  well_formed self →
  ∃ self',
    entangle_qubits t t self = Ok self' ∧
    apply_gate gate_X t self = Ok self' ∧
    state self'
    = (λ i, state self !!! flip (n_qubits self) (Z.to_nat t) i)
        <$> seq 0 (2 ^ n_qubits self).
Proof.
  intros Ht Hwf.
  assert (∃ k, t = Z.of_nat k ∧ k < n_qubits self) as (k & -> & Hk)
    by (exists (Z.to_nat t); lia).
  rewrite Nat2Z.id.
  eexists. split_and!.
  - rewrite entangle_qubits_ok by done. f_equal.
  - rewrite apply_gate_ok; [|done|apply shape_gate_X|done].
    do 2 f_equal. rewrite op_apply_gate_X by done.
    apply list_fmap_ext. intros j i Hi. by rewrite entangle_perm_same.
  - simpl. apply list_fmap_ext. intros j i Hi. by rewrite entangle_perm_same.
Qed.

Lemma entangle_same_qubit_is_X_witness :
  let self := QuantumCircuit_init (A:=C) 2 3 in
  ∃ self',
    entangle_qubits 1 1 self = Ok self' ∧
    apply_gate gate_X 1 self = Ok self' ∧
    state self' = (λ i, state self !!! flip 2 1 i) <$> seq 0 4.
Proof.
  apply (entangle_same_qubit_is_X 1 (QuantumCircuit_init 2 3)).
  - simpl. lia.
  - apply well_formed_init.
Defined.

(** C5, as the program has it.  No check of the arguments exists;
    Python's own subscripting raises [IndexError] for a target (or a
    control) below [-n] or at least [n], and for a gate with fewer than
    two rows or fewer than two columns.  The state is assigned only by
    the last statement, so a call that raises leaves it as it was. *)
Theorem malformed_call_raises_IndexError
    (gate : list (list C)) (control target : Z) (self : QuantumCircuit C) :
  0 < n_qubits self →
  let n := Z.of_nat (n_qubits self) in
  ((target < - n ∨ n ≤ target)%Z →
     apply_gate gate target self = Raise IndexError) ∧
  ((0 ≤ target < n)%Z →
     (∃ r c, shape gate r c ∧ (r < 2 ∨ c < 2)) →
     apply_gate gate target self = Raise IndexError) ∧
  ((control < - n ∨ n ≤ control ∨ target < - n ∨ n ≤ target)%Z →
     entangle_qubits control target self = Raise IndexError).
Proof.
  intros Hn n. split_and!.
  - intros Ht. by apply apply_gate_target_out_of_range.
  - intros Ht (r & c & [Hr Hc] & Hsmall).
    rewrite <- (Z2Nat.id target) by lia.
    destruct (decide (r < 2)) as [Hr2|Hr2].
    + apply (apply_gate_missing_entry gate _ true false); [unfold n in *; lia|].
      unfold mat_get. simpl. rewrite lookup_ge_None_2 by lia. done.
    + apply (apply_gate_missing_entry gate _ false true); [unfold n in *; lia|].
      unfold mat_get. simpl.
      destruct (gate !! 0) as [row|] eqn:Hrow; [|done].
      rewrite lookup_ge_None_2; [done|]. rewrite (Hc _ _ Hrow). lia.
  - intros Hout. by apply entangle_out_of_range.
Qed.

Lemma malformed_call_raises_IndexError_witness :
  let self := QuantumCircuit_init (A:=C) 2 3 in
  apply_gate gate_X 2 self = Raise IndexError ∧
  apply_gate [[RtoC 1]] 0 self = Raise IndexError ∧
  entangle_qubits 0 (-3) self = Raise IndexError.
Proof.
  assert (0 < n_qubits (QuantumCircuit_init (A:=C) 2 3)) as Hn by (simpl; lia).
  split_and!.
  - apply (malformed_call_raises_IndexError gate_X 0 2 _ Hn). simpl. lia.
  - apply (malformed_call_raises_IndexError [[RtoC 1]] 0 0 _ Hn).
    + simpl. lia.
    + exists 1, 1. split; [|lia]. split; [done|].
      intros [|i] row Hrow; simplify_eq/=; done.
  - apply (malformed_call_raises_IndexError gate_X 0 (-3) _ Hn). simpl. lia.
Defined.

(** C5 fails as stated: target [-1] lies outside [[0, 1)], yet
    [apply_gate] with the X gate on a one-qubit circuit returns, and
    with the zero vector for a state. *)
Lemma negative_target_accepted :
  ¬ (0 ≤ -1 < 1)%Z ∧
  apply_gate (A:=C) gate_X (-1) (QuantumCircuit_init 1 3)
  = Ok (mkCircuit 1 3 [RtoC 0; RtoC 0]).
Proof. split; [lia|]. exact (apply_gate_X_minus_one (A:=C) 3). Qed.

(** ** Two properties the specification lists for testing *)

(** A single qubit in the basis state, after the Hadamard gate. *)
Example hadamard_on_zero :
  apply_gate gate_H 0 (QuantumCircuit_init 1 3)
  = Ok (mkCircuit 1 3 [RtoC (1 / sqrt 2); RtoC (1 / sqrt 2)]).
Proof.
  cbv -[Rplus Rmult Rminus Ropp Rdiv Rinv sqrt IZR].
  repeat f_equal; lra.
Qed.

(** The X gate applied twice to the same qubit restores the circuit. *)
Lemma apply_X_twice (t : Z) (self : QuantumCircuit C) :
  (0 ≤ t < Z.of_nat (n_qubits self))%Z → well_formed self →
  apply_gate gate_X t self ≫= apply_gate gate_X t = Ok self.
Proof.
  intros Ht Hwf.
  assert (∃ k, t = Z.of_nat k ∧ k < n_qubits self) as (k & -> & Hk)
    by (exists (Z.to_nat t); lia).
  rewrite apply_gate_ok; [|done|apply shape_gate_X|done].
  rewrite bind_Ok, apply_gate_ok; simpl; [|done|apply shape_gate_X|].
  2: { unfold well_formed. simpl. apply length_op_apply. }
  destruct self as [n d st]. simpl in *. do 2 f_equal.
  rewrite !op_apply_gate_X by done.
  symmetry. rewrite (list_as_lookups (2 ^ n) st) at 1 by done.
  apply list_fmap_ext. intros j i Hi%lookup_seq.
  pose proof (flip_bound n k i) as Hb.
  rewrite (list_lookup_total_correct _ (flip n k i) (st !!! flip n k (flip n k i))).
  - rewrite flip_flip by lia. done.
  - by rewrite lookup_fmap_seq.
Qed.

(** ** The norm in float64

    On a circuit of one qubit [apply_gate] multiplies the state by the
    gate itself; the sums follow [np_sum], which adds from the last
    product to the first, beginning with 0. *)
Lemma apply_gate_one_qubit {A : Type} `{Scalar A} (a b c d x y : A) (dep : nat) :
  apply_gate [[a; b]; [c; d]] 0 (mkCircuit 1 dep [x; y])
  = Ok (mkCircuit 1 dep [s_add (s_mul a x) (s_add (s_mul b y) s_zero);
                         s_add (s_mul c x) (s_add (s_mul d y) s_zero)]).
Proof. reflexivity. Qed.

Lemma Pos_iter_related {X Y : Type} (f : X → X) (g : Y → Y) (R : X → Y → Prop)
    (x : X) (y : Y) (k : positive) :
  R x y → (∀ x y, R x y → R (f x) (g y)) → R (Pos.iter f x k) (Pos.iter g y k).
Proof.
  intros Hxy Hstep. rewrite !Pos2Nat.inj_iter.
  generalize (Pos.to_nat k). intros n.
  induction n as [|n IH]; [done|]. cbn [nat_rect]. by apply Hstep.
Qed.

Lemma evaluated_eq (z w : complex128) : evaluated z w = [z; w].
Proof.
  unfold evaluated, computed.
  by repeat match goal with |- context [PrimFloat.ltb ?x ?x] =>
    destruct (PrimFloat.ltb x x) end.
Qed.

(** Repeated calls on a circuit of one qubit follow the product of the
    gate and the state. *)
Lemma apply_H_repeatedly_one_qubit (k : positive) (dep : nat) (x y : complex128) :
  apply_H_repeatedly k 0 (mkCircuit 1 dep [x; y])
  = Ok (mkCircuit 1 dep (Pos.iter (one_qubit_product H_float64) [x; y] k)).
Proof.
  unfold apply_H_repeatedly.
  apply (Pos_iter_related _ _
           (λ r st, r = Ok (mkCircuit 1 dep st) ∧ ∃ x y, st = [x; y])).
  - split; [done|]. by exists x, y.
  - intros r st (-> & x' & y' & ->). rewrite bind_Ok.
    cbn [one_qubit_product H_float64]. rewrite evaluated_eq. split.
    + apply (apply_gate_one_qubit (H := complex128_scalar)).
    + by eexists _, _.
Qed.

Section Float64Drift.
Import PrimFloat.
Local Open Scope float_scope.

(** The amplitude after every 400000 calls of [apply_gate(self.H, 0)],
  each stretch computed from the end of the one before. *)
Lemma hadamard_stretch_1 :
Pos.iter (one_qubit_product H_float64) (one_qubit_state 1) 400000
= one_qubit_state 0x1.ffffffffbaf25p-1.
Proof. vm_compute. reflexivity. Qed.

Lemma hadamard_stretch_2 :
Pos.iter (one_qubit_product H_float64) (one_qubit_state 0x1.ffffffffbaf25p-1) 400000
= one_qubit_state 0x1.ffffffff75e4ap-1.
Proof. vm_compute. reflexivity. Qed.

Lemma hadamard_stretch_3 :
Pos.iter (one_qubit_product H_float64) (one_qubit_state 0x1.ffffffff75e4ap-1) 400000
= one_qubit_state 0x1.ffffffff30d7p-1.
Proof. vm_compute. reflexivity. Qed.

Lemma hadamard_stretch_4 :
Pos.iter (one_qubit_product H_float64) (one_qubit_state 0x1.ffffffff30d7p-1) 400000
= one_qubit_state 0x1.fffffffeebc95p-1.
Proof. vm_compute. reflexivity. Qed.

Lemma hadamard_stretch_5 :
Pos.iter (one_qubit_product H_float64) (one_qubit_state 0x1.fffffffeebc95p-1) 400000
= one_qubit_state 0x1.fffffffea6bbap-1.
Proof. vm_compute. reflexivity. Qed.

Lemma hadamard_stretch_6 :
Pos.iter (one_qubit_product H_float64) (one_qubit_state 0x1.fffffffea6bbap-1) 400000
= one_qubit_state 0x1.fffffffe61aep-1.
Proof. vm_compute. reflexivity. Qed.

Lemma hadamard_stretch_7 :
Pos.iter (one_qubit_product H_float64) (one_qubit_state 0x1.fffffffe61aep-1) 400000
= one_qubit_state 0x1.fffffffe1ca05p-1.
Proof. vm_compute. reflexivity. Qed.

Lemma hadamard_stretch_8 :
Pos.iter (one_qubit_product H_float64) (one_qubit_state 0x1.fffffffe1ca05p-1) 400000
= one_qubit_state 0x1.fffffffdd792ap-1.
Proof. vm_compute. reflexivity. Qed.

Lemma hadamard_stretch_9 :
Pos.iter (one_qubit_product H_float64) (one_qubit_state 0x1.fffffffdd792ap-1) 400000
= one_qubit_state 0x1.fffffffd9284fp-1.
Proof. vm_compute. reflexivity. Qed.

Lemma hadamard_stretch_10 :
Pos.iter (one_qubit_product H_float64) (one_qubit_state 0x1.fffffffd9284fp-1) 400000
= one_qubit_state 0x1.fffffffd4d775p-1.
Proof. vm_compute. reflexivity. Qed.

Lemma hadamard_stretch_11 :
Pos.iter (one_qubit_product H_float64) (one_qubit_state 0x1.fffffffd4d775p-1) 400000
= one_qubit_state 0x1.fffffffd0869ap-1.
Proof. vm_compute. reflexivity. Qed.

Lemma hadamard_stretch_12 :
Pos.iter (one_qubit_product H_float64) (one_qubit_state 0x1.fffffffd0869ap-1) 400000
= one_qubit_state 0x1.fffffffcc35bfp-1.
Proof. vm_compute. reflexivity. Qed.

Lemma hadamard_stretch_13 :
Pos.iter (one_qubit_product H_float64) (one_qubit_state 0x1.fffffffcc35bfp-1) 400000
= one_qubit_state 0x1.fffffffc7e4e5p-1.
Proof. vm_compute. reflexivity. Qed.

Lemma hadamard_stretch_14 :
Pos.iter (one_qubit_product H_float64) (one_qubit_state 0x1.fffffffc7e4e5p-1) 400000
= one_qubit_state 0x1.fffffffc3940ap-1.
Proof. vm_compute. reflexivity. Qed.

Lemma hadamard_stretch_15 :
Pos.iter (one_qubit_product H_float64) (one_qubit_state 0x1.fffffffc3940ap-1) 400000
= one_qubit_state 0x1.fffffffbf432fp-1.
Proof. vm_compute. reflexivity. Qed.

Lemma hadamard_stretch_16 :
Pos.iter (one_qubit_product H_float64) (one_qubit_state 0x1.fffffffbf432fp-1) 369052
= one_qubit_state 0x1.fffffffbb47dp-1.
Proof. vm_compute. reflexivity. Qed.

Lemma hadamard_6369052_calls :
Pos.iter (one_qubit_product H_float64) (one_qubit_state 1) 6369052
= one_qubit_state 0x1.fffffffbb47dp-1.
Proof.
assert (6369052
        = 369052 + (400000 + (400000 + (400000 + (400000 + (400000 + (400000 + (400000 + (400000 + (400000 + (400000 + (400000 + (400000 + (400000 + (400000 + (400000))))))))))))))))%positive
  as -> by reflexivity.
rewrite !Pos.iter_add.
rewrite hadamard_stretch_1, hadamard_stretch_2, hadamard_stretch_3, hadamard_stretch_4, hadamard_stretch_5, hadamard_stretch_6, hadamard_stretch_7, hadamard_stretch_8.
rewrite hadamard_stretch_9, hadamard_stretch_10, hadamard_stretch_11, hadamard_stretch_12, hadamard_stretch_13, hadamard_stretch_14, hadamard_stretch_15, hadamard_stretch_16.
reflexivity.
Qed.

(** C1 fails as stated for the program, whose amplitudes are float64
  pairs.  The Hadamard gate that the circuit stores is not exactly
  unitary: its entries [h = 1 / sqrt 2] have [h * h + h * h] one unit
  in the last place below 1.  No call renormalises the state, so the
  loss adds up: after 6369052 calls of [apply_gate(self.H, 0)] on a
  new circuit of one qubit, each a valid operation, the state is
  [[0.9999999995, 0]] and the sum of the squared magnitudes,
  0.9999999989999999, is further than 1e-9 from 1. *)
Lemma hadamard_norm_drifts_in_float64 :
let h := 1 / sqrt 2 in
let final := [(0x1.fffffffbb47dp-1, 0); (0, 0)] in
H_float64 = [[(h, 0); (h, 0)]; [(h, 0); (- h, 0)]] ∧
h * h + h * h = 0x1.ffffffffffffep-1 ∧
apply_H_repeatedly 6369052 0 (QuantumCircuit_init (H := complex128_scalar) 1 3)
= Ok (mkCircuit 1 3 final) ∧
squared_magnitude_sum final = 0x1.fffffff768fap-1 ∧
ltb (1 / 1000000000) (1 - squared_magnitude_sum final) = true.
Proof.
split_and!.
- vm_compute. reflexivity.
- vm_compute. reflexivity.
- change (QuantumCircuit_init (H := complex128_scalar) 1 3)
    with (mkCircuit 1 3 [(1, 0); (0, 0)]).
  rewrite apply_H_repeatedly_one_qubit.
  change [(1, 0); (0, 0)] with (one_qubit_state 1).
  rewrite hadamard_6369052_calls. reflexivity.
- vm_compute. reflexivity.
- vm_compute. reflexivity.
Qed.

End Float64Drift.

(** * The signal feature extractor *)

(** ** Real sums *)

Lemma Rsum_zero {X : Type} (f : X → R) (l : list X) :
  (∀ x, x ∈ l → f x = 0%R) → Rsum (f <$> l) = 0%R.
Proof.
  induction l as [|x l IH]; intros Hf; [done|].
  rewrite fmap_cons. cbn [Rsum foldr]. fold (Rsum (f <$> l)).
  rewrite Hf by (by left). rewrite IH; [lra|].
  intros y Hy. apply Hf. by right.
Qed.

Lemma Rsum_replicate_0 (n : nat) : Rsum (replicate n 0%R) = 0%R.
Proof.
  induction n as [|n IH]; [done|].
  cbn. unfold Rsum in IH. rewrite IH. lra.
Qed.

Lemma Rsum_scaled_squares (d : R) (l : list R) :
  d ≠ 0%R →
  Rsum ((λ x, x * x)%R <$> ((λ x, x / d)%R <$> l))
  = (Rsum ((λ x, x * x)%R <$> l) / (d * d))%R.
Proof.
  intros Hd. induction l as [|x l IH].
  - cbn. field. done.
  - rewrite !fmap_cons. cbn [Rsum foldr].
    fold (Rsum ((λ x, x * x)%R <$> ((λ x, x / d)%R <$> l))).
    fold (Rsum ((λ x, x * x)%R <$> l)).
    rewrite IH. field. done.
Qed.

(** ** Normalisation *)

Lemma eps_pos : (0 < eps)%R.
Proof. unfold eps. apply Rdiv_lt_0_compat; [lra|]. apply pow_lt. lra. Qed.

Lemma eps_small : (eps < 1 / 6)%R.
Proof.
  unfold eps. apply Rmult_lt_compat_l; [lra|].
  apply Rinv_lt_contravar; [|].
  - apply Rmult_lt_0_compat; [lra|]. apply pow_lt. lra.
  - simpl. lra.
Qed.

Lemma np_linalg_norm_nonneg (v : list R) : (0 <= np_linalg_norm v)%R.
Proof. apply sqrt_pos. Qed.

Lemma norm_guard_pos (v : list R) : (0 < np_linalg_norm v + eps)%R.
Proof. pose proof (np_linalg_norm_nonneg v). pose proof eps_pos. lra. Qed.

Lemma np_linalg_norm_scaled (d : R) (l : list R) :
  (0 < d)%R →
  np_linalg_norm ((λ x, x / d)%R <$> l) = (np_linalg_norm l / d)%R.
Proof.
  intros Hd. unfold np_linalg_norm.
  rewrite Rsum_scaled_squares by lra.
  rewrite sqrt_div_alt by nra. by rewrite sqrt_square by lra.
Qed.

Lemma np_linalg_norm_zeros (n : nat) : np_linalg_norm (replicate n 0%R) = 0%R.
Proof.
  unfold np_linalg_norm. rewrite Rsum_zero; [apply sqrt_0|].
  intros x [-> _]%elem_of_replicate. lra.
Qed.

Lemma prepare_zeros (n : nat) :
  _prepare_quantum_state (replicate n 0%R) = replicate n 0%R.
Proof.
  unfold _prepare_quantum_state, ravel. rewrite fmap_replicate. f_equal.
  pose proof (norm_guard_pos (replicate n 0%R)). field. lra.
Qed.

Lemma prepare_twice (x : list R) :
  let r := np_linalg_norm x in
  _prepare_quantum_state (_prepare_quantum_state x)
  = (λ a, a / (r / (r + eps) + eps))%R <$> _prepare_quantum_state x.
Proof.
  intros r. unfold _prepare_quantum_state at 1. unfold ravel.
  apply list_fmap_ext. intros i a _. do 2 f_equal.
  unfold _prepare_quantum_state, ravel.
  apply np_linalg_norm_scaled, norm_guard_pos.
Qed.

Lemma Rsum_squares_nonneg (v : list R) : (0 <= Rsum ((λ x, x * x)%R <$> v))%R.
Proof.
  induction v as [|x v IH]; [cbn; lra|].
  rewrite fmap_cons. cbn [Rsum foldr]. fold (Rsum ((λ x, x * x)%R <$> v)). nra.
Qed.

Lemma np_linalg_norm_zero (v : list R) (x : R) :
  np_linalg_norm v = 0%R → x ∈ v → x = 0%R.
Proof.
  unfold np_linalg_norm. intros Hs%sqrt_eq_0; [|apply Rsum_squares_nonneg].
  induction v as [|y v IH]; intros Hx; [by apply elem_of_nil in Hx|].
  rewrite fmap_cons in Hs. cbn [Rsum foldr] in Hs.
  fold (Rsum ((λ x, x * x)%R <$> v)) in Hs.
  pose proof (Rsum_squares_nonneg v) as Hv.
  apply elem_of_cons in Hx as [->|Hx]; [nra|].
  apply IH; [nra|done].
Qed.

(** The factor by which a second normalisation changes an element:
    [b = a / d] with [d = r / (r + eps) + eps]. *)
Lemma renormalisation_factor (r : R) :
  (0 < r)%R →
  let d := (r / (r + eps) + eps)%R in
  (0 < d)%R ∧ (Rabs ((1 - d) / d) <= eps * Rmax 1 (1 / r))%R.
Proof.
  intros Hr d. pose proof eps_pos as He. pose proof eps_small as Hs.
  set (P := (r + eps * r + eps * eps)%R).
  assert (0 < P)%R as HP by (unfold P; nra).
  assert (d = P / (r + eps))%R as Hd by (unfold d, P; field; lra).
  assert (0 < d)%R as Hd0 by (rewrite Hd; apply Rdiv_lt_0_compat; lra).
  split; [done|].
  set (t := ((1 - d) / d)%R).
  assert (t * P = eps * (1 - r - eps))%R as Ht.
  { unfold t. rewrite Hd. unfold P in *. field. split; nra. }
  clearbody d t.
  destruct (Rle_lt_dec 1 r) as [Hr1|Hr1].
  - assert (- eps <= t <= eps)%R as Hb.
    { split; (apply Rmult_le_reg_r with P; [done|]); rewrite ?Ht; unfold P; nra. }
    apply Rabs_le in Hb. pose proof (Rmax_l 1 (1 / r)). nra.
  - assert (- eps <= t * r <= eps)%R as [Hlo Hhi].
    { split; (apply Rmult_le_reg_r with P; [done|]);
        replace (t * r * P)%R with (eps * (r * (1 - r - eps)))%R
          by (transitivity (r * (t * P))%R; [rewrite Ht|]; ring);
        [replace (- eps * P)%R with (eps * (- P))%R by ring|];
        (apply Rmult_le_compat_l; [lra|unfold P; nra]). }
    assert (Rabs t * r <= eps)%R as Hb.
    { unfold Rabs. destruct (Rcase_abs t); lra. }
    assert (Rabs t <= eps * (1 / r))%R as Hb'.
    { apply Rmult_le_reg_r with r; [done|]. field_simplify; lra. }
    pose proof (Rmax_r 1 (1 / r)). pose proof (Rabs_pos t). nra.
Qed.

(** C9, as the program has it.  Normalising twice divides the
    once-normalised signal again, by [r / (r + eps) + eps] where [r] is
    the L2 norm of the input and [eps] = 1e-10.  For [r > 0] every
    element of the twice-normalised signal is within the relative error
    [eps * max(1, 1 / r)] of the once-normalised one: within [eps] when
    [r >= 1], and within a bound that grows as [r] shrinks towards
    [eps].  For [r = 0] both are zero. *)
Theorem normalize_idempotent_up_to_eps (x : list R) (i : nat) (a b : R) :
  _prepare_quantum_state x !! i = Some a →
  _prepare_quantum_state (_prepare_quantum_state x) !! i = Some b →
  let r := np_linalg_norm x in
  ((0 < r)%R → (Rabs (b - a) <= eps * Rmax 1 (1 / r) * Rabs a)%R) ∧
  (r = 0%R → a = 0%R ∧ b = 0%R).
Proof.
  intros Ha Hb r.
  rewrite prepare_twice, list_lookup_fmap, Ha in Hb. simpl in Hb.
  injection Hb as <-. fold r. split.
  - intros Hr. destruct (renormalisation_factor r Hr) as [Hd Hbound].
    set (d := (r / (r + eps) + eps)%R) in *.
    replace (a / d - a)%R with ((1 - d) / d * a)%R by (field; lra).
    rewrite Rabs_mult. apply Rmult_le_compat_r; [apply Rabs_pos|done].
  - intros Hr. pose proof eps_pos as He.
    unfold _prepare_quantum_state, ravel in Ha.
    rewrite list_lookup_fmap in Ha.
    destruct (x !! i) as [y|] eqn:Hy; [|done]. simpl in Ha. injection Ha as <-.
    assert (y = 0%R) as ->.
    { apply (np_linalg_norm_zero x); [done|]. by eapply list_elem_of_lookup_2. }
    fold r. rewrite Hr. split; field; lra.
Qed.

Lemma normalize_idempotent_up_to_eps_witness :
  ∃ a b,
    _prepare_quantum_state [1%R] !! 0 = Some a ∧
    _prepare_quantum_state (_prepare_quantum_state [1%R]) !! 0 = Some b ∧
    let r := np_linalg_norm [1%R] in
    ((0 < r)%R → (Rabs (b - a) <= eps * Rmax 1 (1 / r) * Rabs a)%R) ∧
    (r = 0%R → a = 0%R ∧ b = 0%R).
Proof.
  eexists _, _. split; [reflexivity|]. split; [reflexivity|].
  apply (normalize_idempotent_up_to_eps [1%R] 0); reflexivity.
Defined.

(** C9 fails as stated: the one-sample signal [[1e-10]] is normalised
    to [[1/2]], and that to a number above [3/4]. *)
Lemma normalize_not_idempotent_for_small_norm :
  ∃ a b,
    _prepare_quantum_state [eps] = [a] ∧
    _prepare_quantum_state (_prepare_quantum_state [eps]) = [b] ∧
    (a = 1 / 2)%R ∧ (3 / 4 < b)%R.
Proof.
  pose proof eps_pos as He. pose proof eps_small as Hs.
  assert (np_linalg_norm [eps] = eps) as Hn.
  { unfold np_linalg_norm. cbn. rewrite Rplus_0_r. apply sqrt_square. lra. }
  assert (_prepare_quantum_state [eps] = [(1 / 2)%R]) as H1.
  { unfold _prepare_quantum_state, ravel. rewrite Hn. cbn. f_equal. field. lra. }
  assert (np_linalg_norm [(1 / 2)%R] = (1 / 2)%R) as Hn2.
  { unfold np_linalg_norm. cbn. rewrite Rplus_0_r. apply sqrt_square. lra. }
  eexists _, _. split; [exact H1|]. rewrite H1. split; [|split; [done|]].
  - unfold _prepare_quantum_state, ravel. rewrite Hn2. cbn. reflexivity.
  - apply Rmult_lt_reg_r with (1 / 2 + eps)%R; [lra|].
    field_simplify; lra.
Qed.

(** ** The transform *)

(** A loop that stores [f k] at index [k] for [k] in [range(m)]. *)
Lemma store_loop {X : Type} (f : nat → X) (m : nat) (init : list X) :
  m ≤ length init →
  let out := foldl (λ acc k, <[k := f k]> acc) init (seq 0 m) in
  length out = length init ∧
  ∀ k, out !! k = if decide (k < m) then Some (f k) else init !! k.
Proof.
  induction m as [|m IH]; intros Hm; cbv zeta.
  - simpl. split; [done|]. intros k. done.
  - rewrite seq_S, foldl_snoc. cbn [Nat.add].
    destruct IH as [Hlen Hlook]; [lia|].
    split; [by rewrite length_insert|].
    intros k. destruct (decide (k = m)) as [->|Hne].
    + rewrite list_lookup_insert_eq by lia. by rewrite decide_True by lia.
    + rewrite list_lookup_insert_ne by done. rewrite Hlook.
      destruct (decide (k < m)).
      * by rewrite decide_True by lia.
      * by rewrite decide_False by lia.
Qed.

Lemma twiddle_argument (n k t : nat) :
  Cdiv_real (Cmul (Cmul (Cmul (0, -2)%R (RtoC PI)) (RtoC (INR k))) (RtoC (INR t)))
            (INR n)
  = (0, - (2 * PI * INR k * INR t / INR n))%R.
Proof. apply C_eq; simpl; unfold Rdiv; ring. Qed.

Lemma lookup_total_twiddles (n k t : nat) :
  t < n →
  twiddles n k !!! t = Cexp (0, - (2 * PI * INR k * INR t / INR n))%R.
Proof.
  intros Ht. apply list_lookup_total_correct. unfold twiddles, np_arange.
  rewrite !list_lookup_fmap, lookup_seq_lt by done. simpl.
  by rewrite twiddle_argument.
Qed.

Lemma length_twiddles (n k : nat) : length (twiddles n k) = n.
Proof. unfold twiddles, np_arange. by rewrite !length_fmap, length_seq. Qed.

Lemma feature_is_dft_coeff (signal : list R) (k : nat) :
  np_sum (zip_with Cmul (RtoC <$> signal) (twiddles (length signal) k))
  = dft_coeff signal k.
Proof.
  change (np_sum (zip_with Cmul (RtoC <$> signal) (twiddles (length signal) k)))
    with (dot (RtoC <$> signal) (twiddles (length signal) k)).
  rewrite (dot_sum_below (length signal));
    [|by rewrite length_fmap|apply length_twiddles].
  unfold dft_coeff. apply sum_below_ext. intros t Ht.
  rewrite lookup_total_twiddles by done. f_equal.
  apply list_lookup_total_correct.
  by rewrite list_lookup_fmap, (list_lookup_lookup_total_lt signal t Ht).
Qed.

(** What the loop of [_quantum_feature_extraction] leaves in the
    array. *)
Lemma feature_extraction_stored (signal : list R) :
  let n := length signal in
  length (_quantum_feature_extraction signal) = n ∧
  ∀ k, _quantum_feature_extraction signal !! k
       = if decide (k < n)
         then Some (np_sum (zip_with Cmul (RtoC <$> signal) (twiddles n k)))
         else None.
Proof.
  intros n. unfold _quantum_feature_extraction. fold n.
  destruct (store_loop
    (λ k, np_sum (zip_with Cmul (RtoC <$> signal) (twiddles n k)))
    n (np_zeros n)) as [Hlen Hlook].
  { unfold np_zeros. by rewrite length_replicate. }
  unfold np_zeros in *. rewrite length_replicate in Hlen.
  split; [done|]. intros k. rewrite Hlook. case_decide; [done|].
  apply lookup_replicate_None. lia.
Qed.

Lemma length_feature_extraction (signal : list R) :
  length (_quantum_feature_extraction signal) = length signal.
Proof. apply feature_extraction_stored. Qed.

Lemma lookup_feature_extraction (signal : list R) (k : nat) :
  k < length signal →
  _quantum_feature_extraction signal !! k = Some (dft_coeff signal k).
Proof.
  intros Hk. destruct (feature_extraction_stored signal) as [_ Hlook].
  by rewrite Hlook, decide_True, feature_is_dft_coeff.
Qed.

(** C4.  For a real signal of length [N] the transform returns exactly
    [N] complex coefficients, and coefficient [k] is the sum over [t] in
    [[0, N)] of [signal[t] * exp(-2 pi i k t / N)]. *)
Theorem feature_extraction_is_dft (signal : list R) :
  length (_quantum_feature_extraction signal) = length signal ∧
  ∀ k, k < length signal →
       _quantum_feature_extraction signal !! k = Some (dft_coeff signal k).
Proof.
  destruct (feature_extraction_stored signal) as [Hlen Hlook].
  split; [exact Hlen|].
  intros k Hk. rewrite Hlook, decide_True by done. f_equal.
  change (np_sum (zip_with Cmul (RtoC <$> signal) (twiddles (length signal) k)))
    with (dot (RtoC <$> signal) (twiddles (length signal) k)).
  rewrite (dot_sum_below (length signal));
    [|by rewrite length_fmap|apply length_twiddles].
  unfold dft_coeff. apply sum_below_ext. intros t Ht.
  rewrite lookup_total_twiddles by done. f_equal.
  apply list_lookup_total_correct.
  by rewrite list_lookup_fmap, (list_lookup_lookup_total_lt signal t Ht).
Qed.

Lemma feature_extraction_is_dft_witness :
  length (_quantum_feature_extraction [1; 0; 0; 0]%R) = 4 ∧
  _quantum_feature_extraction [1; 0; 0; 0]%R !! 2
  = Some (dft_coeff [1; 0; 0; 0]%R 2).
Proof.
  destruct (feature_extraction_is_dft [1; 0; 0; 0]%R) as [Hlen Hk].
  split; [exact Hlen|]. apply Hk. simpl. lia.
Defined.

(** The example of the specification: every coefficient of
    [[1, 0, 0, 0]] is 1. *)
Example dft_unit_impulse (k : nat) : dft_coeff [1; 0; 0; 0]%R k = RtoC 1.
Proof.
  unfold dft_coeff, sum_below, np_sum. cbn -[INR PI].
  replace (- (2 * PI * INR k * INR 0 / INR 4))%R with 0%R
    by (simpl; unfold Rdiv; ring).
  unfold Cexp. simpl. rewrite exp_0, cos_0, sin_0.
  apply C_eq; simpl; ring.
Qed.

(** ** Phase estimation *)

(** The scan keeps the first occurrence of the maximum. *)
Lemma argmax_scan_spec (v p : list R) (best_i : nat) (best : R) :
  p !! best_i = Some best →
  (∀ j y, p !! j = Some y → (y <= best)%R) →
  (∀ j y, j < best_i → p !! j = Some y → (y < best)%R) →
  let k := argmax_scan best_i best (length p) v in
  ∃ m, (p ++ v) !! k = Some m ∧
       (∀ j y, (p ++ v) !! j = Some y → (y <= m)%R) ∧
       (∀ j y, j < k → (p ++ v) !! j = Some y → (y < m)%R).
Proof.
  revert p best_i best. induction v as [|x v IH]; intros p best_i best Hb Hle Hlt.
  - simpl. rewrite app_nil_r. by exists best.
  - cbn [argmax_scan]. rewrite cons_middle, app_assoc.
    replace (S (length p)) with (length (p ++ [x]))
      by (rewrite length_app; simpl; lia).
    destruct (Rlt_dec best x) as [Hx|Hx].
    + apply IH.
      * by rewrite lookup_app_r, Nat.sub_diag.
      * intros j y [Hy|[_ Hy]]%lookup_app_Some.
        -- specialize (Hle _ _ Hy). lra.
        -- apply list_lookup_singleton_Some in Hy as [_ ->]. lra.
      * intros j y Hj Hy. rewrite lookup_app_l in Hy by done.
        specialize (Hle _ _ Hy). lra.
    + apply IH.
      * by apply lookup_app_l_Some.
      * intros j y [Hy|[_ Hy]]%lookup_app_Some.
        -- by eapply Hle.
        -- apply list_lookup_singleton_Some in Hy as [_ ->]. lra.
      * intros j y Hj Hy.
        apply lookup_lt_Some in Hb.
        rewrite lookup_app_l in Hy by lia. by eapply Hlt.
Qed.

Lemma np_argmax_spec (v : list R) :
  v ≠ [] →
  ∃ k, np_argmax v = Ok k ∧ k < length v ∧
       (∀ j, j < length v → (v !!! j <= v !!! k)%R) ∧
       (∀ j, j < k → (v !!! j < v !!! k)%R).
Proof.
  destruct v as [|x v]; [done|]. intros _.
  destruct (argmax_scan_spec v [x] 0 x) as (m & Hk & Hle & Hlt).
  - done.
  - intros j y Hy. apply list_lookup_singleton_Some in Hy as [_ ->]. lra.
  - intros j y Hj. lia.
  - simpl in *. exists (argmax_scan 0 x 1 v).
    split; [done|]. split; [by apply lookup_lt_Some in Hk|].
    rewrite (list_lookup_total_correct _ _ _ Hk). split.
    + intros j Hj. eapply Hle. by apply list_lookup_lookup_total_lt.
    + intros j Hj. eapply Hlt; [done|].
      apply list_lookup_lookup_total_lt. apply lookup_lt_Some in Hk. simpl in *. lia.
Qed.

(** [arctan2] lies in [(-pi, pi]] ... *)
Lemma arctan2_range (y x : R) : (- PI < arctan2 y x <= PI)%R.
Proof.
  pose proof PI_RGT_0 as Hpi.
  unfold arctan2.
  destruct (Rlt_dec 0 x) as [Hx|Hx].
  { pose proof (atan_bound (y / x)). lra. }
  destruct (Rlt_dec x 0) as [Hx'|Hx'].
  - destruct (Rle_dec 0 y) as [Hy|Hy].
    + pose proof (atan_bound (y / x)) as Hb.
      assert (y / x <= 0)%R as Hq.
      { unfold Rdiv. pose proof (Rinv_lt_0_compat x Hx'). nra. }
      assert (atan (y / x) <= 0)%R.
      { destruct Hq as [Hq|Hq].
        - left. rewrite <- atan_0. by apply atan_increasing.
        - rewrite Hq, atan_0. lra. }
      lra.
    + pose proof (atan_bound (y / x)) as Hb.
      assert (0 < y / x)%R as Hq.
      { unfold Rdiv. replace (y * / x)%R with ((- y) * (- / x))%R by ring.
        apply Rmult_lt_0_compat; [lra|].
        pose proof (Rinv_lt_0_compat x Hx'). lra. }
      assert (0 < atan (y / x))%R.
      { rewrite <- atan_0. by apply atan_increasing. }
      lra.
  - destruct (Rlt_dec 0 y); [lra|]. destruct (Rlt_dec y 0); lra.
Qed.

(** ... and is the argument of [x + i y]. *)
Lemma atan_polar (x y : R) :
  (0 < x)%R →
  (sqrt (x * x + y * y) * cos (atan (y / x)) = x ∧
   sqrt (x * x + y * y) * sin (atan (y / x)) = y)%R.
Proof.
  intros Hx. rewrite cos_atan, sin_atan.
  set (t := (y / x)%R).
  assert (0 < 1 + t²)%R as Hpos by (unfold Rsqr; nra).
  assert (x * x + y * y = (x * x) * (1 + t²))%R as ->.
  { unfold Rsqr, t. field. lra. }
  rewrite sqrt_mult by (unfold Rsqr in *; nra).
  rewrite sqrt_square by lra.
  pose proof (sqrt_lt_R0 _ Hpos) as Hs.
  split; [field; lra|].
  transitivity (t * x)%R; [field; lra|unfold t; field; lra].
Qed.

Lemma arctan2_polar (x y : R) :
  polar (x, y) (Cabs (x, y)) (arctan2 y x).
Proof.
  unfold polar, Cabs, arctan2. simpl.
  destruct (Rlt_dec 0 x) as [Hx|Hx].
  { destruct (atan_polar x y Hx) as [-> ->]. done. }
  destruct (Rlt_dec x 0) as [Hx'|Hx'].
  - assert (0 < - x)%R as Hnx by lra.
    destruct (atan_polar (- x) (- y) Hnx) as [Hc Hs].
    replace (- x * - x + - y * - y)%R with (x * x + y * y)%R in Hc, Hs by ring.
    replace (- y / - x)%R with (y / x)%R in Hc, Hs by (field; lra).
    destruct (Rle_dec 0 y).
    + rewrite neg_cos, neg_sin. f_equal; lra.
    + rewrite cos_minus, sin_minus, cos_PI, sin_PI. f_equal; lra.
  - assert (x = 0)%R as -> by lra.
    replace (0 * 0 + y * y)%R with (y * y)%R by ring.
    destruct (Rlt_dec 0 y) as [Hy|Hy].
    { rewrite cos_PI2, sin_PI2, sqrt_square by lra. f_equal; lra. }
    destruct (Rlt_dec y 0) as [Hy'|Hy'].
    + rewrite cos_neg, sin_neg, cos_PI2, sin_PI2.
      replace (y * y)%R with (- y * - y)%R by ring.
      rewrite sqrt_square by lra. f_equal; lra.
    + assert (y = 0)%R as -> by lra.
      rewrite Rmult_0_l, sqrt_0. f_equal; lra.
Qed.

(** C7, as the program has it.  For a signal that is not empty, phase
    estimation returns the transform and the argument, in [(-pi, pi]],
    of the coefficient with the largest magnitude; among coefficients of
    the same largest magnitude the one with the lowest index is taken. *)
Theorem dominant_phase_of_first_largest (signal : list R) :
  signal ≠ [] →
  let phases := _quantum_feature_extraction signal in
  ∃ k θ,
    _quantum_phase_estimation signal = Ok (phases, θ) ∧
    k < length phases ∧
    (∀ j, j < length phases → (Cabs (phases !!! j) <= Cabs (phases !!! k))%R) ∧
    (∀ j, j < k → (Cabs (phases !!! j) < Cabs (phases !!! k))%R) ∧
    (- PI < θ <= PI)%R ∧
    polar (phases !!! k) (Cabs (phases !!! k)) θ.
Proof.
  intros Hne phases.
  assert (length phases = length signal) as Hlen
    by apply length_feature_extraction.
  destruct (np_argmax_spec (Cabs <$> phases)) as (k & Hk & Hlt & Hmax & Hfirst).
  { intros Heq. apply (f_equal length) in Heq.
    rewrite length_fmap, Hlen in Heq. by destruct signal. }
  rewrite length_fmap in Hlt, Hmax.
  assert (∀ j, j < length phases → (Cabs <$> phases) !!! j = Cabs (phases !!! j))
    as Habs.
  { intros j Hj. apply list_lookup_total_correct.
    by rewrite list_lookup_fmap, (list_lookup_lookup_total_lt phases j Hj). }
  exists k, (np_angle (phases !!! k)).
  split; [|split; [|split; [|split; [|split]]]].
  - unfold _quantum_phase_estimation. fold phases. by rewrite Hk.
  - done.
  - intros j Hj. rewrite <- !Habs by done. by apply Hmax.
  - intros j Hj. rewrite <- !Habs by lia. by apply Hfirst.
  - apply arctan2_range.
  - destruct (phases !!! k) as [x y]. apply arctan2_polar.
Qed.

Lemma dominant_phase_of_first_largest_witness :
  let phases := _quantum_feature_extraction [1; 0; 0; 0]%R in
  ∃ k θ,
    _quantum_phase_estimation [1; 0; 0; 0]%R = Ok (phases, θ) ∧
    k < length phases ∧
    (∀ j, j < length phases → (Cabs (phases !!! j) <= Cabs (phases !!! k))%R) ∧
    (∀ j, j < k → (Cabs (phases !!! j) < Cabs (phases !!! k))%R) ∧
    (- PI < θ <= PI)%R ∧
    polar (phases !!! k) (Cabs (phases !!! k)) θ.
Proof. apply (dominant_phase_of_first_largest [1; 0; 0; 0]%R). done. Defined.

(** C7 fails as stated on the empty signal: [np.argmax] of an empty
    array raises [ValueError]. *)
Lemma phase_estimation_empty_raises :
  _quantum_phase_estimation [] = Raise ValueError.
Proof. reflexivity. Qed.

(** ** Pattern metrics *)

Lemma INR_pos_length {X : Type} (v : list X) : v ≠ [] → INR (length v) ≠ 0%R.
Proof.
  intros Hv. apply not_0_INR. by destruct v.
Qed.

Lemma np_true_divide_finite (a b : R) : b ≠ 0%R → np_true_divide a b = Finite (a / b).
Proof. intros Hb. unfold np_true_divide. by destruct (Req_dec_T b 0). Qed.

Lemma np_true_divide_0_0 : np_true_divide 0 0 = NaN.
Proof.
  unfold np_true_divide. destruct (Req_dec_T 0 0); [|done].
  by destruct (Req_dec_T 0 0).
Qed.

Lemma np_mean_nonempty (v : list R) :
  v ≠ [] → np_mean v = Finite (Rsum v / INR (length v)).
Proof. intros Hv. by apply np_true_divide_finite, INR_pos_length. Qed.

Lemma np_mean_empty : np_mean [] = NaN.
Proof. apply np_true_divide_0_0. Qed.

Lemma np_std_zeros (n : nat) : 0 < n → np_std (replicate n 0%R) = Finite 0.
Proof.
  intros Hn. unfold np_std.
  assert (replicate n 0%R ≠ []) as Hne by (destruct n; [lia|done]).
  rewrite np_mean_nonempty, Rsum_replicate_0 by done.
  rewrite np_mean_nonempty by (rewrite fmap_replicate; destruct n; [lia|done]).
  rewrite Rsum_zero.
  - f_equal. unfold Rdiv. rewrite Rmult_0_l. apply sqrt_0.
  - intros x [-> _]%elem_of_replicate.
    unfold Rdiv. rewrite Rmult_0_l, Rminus_diag, Rabs_R0. simpl. ring.
Qed.

Lemma np_std_single (x : R) : np_std [x] = Finite 0.
Proof.
  unfold np_std. rewrite np_mean_nonempty by done.
  rewrite np_mean_nonempty by done. cbn. f_equal.
  replace (x - (x + 0) / 1)%R with 0%R by (field; lra).
  rewrite Rabs_R0.
  replace ((0 * (0 * 1) + 0) / 1)%R with 0%R by (field; lra).
  apply sqrt_0.
Qed.

Lemma np_diff_replicate (n : nat) (x : R) :
  np_diff (replicate n x) = replicate (n - 1) (x - x)%R.
Proof.
  unfold np_diff. destruct n as [|n]; [done|].
  cbn [replicate tail]. rewrite Nat.sub_succ, Nat.sub_0_r.
  induction n as [|n IH]; [done|].
  cbn [replicate]. cbn [zip_with]. f_equal. exact IH.
Qed.

Lemma complexity_zeros (n : nat) : _quantum_complexity (replicate n 0%R) = 0%R.
Proof.
  unfold _quantum_complexity. rewrite np_diff_replicate. apply Rsum_zero.
  intros x [-> _]%elem_of_replicate. rewrite Rminus_diag. apply Rabs_R0.
Qed.

Lemma Csum_zero {X : Type} (f : X → C) (l : list X) :
  (∀ x, x ∈ l → f x = RtoC 0) → np_sum (f <$> l) = RtoC 0.
Proof. exact (np_sum_zero (A:=C) f l). Qed.

Lemma dft_coeff_zeros (n k : nat) : dft_coeff (replicate n 0%R) k = RtoC 0.
Proof.
  unfold dft_coeff, sum_below. apply Csum_zero.
  intros t [_ Ht]%elem_of_seq. rewrite length_replicate in Ht.
  rewrite lookup_total_replicate_2 by lia.
  apply C_eq; simpl; ring.
Qed.

Lemma features_zeros (n : nat) :
  _quantum_feature_extraction (replicate n 0%R) = replicate n (RtoC 0).
Proof.
  pose proof (length_feature_extraction (replicate n 0%R)) as Hlen.
  rewrite length_replicate in Hlen.
  apply (list_eq_same_length _ _ n); [by rewrite length_replicate|done|].
  intros k x y Hlt Hx Hy.
  rewrite lookup_feature_extraction in Hx by (by rewrite length_replicate).
  apply lookup_replicate in Hy as [-> _]. rewrite dft_coeff_zeros in Hx.
  by injection Hx.
Qed.

Lemma Cabs_0 : Cabs (RtoC 0) = 0%R.
Proof. unfold Cabs. simpl. rewrite Rmult_0_l, Rplus_0_l. apply sqrt_0. Qed.

Lemma argmax_scan_keeps (v : list R) (best_i : nat) (best : R) (i : nat) :
  (∀ x, x ∈ v → (x <= best)%R) → argmax_scan best_i best i v = best_i.
Proof.
  revert i. induction v as [|x v IH]; intros i Hle; [done|].
  cbn [argmax_scan]. destruct (Rlt_dec best x) as [Hx|Hx].
  - specialize (Hle x (list_elem_of_here _ _)). lra.
  - apply IH. intros y Hy. apply Hle. by right.
Qed.

Lemma np_argmax_zeros (n : nat) : 0 < n → np_argmax (replicate n 0%R) = Ok 0.
Proof.
  intros Hn. destruct n as [|n]; [lia|]. cbn [replicate np_argmax]. f_equal.
  apply argmax_scan_keeps. intros x [-> _]%elem_of_replicate. lra.
Qed.

Lemma np_max_zeros (n : nat) : 0 < n → np_max (replicate n 0%R) = Ok 0%R.
Proof.
  intros Hn. destruct n as [|n]; [lia|]. cbn [replicate np_max]. f_equal.
  clear Hn. induction n as [|n IH]; [done|]. cbn [replicate foldl].
  rewrite Rmax_left by lra. exact IH.
Qed.

Lemma np_fft_fft_zeros (n : nat) :
  0 < n → np_fft_fft (replicate n 0%R) = Ok (replicate n (RtoC 0)).
Proof.
  intros Hn. unfold np_fft_fft. rewrite length_replicate.
  destruct n as [|n]; [lia|]. cbn [replicate].
  change (0%R :: replicate n 0%R) with (replicate (S n) 0%R).
  change (RtoC 0 :: replicate n (RtoC 0)) with (replicate (S n) (RtoC 0)).
  f_equal.
  apply (list_eq_same_length _ _ (S n));
    [by rewrite length_replicate|by rewrite length_fmap, length_seq|].
  intros k x y Hk Hx Hy.
  apply lookup_replicate in Hy as [-> _].
  rewrite lookup_fmap_seq in Hx by done.
  apply (inj Some) in Hx. rewrite <- Hx. apply Csum_zero.
  intros t [_ Ht]%elem_of_seq.
  rewrite lookup_total_replicate_2 by lia. apply C_eq; simpl; ring.
Qed.

Lemma detect_periodicity_zeros (n : nat) :
  0 < n → _detect_periodicity (replicate n 0%R) = Ok NaN.
Proof.
  intros Hn. unfold _detect_periodicity.
  rewrite np_fft_fft_zeros, bind_Ok by done.
  rewrite fmap_replicate, Cabs_0.
  replace (0 ^ 2)%R with 0%R by (simpl; ring).
  rewrite np_max_zeros, bind_Ok by done.
  by rewrite Rsum_replicate_0, np_true_divide_0_0.
Qed.

Lemma np_angle_0 : np_angle (RtoC 0) = 0%R.
Proof.
  unfold np_angle, arctan2. simpl.
  destruct (Rlt_dec 0 0) as [Hlt|_]; [lra|]. done.
Qed.

Lemma phase_estimation_zeros (n : nat) :
  0 < n →
  _quantum_phase_estimation (replicate n 0%R) = Ok (replicate n (RtoC 0), 0%R).
Proof.
  intros Hn. unfold _quantum_phase_estimation.
  rewrite features_zeros, fmap_replicate, Cabs_0, np_argmax_zeros by done.
  rewrite bind_Ok, lookup_total_replicate_2 by done. by rewrite np_angle_0.
Qed.

(** C6, on the program.  For an all-zero signal of length [L >= 1],
    [process_signal] returns the all-zero signal as the normalised
    signal, [noise_level = 0] and [complexity = 0], and the periodic
    metric is the NaN of the division [0 / 0]: no fixed value stands in
    for it. *)
Theorem all_zero_signal_periodic_NaN (L : nat) :
  1 ≤ L →
  ∃ fs,
    process_signal (replicate L 0%R) = Ok fs ∧
    fs_processed_signal fs = replicate L 0%R ∧
    fs_dominant_phase fs = 0%R ∧
    periodic (fs_patterns fs) = NaN ∧
    noise_level (fs_patterns fs) = Finite 0 ∧
    complexity (fs_patterns fs) = 0%R.
Proof.
  intros HL. unfold process_signal.
  rewrite prepare_zeros, phase_estimation_zeros, bind_Ok by lia.
  unfold _quantum_pattern_recognition.
  rewrite detect_periodicity_zeros, !bind_Ok by lia.
  eexists. split; [reflexivity|]. cbn [fs_processed_signal fs_dominant_phase
    fs_patterns periodic noise_level complexity].
  split_and!; [done..| |].
  - apply np_std_zeros. lia.
  - apply complexity_zeros.
Qed.

Lemma all_zero_signal_periodic_NaN_witness :
  ∃ fs,
    process_signal [0; 0; 0; 0]%R = Ok fs ∧
    fs_processed_signal fs = [0; 0; 0; 0]%R ∧
    fs_dominant_phase fs = 0%R ∧
    periodic (fs_patterns fs) = NaN ∧
    noise_level (fs_patterns fs) = Finite 0 ∧
    complexity (fs_patterns fs) = 0%R.
Proof. apply (all_zero_signal_periodic_NaN 4). lia. Defined.

(** C8, as the program has it.  A signal with fewer than two samples
    has [complexity = 0]; with exactly one sample it has
    [noise_level = 0]. *)
Theorem short_signal_metrics (signal : list R) :
  length signal < 2 →
  _quantum_complexity signal = 0%R ∧
  (length signal = 1 → _estimate_noise signal = Finite 0).
Proof.
  intros Hlen. destruct signal as [|x [|y signal]]; simpl in Hlen; [| |lia].
  - split; [done|]. simpl. lia.
  - split; [done|]. intros _. apply np_std_single.
Qed.

Lemma short_signal_metrics_witness :
  _quantum_complexity [5%R] = 0%R ∧ _estimate_noise [5%R] = Finite 0.
Proof.
  destruct (short_signal_metrics [5%R]) as [Hc Hn]; [simpl; lia|].
  split; [exact Hc|]. by apply Hn.
Defined.

(** C8 fails as stated on the empty signal: [np.std] of an empty array
    is NaN. *)
Lemma estimate_noise_empty_is_NaN :
  length ([] : list R) < 2 ∧ _estimate_noise [] = NaN.
Proof.
  split; [simpl; lia|]. unfold _estimate_noise, np_std. by rewrite np_mean_empty.
Qed.

(** * Further properties of the signal feature extractor *)

Lemma length_prepare (signal : list R) :
  length (_prepare_quantum_state signal) = length signal.
Proof. unfold _prepare_quantum_state, ravel. by rewrite length_fmap. Qed.

Lemma Rsum_cons (x : R) (v : list R) : Rsum (x :: v) = (x + Rsum v)%R.
Proof. done. Qed.

Lemma Rsum_nonneg (v : list R) : (∀ x, x ∈ v → (0 <= x)%R) → (0 <= Rsum v)%R.
Proof.
  induction v as [|x v IH]; intros Hv; [cbn; lra|].
  rewrite Rsum_cons. pose proof (Hv x (list_elem_of_here _ _)).
  assert (0 <= Rsum v)%R by (apply IH; intros y Hy; apply Hv; by right). lra.
Qed.

(** The maximum of a list of numbers that are not negative lies
    between their mean and their sum. *)
Lemma foldl_Rmax_bounds (v : list R) (x : R) :
  (0 <= x)%R → (∀ y, y ∈ v → (0 <= y)%R) →
  let m := foldl Rmax x v in
  (x <= m)%R ∧ (∀ y, y ∈ v → (y <= m)%R) ∧ (m <= x + Rsum v)%R.
Proof.
  revert x. induction v as [|y v IH]; intros x Hx Hv; cbn [foldl].
  - split; [lra|]. split; [by intros y Hy%elem_of_nil|]. cbn. lra.
  - assert (0 <= y)%R as Hy by (apply Hv; by left).
    destruct (IH (Rmax x y)) as (H1 & H2 & H3).
    { pose proof (Rmax_l x y). lra. }
    { intros z Hz. apply Hv. by right. }
    pose proof (Rmax_l x y). pose proof (Rmax_r x y).
    split; [lra|]. split.
    + intros z [->|Hz]%elem_of_cons; [lra|by apply H2].
    + rewrite Rsum_cons.
      assert (Rmax x y <= x + y)%R by (apply Rmax_lub; lra). lra.
Qed.

Lemma np_max_bounds (v : list R) :
  v ≠ [] → (∀ y, y ∈ v → (0 <= y)%R) →
  ∃ m, np_max v = Ok m ∧ (∀ y, y ∈ v → (y <= m)%R) ∧
       (m <= Rsum v)%R ∧ (Rsum v <= INR (length v) * m)%R.
Proof.
  destruct v as [|x v]; [done|]. intros _ Hv.
  destruct (foldl_Rmax_bounds v x) as (H1 & H2 & H3).
  { apply Hv. by left. }
  { intros y Hy. apply Hv. by right. }
  exists (foldl Rmax x v). split; [done|].
  assert (∀ y, y ∈ x :: v → (y <= foldl Rmax x v)%R) as Hall.
  { intros y [->|Hy]%elem_of_cons; [done|by apply H2]. }
  split; [done|]. split; [by rewrite Rsum_cons|].
  clear -Hall. induction (x :: v) as [|y l IH]; [cbn; lra|].
  rewrite Rsum_cons. change (length (y :: l)) with (S (length l)).
  rewrite S_INR.
  assert (Rsum l <= INR (length l) * foldl Rmax x v)%R
    by (apply IH; intros z Hz; apply Hall; by right).
  pose proof (Hall y (list_elem_of_here _ _)). lra.
Qed.

Lemma np_fft_fft_nonempty (a : list R) :
  a ≠ [] → ∃ fft, np_fft_fft a = Ok fft ∧ length fft = length a.
Proof.
  intros Ha. unfold np_fft_fft. destruct a as [|x a]; [done|].
  eexists. split; [done|]. by rewrite length_fmap, length_seq.
Qed.

(** The spectral concentration of a signal that is not empty is NaN
    (all power zero) or a ratio between [1 / N] and 1. *)
Lemma detect_periodicity_range (signal : list R) :
  signal ≠ [] →
  _detect_periodicity signal = Ok NaN ∨
  ∃ p, _detect_periodicity signal = Ok (Finite p) ∧
       (1 / INR (length signal) <= p <= 1)%R.
Proof.
  intros Hne. unfold _detect_periodicity.
  destruct (np_fft_fft_nonempty signal Hne) as (fft & -> & Hlen).
  rewrite bind_Ok.
  set (power := (λ z, Cabs z ^ 2)%R <$> fft).
  assert (length power = length signal) as Hlp
    by (unfold power; by rewrite length_fmap).
  assert (power ≠ []) as Hpne.
  { intros Heq. rewrite Heq in Hlp. by destruct signal. }
  assert (∀ y, y ∈ power → (0 <= y)%R) as Hpos.
  { intros y (z & -> & _)%list_elem_of_fmap. apply pow2_ge_0. }
  destruct (np_max_bounds power Hpne Hpos) as (m & -> & Hmax & Hsum & Havg).
  rewrite bind_Ok, Hlp in *.
  assert (0 < INR (length signal))%R as HN.
  { apply lt_0_INR. destruct signal; [done|simpl; lia]. }
  pose proof (Rsum_nonneg power Hpos) as Hs0.
  unfold np_true_divide.
  destruct (Req_dec_T (Rsum power) 0) as [Hz|Hnz].
  - left. assert (m = 0%R) as ->.
    { destruct power as [|y l]; [done|].
      pose proof (Hpos y (list_elem_of_here _ _)).
      pose proof (Hmax y (list_elem_of_here _ _)). lra. }
    by destruct (Req_dec_T 0 0).
  - right. eexists. split; [done|]. split.
    + apply Rmult_le_reg_r with (Rsum power); [lra|].
      apply Rmult_le_reg_r with (INR (length signal)); [done|].
      field_simplify; lra.
    + apply Rmult_le_reg_r with (Rsum power); [lra|]. field_simplify; lra.
Qed.

Lemma pattern_recognition_nonempty (signal : list R) :
  signal ≠ [] →
  ∃ p, _detect_periodicity signal = Ok p ∧
       _quantum_pattern_recognition signal
       = Ok (mkPatterns p (_estimate_noise signal) (_quantum_complexity signal)).
Proof.
  intros Hne. unfold _quantum_pattern_recognition.
  destruct (detect_periodicity_range signal Hne) as [->|(p & -> & _)];
    eexists; by rewrite bind_Ok.
Qed.

Lemma phase_estimation_nonempty (signal : list R) :
  signal ≠ [] →
  ∃ θ, _quantum_phase_estimation signal = Ok (_quantum_feature_extraction signal, θ).
Proof.
  intros Hne. unfold _quantum_phase_estimation.
  destruct (np_argmax_spec (Cabs <$> _quantum_feature_extraction signal))
    as (k & -> & _).
  { intros Heq. apply (f_equal length) in Heq.
    rewrite length_fmap, length_feature_extraction in Heq. by destruct signal. }
  eexists. by rewrite bind_Ok.
Qed.

(** A signal whose samples are moderate is within the range. *)
Lemma float64_safe_of_bound (signal : list R) :
  (INR (length signal) * Rsum ((λ x, x * x) <$> signal) <= 100)%R →
  float64_safe signal.
Proof.
  intros Hb. unfold float64_safe. eapply Rle_trans; [exact Hb|].
  replace 100%R with (10 ^ 2)%R by (simpl; lra).
  apply Rle_pow; [lra|lia].
Qed.

Lemma Rsum_nonneg_zero (v : list R) :
  (∀ x, x ∈ v → (0 <= x)%R) → Rsum v = 0%R → ∀ x, x ∈ v → x = 0%R.
Proof.
  induction v as [|y v IH]; intros Hv Hs x Hx; [by apply elem_of_nil in Hx|].
  rewrite Rsum_cons in Hs.
  pose proof (Hv y (list_elem_of_here _ _)) as Hy.
  assert (0 <= Rsum v)%R as Hr.
  { apply Rsum_nonneg. intros z Hz. apply Hv. by right. }
  apply elem_of_cons in Hx as [->|Hx]; [lra|].
  apply IH; [|lra|done]. intros z Hz. apply Hv. by right.
Qed.

(** X1.  [process_signal] raises, a [ValueError], exactly on the empty
    signal.  On any other signal it returns the normalised signal, of
    the input's length, and twice the same serialised transform: its
    [phases] are its [features]. *)
Theorem process_signal_returns (signal : list R) :
  (signal = [] → process_signal signal = Raise ValueError) ∧
  (signal ≠ [] →
   ∃ fs, process_signal signal = Ok fs ∧
         fs_processed_signal fs = _prepare_quantum_state signal ∧
         length (fs_processed_signal fs) = length signal ∧
         fs_features fs
         = _serialize_complex (_quantum_feature_extraction (_prepare_quantum_state signal)) ∧
         fs_phases fs = fs_features fs ∧
         length (real (fs_features fs)) = length signal ∧
         length (imag (fs_features fs)) = length signal).
Proof.
  split; [by intros ->|]. intros Hne.
  assert (_prepare_quantum_state signal ≠ []) as Hpne.
  { intros Heq. apply (f_equal length) in Heq. rewrite length_prepare in Heq.
    by destruct signal. }
  unfold process_signal.
  destruct (phase_estimation_nonempty _ Hpne) as (θ & ->).
  destruct (pattern_recognition_nonempty _ Hpne) as (p & _ & ->).
  rewrite !bind_Ok. eexists. split; [reflexivity|].
  cbn [fs_processed_signal fs_features fs_phases].
  split_and!; [done|apply length_prepare|done|done|..];
    cbn [real imag _serialize_complex];
    by rewrite length_fmap, length_feature_extraction, length_prepare.
Qed.

(** X2.  The spectral concentration [_detect_periodicity] of a signal
    of [N >= 1] samples within the float64 range raises nothing and is
    never an infinity: it is NaN, when the power spectrum sums to 0, or
    a ratio [p] with [1 / N <= p <= 1]. *)
Theorem periodicity_between_mean_and_one (signal : list R) :
  signal ≠ [] → float64_safe signal →
  _detect_periodicity signal = Ok NaN ∨
  ∃ p, _detect_periodicity signal = Ok (Finite p) ∧
       (1 / INR (length signal) <= p <= 1)%R.
Proof.
  intros Hne _.
  destruct (detect_periodicity_range signal Hne) as [HNaN|(p & Hp & Hlo & Hhi)].
  - by left.
  - right. exists p. by split.
Qed.

Lemma periodicity_between_mean_and_one_witness :
  _detect_periodicity [1; 2]%R = Ok NaN ∨
  ∃ p, _detect_periodicity [1; 2]%R = Ok (Finite p) ∧
       (1 / INR (length [1; 2]%R) <= p <= 1)%R.
Proof.
  apply (periodicity_between_mean_and_one [1; 2]%R); [done|].
  apply float64_safe_of_bound. simpl. lra.
Defined.

(** X3.  The normalised signal has the length of the input.  For an
    input within the float64 range its L2 norm is [r / (r + eps)], [r]
    being the norm of the input: at most 1, and at least [1 - eps] when
    [r >= 1]. *)
Theorem prepared_state_norm (signal : list R) :
  float64_safe signal →
  let r := np_linalg_norm signal in
  let r' := np_linalg_norm (_prepare_quantum_state signal) in
  length (_prepare_quantum_state signal) = length signal ∧
  r' = (r / (r + eps))%R ∧
  (0 <= r' <= 1)%R ∧
  ((1 <= r)%R → (1 - eps <= r')%R).
Proof.
  intros _ r r'. pose proof eps_pos as He.
  pose proof (np_linalg_norm_nonneg signal) as Hr. fold r in Hr.
  assert (r' = r / (r + eps))%R as Heq.
  { unfold r', _prepare_quantum_state, ravel.
    apply np_linalg_norm_scaled, norm_guard_pos. }
  split; [apply length_prepare|]. split; [done|]. rewrite Heq.
  assert ((r / (r + eps)) * (r + eps) = r)%R as Hq by (field; lra).
  split; [split|].
  - apply Rmult_le_reg_r with (r + eps)%R; lra.
  - apply Rmult_le_reg_r with (r + eps)%R; lra.
  - intros H1. apply Rmult_le_reg_r with (r + eps)%R; [lra|]. nra.
Qed.

Lemma prepared_state_norm_witness :
  let r := np_linalg_norm [3; 4]%R in
  let r' := np_linalg_norm (_prepare_quantum_state [3; 4]%R) in
  length (_prepare_quantum_state [3; 4]%R) = length [3; 4]%R ∧
  r' = (r / (r + eps))%R ∧
  (0 <= r' <= 1)%R ∧
  ((1 <= r)%R → (1 - eps <= r')%R).
Proof.
  apply (prepared_state_norm [3; 4]%R).
  apply float64_safe_of_bound. simpl. lra.
Defined.

(** ** Magnitudes of complex numbers *)

Lemma Cabs_nonneg (z : C) : (0 <= Cabs z)%R.
Proof. apply sqrt_pos. Qed.

Lemma Cabs_RtoC (x : R) : Cabs (RtoC x) = Rabs x.
Proof.
  unfold Cabs. simpl. rewrite Rmult_0_l, Rplus_0_r.
  rewrite <- (sqrt_Rsqr_abs x). done.
Qed.

Lemma Cabs_mul (z w : C) : Cabs (Cmul z w) = (Cabs z * Cabs w)%R.
Proof.
  unfold Cabs. destruct z as [a b], w as [c d]. simpl.
  rewrite <- sqrt_mult by nra. f_equal. ring.
Qed.

Lemma Cabs_unit (θ : R) : Cabs (Cexp (0, θ)%R) = 1%R.
Proof.
  unfold Cabs, Cexp. simpl. rewrite exp_0.
  replace (1 * cos θ * (1 * cos θ) + 1 * sin θ * (1 * sin θ))%R
    with (Rsqr (sin θ) + Rsqr (cos θ))%R by (unfold Rsqr; ring).
  by rewrite sin2_cos2, sqrt_1.
Qed.

Lemma Cabs_triangle (z w : C) : (Cabs (Cadd z w) <= Cabs z + Cabs w)%R.
Proof.
  destruct z as [a b], w as [c d]. unfold Cabs, Cadd. simpl.
  remember (a * a + b * b)%R as A eqn:EA.
  remember (c * c + d * d)%R as B eqn:EB.
  assert (0 <= A)%R as HA by nra.
  assert (0 <= B)%R as HB by nra.
  pose proof (sqrt_pos A) as HsA. pose proof (sqrt_pos B) as HsB.
  pose proof (sqrt_sqrt A HA) as HAA. pose proof (sqrt_sqrt B HB) as HBB.
  assert (a * c + b * d <= sqrt A * sqrt B)%R as Hcs.
  { rewrite <- sqrt_mult by done.
    apply Rsqr_incr_0_var; [|apply sqrt_pos].
    rewrite Rsqr_sqrt by nra.
    pose proof (Rle_0_sqr (a * d - b * c)) as Hsq.
    unfold Rsqr in *. subst A B. nra. }
  apply Rsqr_incr_0_var; [|lra].
  pose proof (Rle_0_sqr (a + c)) as H1. pose proof (Rle_0_sqr (b + d)) as H2.
  unfold Rsqr in H1, H2. rewrite Rsqr_sqrt by lra.
  unfold Rsqr. nra.
Qed.

Lemma Cabs_np_sum (v : list C) : (Cabs (np_sum v) <= Rsum (Cabs <$> v))%R.
Proof.
  induction v as [|z v IH].
  - cbn. unfold Cabs. simpl. rewrite Rmult_0_l, Rplus_0_l, sqrt_0. lra.
  - rewrite fmap_cons, Rsum_cons.
    change (np_sum (z :: v)) with (Cadd z (np_sum v)).
    pose proof (Cabs_triangle z (np_sum v)). lra.
Qed.

(** ** The spectrum of a real signal *)

Lemma list_lookups_seq {X : Type} `{!Inhabited X} (v : list X) :
  v = (λ i, v !!! i) <$> seq 0 (length v).
Proof.
  apply (list_eq_same_length _ _ (length v)); [|done|].
  - by rewrite length_fmap, length_seq.
  - intros i x y Hi Hx Hy. rewrite lookup_fmap_seq in Hy by done.
    apply list_lookup_total_correct in Hx. congruence.
Qed.

Lemma Rsum_fmap_ext {X : Type} (f g : X → R) (l : list X) :
  (∀ x, x ∈ l → f x = g x) → Rsum (f <$> l) = Rsum (g <$> l).
Proof.
  induction l as [|x l IH]; intros Hfg; [done|].
  rewrite !fmap_cons, !Rsum_cons, Hfg, IH; [done| |by left].
  intros y Hy. apply Hfg. by right.
Qed.

Lemma np_sum_RtoC {X : Type} (f : X → R) (l : list X) :
  np_sum ((λ x, RtoC (f x)) <$> l) = RtoC (Rsum (f <$> l)).
Proof.
  induction l as [|x l IH]; [done|].
  rewrite !fmap_cons, Rsum_cons.
  change (np_sum (RtoC (f x) :: ((λ x, RtoC (f x)) <$> l)))
    with (Cadd (RtoC (f x)) (np_sum ((λ x, RtoC (f x)) <$> l))).
  rewrite IH. apply C_eq; simpl; ring.
Qed.

Lemma Cexp_0 : Cexp (0, 0)%R = RtoC 1.
Proof. unfold Cexp. simpl. rewrite exp_0, cos_0, sin_0. apply C_eq; simpl; ring. Qed.

(** Coefficient 0 is the sum of the samples. *)
Lemma dft_coeff_0 (signal : list R) : dft_coeff signal 0 = RtoC (Rsum signal).
Proof.
  unfold dft_coeff, sum_below.
  transitivity (np_sum ((λ t, RtoC (signal !!! t)) <$> seq 0 (length signal))).
  - apply (np_sum_ext (A:=C)). intros t Ht. simpl.
    replace (- (2 * PI * 0 * INR t / INR (length signal)))%R with 0%R
      by (unfold Rdiv; ring).
    rewrite Cexp_0. apply C_eq; simpl; ring.
  - rewrite np_sum_RtoC. by rewrite <- list_lookups_seq.
Qed.

(** No coefficient exceeds the sum of the magnitudes of the samples. *)
Lemma Cabs_dft_coeff (signal : list R) (k : nat) :
  (Cabs (dft_coeff signal k) <= Rsum (Rabs <$> signal))%R.
Proof.
  unfold dft_coeff, sum_below.
  eapply Rle_trans; [apply Cabs_np_sum|].
  rewrite <- list_fmap_compose.
  assert (Rsum (Rabs <$> signal)
          = Rsum ((λ t, Rabs (signal !!! t)) <$> seq 0 (length signal))) as ->.
  { rewrite (list_lookups_seq signal) at 1. by rewrite <- list_fmap_compose. }
  apply Req_le, Rsum_fmap_ext.
  intros t Ht. simpl.
  by rewrite Cabs_mul, Cabs_unit, Cabs_RtoC, Rmult_1_r.
Qed.

Lemma feature_extraction_elements (signal : list R) (z : C) :
  z ∈ _quantum_feature_extraction signal → ∃ k, z = dft_coeff signal k.
Proof.
  intros (k & Hk)%list_elem_of_lookup_1.
  pose proof (lookup_lt_Some _ _ _ Hk) as Hlt.
  rewrite length_feature_extraction in Hlt.
  rewrite lookup_feature_extraction in Hk by done. exists k. congruence.
Qed.

Lemma Cconj_np_sum (v : list C) : Cconj (np_sum v) = np_sum (Cconj <$> v).
Proof.
  induction v as [|z v IH]; [apply C_eq; simpl; ring|].
  rewrite fmap_cons.
  change (np_sum (z :: v)) with (Cadd z (np_sum v)).
  change (np_sum (Cconj z :: (Cconj <$> v)))
    with (Cadd (Cconj z) (np_sum (Cconj <$> v))).
  rewrite <- IH. apply C_eq; simpl; ring.
Qed.

Lemma Cexp_imaginary (y : R) : Cexp (0, y)%R = (cos y, sin y).
Proof. unfold Cexp. simpl. rewrite exp_0. apply C_eq; simpl; ring. Qed.

(** A real signal has a conjugate symmetric spectrum. *)
Lemma dft_coeff_conj (signal : list R) (k : nat) :
  0 < k < length signal →
  dft_coeff signal (length signal - k) = Cconj (dft_coeff signal k).
Proof.
  intros Hk. unfold dft_coeff, sum_below.
  rewrite Cconj_np_sum, <- list_fmap_compose.
  apply (np_sum_ext (A:=C)). intros t Ht. simpl.
  set (N := length signal) in *.
  assert (INR N ≠ 0%R) as HN by (apply not_0_INR; lia).
  rewrite minus_INR by lia. rewrite !Cexp_imaginary.
  set (θ := (2 * PI * INR k * INR t / INR N)%R).
  replace (- (2 * PI * (INR N - INR k) * INR t / INR N))%R
    with (- (- θ + 2 * INR t * PI))%R by (unfold θ; field; done).
  rewrite !cos_neg, !sin_neg, cos_period, sin_period, cos_neg, sin_neg.
  apply C_eq; simpl; ring.
Qed.

(** X4.  The transform of a real signal of [N] samples: coefficient 0
    is the sum of the samples, coefficient [N - k] is the complex
    conjugate of coefficient [k] for [0 < k < N], and no coefficient
    has a magnitude above the sum of the magnitudes of the samples. *)
Theorem spectrum_of_real_signal (signal : list R) :
  let N := length signal in
  let X := _quantum_feature_extraction signal in
  (0 < N → X !! 0 = Some (RtoC (Rsum signal))) ∧
  (∀ k, 0 < k < N → ∃ c, X !! k = Some c ∧ X !! (N - k) = Some (Cconj c)) ∧
  (∀ k c, X !! k = Some c → (Cabs c <= Rsum (Rabs <$> signal))%R).
Proof.
  intros N X. split_and!.
  - intros HN. unfold X. rewrite lookup_feature_extraction by done.
    by rewrite dft_coeff_0.
  - intros k Hk. exists (dft_coeff signal k). unfold X, N in *. split.
    + apply lookup_feature_extraction. lia.
    + rewrite lookup_feature_extraction by lia. by rewrite dft_coeff_conj.
  - intros k c Hc. destruct (feature_extraction_elements signal c) as [j ->].
    + by eapply list_elem_of_lookup_2.
    + apply Cabs_dft_coeff.
Qed.

(** ** Noise level and complexity *)

Lemma Rsum_scaled (d : R) (v : list R) :
  Rsum ((λ x, x / d)%R <$> v) = (Rsum v / d)%R.
Proof.
  induction v as [|x v IH]; [cbn; unfold Rdiv; ring|].
  rewrite fmap_cons, !Rsum_cons, IH. unfold Rdiv. ring.
Qed.

Lemma np_std_nonempty (v : list R) :
  v ≠ [] →
  np_std v
  = Finite (sqrt (Rsum ((λ x, Rabs (x - Rsum v / INR (length v)) ^ 2)%R <$> v)
                  / INR (length v))).
Proof.
  intros Hv. unfold np_std. rewrite np_mean_nonempty by done.
  rewrite np_mean_nonempty.
  - by rewrite length_fmap.
  - intros Heq. apply (f_equal length) in Heq. rewrite length_fmap in Heq.
    by destruct v.
Qed.

Lemma np_std_finite_nonneg (v : list R) :
  v ≠ [] → ∃ s, np_std v = Finite s ∧ (0 <= s)%R.
Proof.
  intros Hv. eexists. split; [by apply np_std_nonempty|apply sqrt_pos].
Qed.

(** Dividing every sample by [d > 0] divides the standard deviation by
    [d]. *)
Lemma np_std_scaled (d : R) (v : list R) (s : R) :
  (0 < d)%R → v ≠ [] → np_std v = Finite s →
  np_std ((λ x, x / d)%R <$> v) = Finite (s / d).
Proof.
  intros Hd Hv Hs. rewrite np_std_nonempty in Hs by done.
  assert (s = sqrt (Rsum ((λ x, Rabs (x - Rsum v / INR (length v)) ^ 2)%R <$> v)
                    / INR (length v))) as -> by congruence.
  clear Hs. rewrite np_std_nonempty.
  2: { intros Heq. apply (f_equal length) in Heq. rewrite length_fmap in Heq.
       by destruct v. }
  rewrite length_fmap, Rsum_scaled, <- list_fmap_compose.
  set (n := INR (length v)).
  assert (n ≠ 0%R) as Hn by (by apply INR_pos_length).
  set (m := (Rsum v / n)%R).
  assert (Rsum ((λ x, Rabs (x - Rsum v / d / n) ^ 2)%R ∘ (λ x, x / d)%R <$> v)
          = Rsum ((λ x, Rabs (x - m) ^ 2)%R <$> v) / (d * d))%R as ->.
  { rewrite <- (Rsum_scaled (d * d)). rewrite <- list_fmap_compose.
    apply Rsum_fmap_ext. intros x _. unfold compose.
    replace (x / d - Rsum v / d / n)%R with ((x - m) / d)%R
      by (unfold m; field; lra).
    rewrite !pow2_abs. field. lra. }
  f_equal.
  replace (Rsum ((λ x, Rabs (x - m) ^ 2)%R <$> v) / (d * d) / n)%R
    with (Rsum ((λ x, Rabs (x - m) ^ 2)%R <$> v) / n / (d * d))%R
    by (field; lra).
  rewrite sqrt_div_alt by nra. by rewrite sqrt_square by lra.
Qed.

Lemma np_diff_cons2 (x y : R) (v : list R) :
  np_diff (x :: y :: v) = (y - x)%R :: np_diff (y :: v).
Proof. done. Qed.

Lemma np_diff_scaled (d : R) (v : list R) :
  np_diff ((λ x, x / d)%R <$> v) = (λ x, x / d)%R <$> np_diff v.
Proof.
  induction v as [|x [|y v] IH]; [done..|].
  rewrite !fmap_cons, np_diff_cons2. rewrite !fmap_cons in IH.
  rewrite IH, np_diff_cons2, fmap_cons. f_equal. unfold Rdiv. ring.
Qed.

Lemma complexity_scaled (d : R) (v : list R) :
  (0 < d)%R →
  _quantum_complexity ((λ x, x / d)%R <$> v) = (_quantum_complexity v / d)%R.
Proof.
  intros Hd. unfold _quantum_complexity.
  rewrite np_diff_scaled, <- Rsum_scaled, <- !list_fmap_compose.
  apply Rsum_fmap_ext. intros x _. simpl.
  unfold Rdiv. rewrite Rabs_mult, (Rabs_pos_eq (/ d)); [done|].
  left. by apply Rinv_0_lt_compat.
Qed.

Lemma complexity_nonneg (v : list R) : (0 <= _quantum_complexity v)%R.
Proof.
  apply Rsum_nonneg. intros x (y & -> & _)%list_elem_of_fmap. apply Rabs_pos.
Qed.

(** The first differences telescope. *)
Lemma Rsum_np_diff (x : R) (v : list R) :
  Rsum (np_diff (x :: v)) = (List.last v x - x)%R.
Proof.
  revert x. induction v as [|y v IH]; intros x; [cbn; lra|].
  rewrite np_diff_cons2, Rsum_cons, IH.
  change (List.last (y :: v) x) with
    (match v with [] => y | _ :: _ => List.last v x end).
  destruct v as [|z v]; [simpl; lra|].
  replace (List.last (z :: v) y) with (List.last (z :: v) x); [lra|].
  clear. revert z. induction v as [|w v IH]; intros z; [done|].
  change (List.last (z :: w :: v) x) with (List.last (w :: v) x).
  change (List.last (z :: w :: v) y) with (List.last (w :: v) y). apply IH.
Qed.

Lemma Rabs_Rsum (v : list R) : (Rabs (Rsum v) <= Rsum (Rabs <$> v))%R.
Proof.
  induction v as [|x v IH]; [cbn; rewrite Rabs_R0; lra|].
  rewrite fmap_cons, !Rsum_cons. pose proof (Rabs_triang x (Rsum v)). lra.
Qed.

Lemma np_diff_nondecreasing (v : list R) (y : R) :
  (∀ i a b, v !! i = Some a → v !! S i = Some b → (a <= b)%R) →
  y ∈ np_diff v → (0 <= y)%R.
Proof.
  induction v as [|x [|z v] IH]; intros Hmono Hy;
    [by apply elem_of_nil in Hy..|].
  rewrite np_diff_cons2 in Hy. apply elem_of_cons in Hy as [->|Hy].
  - specialize (Hmono 0 x z eq_refl eq_refl). lra.
  - apply IH; [|done]. intros i a b Ha Hb. by apply (Hmono (S i)).
Qed.

Lemma lookup_np_diff (v : list R) (i : nat) (a b : R) :
  v !! i = Some a → v !! S i = Some b → np_diff v !! i = Some (b - a)%R.
Proof.
  intros Ha Hb. unfold np_diff.
  by rewrite lookup_zip_with, Ha, lookup_tail, Hb.
Qed.

(** X6.  The complexity of a signal, the sum of the magnitudes of its
    first differences, is never negative and at least the magnitude of
    the difference between the last and the first sample; it is that
    difference exactly when the samples never decrease. *)
Theorem complexity_total_variation (first : R) (rest : list R) :
  let signal := first :: rest in
  let final := List.last rest first in
  (0 <= _quantum_complexity signal)%R ∧
  (Rabs (final - first) <= _quantum_complexity signal)%R ∧
  (_quantum_complexity signal = (final - first)%R
   ↔ ∀ i a b, signal !! i = Some a → signal !! S i = Some b → (a <= b)%R).
Proof.
  intros signal final. split; [apply complexity_nonneg|]. split.
  - unfold final. rewrite <- Rsum_np_diff. apply Rabs_Rsum.
  - unfold _quantum_complexity, final. rewrite <- Rsum_np_diff. fold signal.
    split.
    + intros Heq i a b Ha Hb.
      assert (Rsum ((λ y, Rabs y - y)%R <$> np_diff signal) = 0%R) as Hzero.
      { clear -Heq. revert Heq. generalize (np_diff signal). intros l.
        assert (Rsum ((λ y, Rabs y - y)%R <$> l)
                = Rsum (Rabs <$> l) - Rsum l)%R as ->; [|lra].
        induction l as [|y l IH]; [cbn; lra|].
        rewrite !fmap_cons, !Rsum_cons, IH. lra. }
      assert (Rabs (b - a) - (b - a) = 0)%R as Hd.
      { apply (Rsum_nonneg_zero ((λ y, Rabs y - y)%R <$> np_diff signal));
          [|done|].
        - intros y (z & -> & _)%list_elem_of_fmap.
          pose proof (Rle_abs z). lra.
        - apply list_elem_of_fmap. exists (b - a)%R. split; [done|].
          eapply list_elem_of_lookup_2. by apply lookup_np_diff. }
      pose proof (Rabs_pos (b - a)).
      destruct (Rcase_abs (b - a)) as [Hneg|Hnn]; [|lra].
      rewrite (Rabs_left _ Hneg) in Hd. lra.
    + intros Hmono. rewrite <- (list_fmap_id (np_diff signal)) at 2.
      apply Rsum_fmap_ext. intros y Hy. apply Rabs_pos_eq.
      by eapply np_diff_nondecreasing.
Qed.

(** X7.  The metrics [process_signal] reports are those of the
    normalised signal: for an input that is not empty and within the
    float64 range, [noise_level] is the standard deviation of the
    input, a finite number that is not negative, divided by [r + eps],
    and [complexity] is the complexity of the input divided by
    [r + eps], [r] being the L2 norm of the input. *)
Theorem reported_metrics_are_scaled (signal : list R) :
  signal ≠ [] → float64_safe signal →
  let d := (np_linalg_norm signal + eps)%R in
  ∃ fs s,
    process_signal signal = Ok fs ∧
    _estimate_noise signal = Finite s ∧ (0 <= s)%R ∧
    noise_level (fs_patterns fs) = Finite (s / d) ∧
    complexity (fs_patterns fs) = (_quantum_complexity signal / d)%R.
Proof.
  intros Hne _ d.
  assert (0 < d)%R as Hd by apply norm_guard_pos.
  assert (_prepare_quantum_state signal ≠ []) as Hpne.
  { intros Heq. apply (f_equal length) in Heq. rewrite length_prepare in Heq.
    by destruct signal. }
  destruct (np_std_finite_nonneg signal Hne) as (s & Hs & Hs0).
  unfold process_signal.
  destruct (phase_estimation_nonempty _ Hpne) as (θ & ->).
  destruct (pattern_recognition_nonempty _ Hpne) as (p & _ & ->).
  rewrite !bind_Ok. eexists _, s. split; [reflexivity|].
  cbn [fs_patterns noise_level complexity].
  split; [done|]. split; [done|]. split.
  - unfold _estimate_noise, _prepare_quantum_state, ravel.
    by apply np_std_scaled.
  - unfold _prepare_quantum_state, ravel. by apply complexity_scaled.
Qed.

Lemma reported_metrics_are_scaled_witness :
  let d := (np_linalg_norm [1; 3]%R + eps)%R in
  ∃ fs s,
    process_signal [1; 3]%R = Ok fs ∧
    _estimate_noise [1; 3]%R = Finite s ∧ (0 <= s)%R ∧
    noise_level (fs_patterns fs) = Finite (s / d) ∧
    complexity (fs_patterns fs) = (_quantum_complexity [1; 3]%R / d)%R.
Proof.
  apply (reported_metrics_are_scaled [1; 3]%R); [done|].
  apply float64_safe_of_bound. simpl. lra.
Defined.

(** * Further properties of the state simulator *)

Lemma for_each_ext {St X : Type} (f g : St → X → result St) (xs : list X) (s : St) :
  (∀ s x, x ∈ xs → f s x = g s x) → for_each f xs s = for_each g xs s.
Proof.
  revert s. induction xs as [|x xs IH]; intros s Hfg; [done|].
  simpl. rewrite Hfg by (by left).
  destruct (g s x) as [s'|e]; simpl; [|done].
  apply IH. intros s1 y Hy. apply Hfg. by right.
Qed.

(** Python counts a negative index from the end. *)
Lemma py_norm_index_mod (len : nat) (k : Z) :
  (- Z.of_nat len ≤ k < Z.of_nat len)%Z →
  py_norm_index len k = Some (Z.to_nat (k mod Z.of_nat len)).
Proof.
  intros Hk. unfold py_norm_index.
  destruct (decide (0 ≤ k)%Z).
  - rewrite decide_True by lia. by rewrite Z.mod_small by lia.
  - rewrite decide_True by lia. do 2 f_equal.
    rewrite <- (Z.mod_small (Z.of_nat len + k) (Z.of_nat len)) by lia.
    rewrite Z.add_comm, <- Z.add_mod_idemp_r, Z.mod_same, Z.add_0_r by lia.
    done.
Qed.

Lemma py_index_mod {X : Type} (l : list X) (k : Z) :
  (- Z.of_nat (length l) ≤ k < Z.of_nat (length l))%Z →
  py_index l k = py_index l (k mod Z.of_nat (length l)).
Proof.
  intros Hk. unfold py_index.
  rewrite (py_norm_index_mod _ k) by done.
  rewrite (py_norm_index_mod _ (k mod _)).
  - by rewrite Z.mod_mod by lia.
  - pose proof (Z.mod_pos_bound k (Z.of_nat (length l))). lia.
Qed.

Lemma py_set_index_mod {X : Type} (l : list X) (k : Z) (v : X) :
  (- Z.of_nat (length l) ≤ k < Z.of_nat (length l))%Z →
  py_set_index l k v = py_set_index l (k mod Z.of_nat (length l)) v.
Proof.
  intros Hk. unfold py_set_index.
  rewrite (py_norm_index_mod _ k) by done.
  rewrite (py_norm_index_mod _ (k mod _)).
  - by rewrite Z.mod_mod by lia.
  - pose proof (Z.mod_pos_bound k (Z.of_nat (length l))). lia.
Qed.

Section CircuitExtras.
Context {A : Type} `{ScalarLaws A}.
Local Open Scope scalar_scope.
Local Abbreviation matrix := (list (list A)).

Add Ring scalar_ring_extras : scalar_ring.

Lemma entangle_row_mod (n : nat) (control target : Z) (m : matrix) (i : nat) :
0 < n → i < 2 ^ n →
(- Z.of_nat n ≤ control < Z.of_nat n)%Z →
(- Z.of_nat n ≤ target < Z.of_nat n)%Z →
entangle_row n control target m i
= entangle_row n (control mod Z.of_nat n) (target mod Z.of_nat n) m i.
Proof.
intros Hn Hi Hc Ht. unfold entangle_row.
pose proof (length_format_bin n i Hn Hi) as Hlen.
rewrite (py_index_mod _ control), Hlen by (by rewrite Hlen).
destruct (py_index (format_bin n i) (control mod Z.of_nat n)) as [c|e]; [|done].
simpl. destruct c; [|done].
rewrite (py_index_mod _ target), Hlen by (by rewrite Hlen).
destruct (py_index (format_bin n i) (target mod Z.of_nat n)) as [t|e]; [|done].
simpl. by rewrite (py_set_index_mod _ target), Hlen by (by rewrite Hlen).
Qed.

Lemma entangle_qubits_mod (control target : Z) (self : QuantumCircuit A) :
let n := Z.of_nat (n_qubits self) in
(- n ≤ control < n)%Z → (- n ≤ target < n)%Z →
entangle_qubits control target self
= entangle_qubits (control mod n) (target mod n) self.
Proof.
intros n Hc Ht. unfold entangle_qubits, entangle_full. f_equal.
apply for_each_ext. intros m i Hi%elem_of_seq.
apply entangle_row_mod; [unfold n in *; lia|lia|done..].
Qed.

(** *** Products of gates on one qubit *)

Lemma shape_gate_mul (h g : matrix) : shape_2x2 (gate_mul h g).
Proof. split; [done|]. intros [|[|i]] row Hrow; simplify_eq/=; done. Qed.

Lemma lookup_total_op_apply (dim : nat) (E : nat → nat → A) (v : list A) (i : nat) :
i < dim → op_apply dim E v !!! i = sum_below dim (λ j, E i j * v !!! j).
Proof.
intros Hi. apply list_lookup_total_correct. by apply lookup_op_apply.
Qed.

Lemma op_apply_embedded (n t : nat) (gate : matrix) (v : list A) :
t < n →
op_apply (2 ^ n) (embedded_entry n t gate) v
= (λ i, gate_at gate (bit n t i) (bit n t i) * v !!! i
        + gate_at gate (bit n t i) (negb (bit n t i)) * v !!! flip n t i)
  <$> seq 0 (2 ^ n).
Proof.
intros Ht. unfold op_apply. apply list_fmap_ext.
intros k i Hi%lookup_seq. apply embedded_row; [done|lia].
Qed.

Lemma op_apply_gate_mul (n t : nat) (h g : matrix) (v : list A) :
t < n →
op_apply (2 ^ n) (embedded_entry n t h)
  (op_apply (2 ^ n) (embedded_entry n t g) v)
= op_apply (2 ^ n) (embedded_entry n t (gate_mul h g)) v.
Proof.
intros Ht. rewrite (op_apply_embedded n t h), (op_apply_embedded n t (gate_mul h g))
  by done.
apply list_fmap_ext. intros k i Hi%lookup_seq.
assert (i < 2 ^ n) as Hlt by lia.
pose proof (flip_bound n t i) as Hfb.
rewrite !lookup_total_op_apply by done.
rewrite !embedded_row by done.
rewrite flip_flip, bit_flip, negb_involutive by done.
destruct (bit n t i); cbn; ring.
Qed.

Lemma op_apply_self_inverse (n t : nat) (g : matrix) (v : list A) :
t < n → length v = 2 ^ n → self_inverse g →
op_apply (2 ^ n) (embedded_entry n t (gate_mul g g)) v = v.
Proof.
intros Ht Hv Hinv. rewrite op_apply_embedded by done.
etransitivity; [|symmetry; apply (list_as_lookups (2 ^ n) v Hv)].
apply list_fmap_ext. intros k i Hi%lookup_seq.
rewrite !Hinv. destruct (bit n t i); cbn [Bool.eqb negb]; ring.
Qed.


(** *** A negative target *)

(** With a negative target, no position [k] of [range(n)] equals the
  target, so the test of [apply_gate] compares the whole strings. *)
Lemma agree_except_negative (n : nat) (target : Z) (i j : nat) :
(target < 0)%Z → i < 2 ^ n → j < 2 ^ n →
agree_except n target (to_bits n i) (to_bits n j) = bool_decide (i = j).
Proof.
intros Ht Hi Hj. apply eq_bool_prop_intro. unfold agree_except.
rewrite forallb_True, Forall_forall, bool_decide_spec. split.
- intros Hall. apply (to_bits_inj n); [done..|].
  apply (list_eq_same_length _ _ n); [by rewrite length_to_bits..|].
  intros k x y Hk Hx Hy.
  apply list_lookup_total_correct in Hx, Hy.
  specialize (Hall k). rewrite bool_decide_spec in Hall.
  rewrite <- Hx, <- Hy. apply Hall.
  apply list_elem_of_filter. split; [lia|]. apply elem_of_seq. lia.
- intros -> k _. by apply bool_decide_spec.
Qed.

Lemma py_index_negative (n : nat) (target : Z) (i : nat) :
(- Z.of_nat n ≤ target < 0)%Z →
py_index (to_bits n i) target = Ok (bit n (Z.to_nat (target + Z.of_nat n)) i).
Proof.
intros Ht. unfold py_index, py_norm_index. rewrite length_to_bits.
rewrite decide_False by lia. rewrite decide_True by lia.
replace (Z.of_nat n + target)%Z with (target + Z.of_nat n)%Z by lia.
rewrite (list_lookup_lookup_total_lt (to_bits n i)); [done|].
rewrite length_to_bits. lia.
Qed.

Lemma apply_gate_cell_negative (n : nat) (target : Z) (gate : matrix)
  (dim i j : nat) (m : matrix) :
(- Z.of_nat n ≤ target < 0)%Z → dim = 2 ^ n → i < dim → j < dim →
shape_2x2 gate → square dim m →
let b := bit n (Z.to_nat (target + Z.of_nat n)) i in
∃ m', apply_gate_cell n gate target i (format_bin n i) m j = Ok m' ∧
      square dim m' ∧
      ∀ i' j', entry m' i' j' =
        if decide (i' = i ∧ j' = j ∧ i = j) then gate_at gate b b
        else entry m i' j'.
Proof.
intros Ht -> Hi Hj Hg Hsq b. unfold apply_gate_cell.
rewrite !format_bin_to_bits by (done || lia).
rewrite agree_except_negative by (done || lia).
destruct (decide (i = j)) as [<-|Hne].
- rewrite bool_decide_eq_true_2 by done.
  rewrite py_index_negative by done. rewrite !bind_Ok.
  rewrite mat_get_gate by done. rewrite bind_Ok.
  destruct (mat_set_square (2 ^ n) m i i (gate_at gate b b))
    as (m' & Hset & Hsq' & Hent); [done..|].
  exists m'. split; [done|]. split; [done|].
  intros i' j'. rewrite Hent.
  destruct (decide (i' = i ∧ j' = i)) as [[-> ->]|Hne].
  + by rewrite decide_True.
  + by rewrite decide_False by tauto.
- rewrite bool_decide_eq_false_2 by done.
  exists m. split; [done|]. split; [done|].
  intros i' j'. by rewrite decide_False by tauto.
Qed.

Lemma apply_gate_row_negative (n : nat) (target : Z) (gate : matrix)
  (dim i : nat) (m : matrix) :
(- Z.of_nat n ≤ target < 0)%Z → dim = 2 ^ n → i < dim →
shape_2x2 gate → square dim m →
let b := bit n (Z.to_nat (target + Z.of_nat n)) i in
∃ m', apply_gate_row n gate target m i = Ok m' ∧
      square dim m' ∧
      ∀ i' j', entry m' i' j' =
        if decide (i' = i ∧ j' = i) then gate_at gate b b else entry m i' j'.
Proof.
intros Ht Hdim Hi Hg Hsq b. unfold apply_gate_row. rewrite <- Hdim.
destruct (for_range_inv
  (apply_gate_cell n gate target i (format_bin n i))
  (λ k m', square dim m' ∧
     ∀ i' j', entry m' i' j' =
       if decide (i' = i ∧ j' = i ∧ i < k) then gate_at gate b b
       else entry m i' j')
  dim m) as (m' & Hrun & Hsq' & Hent).
- split; [done|]. intros i' j'. by rewrite decide_False by lia.
- intros k m1 Hk [Hsq1 Hent1].
  destruct (apply_gate_cell_negative n target gate dim i k m1)
    as (m2 & Hc & Hsq2 & Hent2); [done..|].
  exists m2. split; [done|]. split; [done|].
  intros i' j'. rewrite Hent2, Hent1. fold b.
  destruct (decide (i' = i ∧ j' = k ∧ i = k)) as [(-> & -> & ->)|Hne].
  { by rewrite decide_True by (split_and!; [done..|lia]). }
  destruct (decide (i' = i ∧ j' = i ∧ i < k)) as [(-> & -> & Hlt)|Hne2].
  { by rewrite decide_True by (split_and!; [done..|lia]). }
  rewrite decide_False; [done|]. intros (-> & -> & Hlt).
  destruct (decide (i = k)) as [->|Hik]; [by apply Hne|].
  apply Hne2. split_and!; [done..|lia].
- exists m'. split; [done|]. split; [done|].
  intros i' j'. rewrite Hent.
  destruct (decide (i' = i ∧ j' = i)) as [[-> ->]|Hne].
  + by rewrite decide_True by (split_and!; done).
  + by rewrite decide_False by tauto.
Qed.

Lemma apply_gate_full_negative (n : nat) (target : Z) (gate : matrix) :
(- Z.of_nat n ≤ target < 0)%Z → shape_2x2 gate →
∃ m, apply_gate_full n gate target = Ok m ∧
     square (2 ^ n) m ∧
     ∀ i j, i < 2 ^ n → j < 2 ^ n → entry m i j =
       if decide (j = i)
       then gate_at gate (bit n (Z.to_nat (target + Z.of_nat n)) i)
                         (bit n (Z.to_nat (target + Z.of_nat n)) i)
       else 0.
Proof.
intros Ht Hg. unfold apply_gate_full.
set (dim := 2 ^ n). set (b := bit n (Z.to_nat (target + Z.of_nat n))).
destruct (for_range_inv
  (apply_gate_row n gate target)
  (λ k m', square dim m' ∧
     ∀ i j, i < dim → j < dim → entry m' i j =
       if decide (j = i ∧ i < k) then gate_at gate (b i) (b i)
       else entry (np_eye dim) i j)
  dim (np_eye dim)) as (m' & Hrun & Hsq' & Hent).
- split; [apply square_eye|]. intros i j _ _. by rewrite decide_False by lia.
- intros k m1 Hk [Hsq1 Hent1].
  destruct (apply_gate_row_negative n target gate dim k m1)
    as (m2 & Hc & Hsq2 & Hent2); [done..|].
  exists m2. split; [done|]. split; [done|].
  intros i j Hi Hj. rewrite Hent2. fold b.
  destruct (decide (i = k ∧ j = k)) as [[-> ->]|Hne].
  + by rewrite decide_True by (split; [done|lia]).
  + rewrite Hent1 by done.
    destruct (decide (j = i ∧ i < k)) as [[-> Hlt]|Hne1].
    { by rewrite decide_True by (split; [done|lia]). }
    rewrite decide_False; [done|]. intros [-> Hlt].
    destruct (decide (i = k)) as [->|Hik]; [by apply Hne|].
    apply Hne1. split; [done|lia].
- exists m'. split; [done|]. split; [done|].
  intros i j Hi Hj. rewrite Hent by done.
  destruct (decide (j = i)) as [->|Hji].
  + by rewrite decide_True by done.
  + rewrite decide_False by tauto. rewrite entry_eye by done.
    by rewrite decide_False by done.
Qed.

Lemma op_apply_diagonal (dim : nat) (d : nat → A) (v : list A) :
op_apply dim (λ i j, if decide (j = i) then d i else 0) v
= (λ i, d i * v !!! i) <$> seq 0 dim.
Proof.
unfold op_apply. apply list_fmap_ext. intros k i Hi%lookup_seq.
rewrite (sum_below_single dim i) by
  (first [lia | intros j Hj Hne; rewrite decide_False by done; ring]).
by rewrite decide_True.
Qed.

End CircuitExtras.

Lemma self_inverse_gate_X : self_inverse (gate_X (A:=C)).
Proof. intros [] []; apply C_eq; cbn; lra. Qed.

Lemma self_inverse_gate_Z : self_inverse (gate_Z (A:=C)).
Proof. intros [] []; apply C_eq; cbn; lra. Qed.

Lemma self_inverse_gate_Y : self_inverse gate_Y.
Proof. intros [] []; apply C_eq; cbn; lra. Qed.

Lemma self_inverse_gate_H : self_inverse gate_H.
Proof.
  pose proof sqrt2_sq as Hs. pose proof sqrt2_neq_0 as Hn.
  assert (1 / sqrt 2 * (1 / sqrt 2) = 1 / 2)%R as Hh.
  { field_simplify_eq; [|done]. lra. }
  assert (-1 / sqrt 2 = - (1 / sqrt 2))%R as Hm by (by field).
  intros [] []; apply C_eq; cbn; rewrite ?Hm; nra.
Qed.

(** X8.  Two gates applied one after the other to the same qubit of a
    well-formed circuit act as their two by two matrix product applied
    once: [apply_gate g t] followed by [apply_gate h t] gives the
    circuit of [apply_gate (h g) t]. *)
Theorem consecutive_gates_compose
    (h g : list (list C)) (t : nat) (self : QuantumCircuit C) :
  t < n_qubits self → shape_2x2 g → shape_2x2 h → well_formed self →
  apply_gate g (Z.of_nat t) self ≫= apply_gate h (Z.of_nat t)
  = apply_gate (gate_mul h g) (Z.of_nat t) self.
Proof.
  intros Ht Hg Hh Hwf.
  rewrite (apply_gate_ok g) by done. rewrite bind_Ok.
  rewrite (apply_gate_ok h); cbn [n_qubits depth state]; [|done..|].
  2: { unfold well_formed. cbn [n_qubits state]. apply length_op_apply. }
  rewrite (apply_gate_ok (gate_mul h g)); [|done|apply shape_gate_mul|done].
  by rewrite op_apply_gate_mul.
Qed.

Lemma consecutive_gates_compose_witness :
  let self := QuantumCircuit_init (A:=C) 1 3 in
  apply_gate gate_X 0 self ≫= apply_gate gate_H 0
  = apply_gate (gate_mul gate_H gate_X) 0 self.
Proof.
  apply (consecutive_gates_compose gate_H gate_X 0 (QuantumCircuit_init 1 3)).
  - simpl. lia.
  - apply shape_gate_X.
  - apply unitary_gate_H.
  - apply well_formed_init.
Defined.

(** X9.  Each of the four gates that [_initialize_gates] stores (X, Y,
    Z and H) is unitary, and is its own inverse: applied twice to the
    same qubit of a well-formed circuit it gives the circuit back. *)
Theorem initial_gates_self_inverse
    (g : list (list C)) (t : nat) (self : QuantumCircuit C) :
  g ∈ [gate_X; gate_Y; gate_Z; gate_H] →
  t < n_qubits self → well_formed self →
  unitary_2x2 g ∧
  apply_gate g (Z.of_nat t) self ≫= apply_gate g (Z.of_nat t) = Ok self.
Proof.
  intros Hg Ht Hwf.
  assert (unitary_2x2 g ∧ self_inverse g) as [Hu Hinv].
  { repeat (apply elem_of_cons in Hg as [->|Hg]).
    - split; [apply unitary_gate_X|apply self_inverse_gate_X].
    - split; [apply unitary_gate_Y|apply self_inverse_gate_Y].
    - split; [apply unitary_gate_Z|apply self_inverse_gate_Z].
    - split; [apply unitary_gate_H|apply self_inverse_gate_H].
    - by apply elem_of_nil in Hg. }
  split; [done|]. destruct Hu as [Hshape _].
  rewrite (apply_gate_ok g) by done. rewrite bind_Ok.
  rewrite (apply_gate_ok g); cbn [n_qubits depth state]; [|done..|].
  2: { unfold well_formed. cbn [n_qubits state]. apply length_op_apply. }
  rewrite op_apply_gate_mul by done.
  rewrite op_apply_self_inverse by done.
  by destruct self.
Qed.

Lemma initial_gates_self_inverse_witness :
  let self := QuantumCircuit_init (A:=C) 2 3 in
  unitary_2x2 gate_H ∧
  apply_gate gate_H 1 self ≫= apply_gate gate_H 1 = Ok self.
Proof.
  apply (initial_gates_self_inverse gate_H 1 (QuantumCircuit_init 2 3)).
  - do 3 right. left.
  - simpl. lia.
  - apply well_formed_init.
Defined.

(** X10.  [entangle_qubits] accepts every index that Python's
    subscripting accepts, from [-n] to [n - 1], a negative one counting
    from the last qubit: the call returns, and the new state is the old
    one permuted by the controlled flip on the qubits [control mod n]
    and [target mod n]. *)
Theorem entangle_counts_negative_from_end
    (control target : Z) (self : QuantumCircuit C) :
  let n := Z.of_nat (n_qubits self) in
  (- n ≤ control < n)%Z → (- n ≤ target < n)%Z → well_formed self →
  entangle_qubits control target self
  = Ok (mkCircuit (n_qubits self) (depth self)
          ((λ i, state self !!! entangle_perm (n_qubits self)
                   (Z.to_nat (control mod n)) (Z.to_nat (target mod n)) i)
             <$> seq 0 (2 ^ n_qubits self))).
Proof.
  intros n Hc Ht Hwf.
  pose proof (Z.mod_pos_bound control n) as Hcm.
  pose proof (Z.mod_pos_bound target n) as Htm.
  rewrite entangle_qubits_mod by done. fold n.
  rewrite <- (Z2Nat.id (control mod n)) at 1 by lia.
  rewrite <- (Z2Nat.id (target mod n)) at 1 by lia.
  apply entangle_qubits_ok; [unfold n in *; lia..|done].
Qed.

Lemma entangle_counts_negative_from_end_witness :
  entangle_qubits (-2) (-1) (mkCircuit 2 3 [RtoC 1; RtoC 2; RtoC 3; RtoC 4])
  = Ok (mkCircuit 2 3 [RtoC 1; RtoC 2; RtoC 4; RtoC 3]).
Proof.
  etransitivity.
  - apply (entangle_counts_negative_from_end (-2) (-1)
             (mkCircuit 2 3 [RtoC 1; RtoC 2; RtoC 3; RtoC 4])).
    + simpl. lia.
    + simpl. lia.
    + reflexivity.
  - reflexivity.
Defined.

(** X11.  [apply_gate] does not count a negative target from the end.
    For a target from [-n] to [-1] the test [k != target] holds for
    every [k] of [range(n)], so only the diagonal of the operator is
    written: amplitude [i] is multiplied by the diagonal entry of the
    gate chosen by the bit of [i] at position [target + n], and the
    off-diagonal entries of the gate are never used.  With the X gate
    every amplitude becomes zero. *)
Theorem apply_gate_negative_target_is_diagonal
    (gate : list (list C)) (target : Z) (self : QuantumCircuit C) :
  let n := n_qubits self in
  (- Z.of_nat n ≤ target < 0)%Z → shape_2x2 gate → well_formed self →
  apply_gate gate target self
  = Ok (mkCircuit n (depth self)
          ((λ i, let b := bit n (Z.to_nat (target + Z.of_nat n)) i in
                 gate_at gate b b * state self !!! i)%sc
             <$> seq 0 (2 ^ n)))
  ∧ apply_gate gate_X target self
    = Ok (mkCircuit n (depth self) (replicate (2 ^ n) (RtoC 0))).
Proof.
  intros n Ht Hg Hwf.
  assert (∀ gate' : list (list C), shape_2x2 gate' →
    apply_gate gate' target self
    = Ok (mkCircuit n (depth self)
            ((λ i, let b := bit n (Z.to_nat (target + Z.of_nat n)) i in
                   gate_at gate' b b * state self !!! i)%sc
               <$> seq 0 (2 ^ n)))) as Hdiag.
  { intros gate' Hg'. unfold apply_gate. fold n.
    destruct (apply_gate_full_negative n target gate' Ht Hg')
      as (m & -> & Hsq & Hent).
    rewrite bind_Ok, matmul_op_apply by done. rewrite bind_Ok. do 2 f_equal.
    rewrite <- (op_apply_diagonal (A:=C)). by apply op_apply_ext. }
  split; [by apply Hdiag|].
  rewrite Hdiag by apply shape_gate_X. do 2 f_equal.
  apply (list_eq_same_length _ _ (2 ^ n));
    [by rewrite length_replicate|by rewrite length_fmap, length_seq|].
  intros i x y Hi Hx Hy.
  rewrite list_lookup_fmap, lookup_seq_lt in Hx by done.
  rewrite lookup_replicate_2 in Hy by done. simplify_eq/=.
  destruct (bit n _ i); apply C_eq; cbn; ring.
Qed.

Lemma apply_gate_negative_target_is_diagonal_witness :
  let self := QuantumCircuit_init (A:=C) 2 3 in
  apply_gate gate_H (-1) self
  = Ok (mkCircuit 2 3
          ((λ i, let b := bit 2 1 i in
                 gate_at gate_H b b * state self !!! i)%sc <$> seq 0 4))
  ∧ apply_gate gate_X (-1) self = Ok (mkCircuit 2 3 (replicate 4 (RtoC 0))).
Proof.
  apply (apply_gate_negative_target_is_diagonal gate_H (-1)
           (QuantumCircuit_init 2 3)).
  - simpl. lia.
  - apply unitary_gate_H.
  - apply well_formed_init.
Defined.

(** * app.py: the entropy generator *)

Lemma fib_SS (n : nat) : fib (S (S n)) = (fib n + fib (S n))%Z.
Proof.
  unfold fib. cbn [fib_pair]. destruct (fib_pair n) as [a b]. done.
Qed.

Lemma py_index_from_end {X : Type} (l : list X) (j : nat) (x : X) :
  0 < j ≤ length l → l !! (length l - j) = Some x →
  py_index l (- Z.of_nat j) = Ok x.
Proof.
  intros Hj Hx.
  unfold py_index, py_norm_index.
  rewrite decide_False by lia. rewrite decide_True by lia.
  replace (Z.to_nat (Z.of_nat (length l) + - Z.of_nat j)) with (length l - j) by lia.
  by rewrite Hx.
Qed.

Lemma generator_next_fib (m : nat) :
  2 ≤ m →
  generator_next (fib <$> seq 0 m) = Ok (fib m, fib <$> seq 0 (S m)).
Proof.
  intros Hm. destruct m as [|[|m]]; [lia..|].
  unfold generator_next.
  rewrite (py_index_from_end _ 1 (fib (S m))); [|rewrite length_fmap, length_seq; lia|].
  2: { rewrite length_fmap, length_seq, list_lookup_fmap, lookup_seq_lt by lia.
       cbn. rewrite ?Nat.sub_0_r. done. }
  rewrite bind_Ok.
  rewrite (py_index_from_end _ 2 (fib m)); [|rewrite length_fmap, length_seq; lia|].
  2: { rewrite length_fmap, length_seq, list_lookup_fmap, lookup_seq_lt by lia.
       cbn. rewrite ?Nat.sub_0_r. done. }
  rewrite bind_Ok.
  rewrite (seq_S (S (S m))), fmap_app. cbn [plus fmap list_fmap].
  rewrite (fib_SS m), (Z.add_comm (fib (S m))). done.
Qed.

Lemma generate_quantum_entropy_fib (seed : Z) (m : nat) :
  2 ≤ m →
  generate_quantum_entropy seed (fib <$> seq 0 m)
  = Ok ((λ i, (fib (m + i) * seed) mod 1000)%Z <$> seq 0 10,
        fib <$> seq 0 (m + 10)).
Proof.
  intros Hm. unfold generate_quantum_entropy.
  destruct (for_range_inv
    (λ '(entropy, previous_states) (_ : nat),
       '(fib_value, previous_states') ← generator_next previous_states;
       Ok (entropy ++ [(fib_value * seed) mod 1000]%Z, previous_states'))
    (λ k s, s = ((λ i, (fib (m + i) * seed) mod 1000)%Z <$> seq 0 k,
                 fib <$> seq 0 (m + k)))
    10 ([], fib <$> seq 0 m)) as (s & -> & ->); [| |done].
  - by rewrite Nat.add_0_r.
  - intros k s Hk ->. eexists. split; [|done].
    rewrite generator_next_fib by lia. rewrite bind_Ok.
    rewrite (seq_S k), fmap_app. cbn [plus]. by rewrite Nat.add_succ_r.
Qed.

Lemma generate_entropy_requests_fib (seeds : list Z) (m : nat) :
  2 ≤ m →
  generate_entropy_requests seeds (fib <$> seq 0 m)
  = Ok (imap (λ k seed, (λ i, (fib (m + 10 * k + i) * seed) mod 1000)%Z
                          <$> seq 0 10) seeds,
        fib <$> seq 0 (m + 10 * length seeds)).
Proof.
  revert m. induction seeds as [|seed seeds IH]; intros m Hm.
  - cbn. by rewrite Nat.add_0_r.
  - cbn [generate_entropy_requests].
    rewrite generate_quantum_entropy_fib by done. rewrite bind_Ok.
    rewrite IH by lia. rewrite bind_Ok. cbn [imap length].
    f_equal. f_equal.
    + f_equal.
      * apply list_fmap_ext. intros _ i _. do 3 f_equal. lia.
      * apply imap_ext. intros k x _. apply list_fmap_ext. intros _ i _.
        unfold compose. do 3 f_equal. lia.
    + do 2 f_equal. lia.
Qed.

(** The Fibonacci numbers modulo 1000 repeat with period 1500. *)
Lemma fib_period_1000 (n : nat) :
  (fib (n + 1500) mod 1000 = fib n mod 1000)%Z.
Proof.
  assert (∀ n, (fib (n + 1500) mod 1000 = fib n mod 1000
                ∧ fib (S n + 1500) mod 1000 = fib (S n) mod 1000)%Z) as Hboth.
  { clear n. induction n as [|n [IH1 IH2]].
    - split; vm_compute; done.
    - split; [done|].
      replace (S (S n) + 1500) with (S (S (n + 1500))) by lia.
      rewrite !fib_SS. replace (S (n + 1500)) with (S n + 1500) by lia.
      rewrite Z.add_mod, IH1, IH2, <- Z.add_mod by lia. done. }
  apply Hboth.
Qed.

Lemma fib_period_1000_mul (n j : nat) :
  (fib (n + 1500 * j) mod 1000 = fib n mod 1000)%Z.
Proof.
  induction j as [|j IH].
  - by rewrite Nat.mul_0_r, Nat.add_0_r.
  - replace (n + 1500 * S j) with (n + 1500 * j + 1500) by lia.
    by rewrite fib_period_1000.
Qed.

Lemma response_after_fib (earlier : list Z) (seed : Z) :
  response_after earlier seed
  = Ok ((λ i, (fib (2 + 10 * length earlier + i) * seed) mod 1000)%Z <$> seq 0 10).
Proof.
  unfold response_after.
  change _initialize_quantum_fibonacci_generator with (fib <$> seq 0 2).
  rewrite generate_entropy_requests_fib by lia. rewrite bind_Ok.
  rewrite generate_quantum_entropy_fib by lia. by rewrite bind_Ok.
Qed.

(** X12.  The responses of [generate_quantum_entropy] are the
    Fibonacci numbers, ten per request, each multiplied by the seed of
    its request and reduced modulo 1000: request number [k] (from 0) on
    a fresh object returns the products for [fib (10 k + 2)] to
    [fib (10 k + 11)].  No request raises, and after [k] requests the
    generator's list holds the first [10 k + 2] Fibonacci numbers. *)
Theorem entropy_is_fibonacci_times_seed (seeds : list Z) :
  generate_entropy_requests seeds _initialize_quantum_fibonacci_generator
  = Ok (imap (λ k seed, (λ i, (fib (10 * k + 2 + i) * seed) mod 1000)%Z
                          <$> seq 0 10) seeds,
        fib <$> seq 0 (10 * length seeds + 2)).
Proof.
  change _initialize_quantum_fibonacci_generator with (fib <$> seq 0 2).
  rewrite generate_entropy_requests_fib by lia. do 2 f_equal.
  - apply imap_ext. intros k seed _. apply list_fmap_ext. intros _ i _.
    do 3 f_equal. lia.
  - do 2 f_equal. lia.
Qed.

(** X13.  The response of [generate_quantum_entropy] depends only on
    the seed and on the number of earlier requests, and that only
    modulo 150: after [150 j] further requests, whatever their seeds,
    the same seed gets the same ten numbers again. *)
Theorem entropy_repeats_every_150_requests
    (earlier1 earlier2 : list Z) (seed : Z) (j : nat) :
  length earlier2 = length earlier1 + 150 * j →
  ∃ entropy,
    response_after earlier1 seed = Ok entropy ∧
    response_after earlier2 seed = Ok entropy.
Proof.
  intros Hlen. eexists. split; [apply response_after_fib|].
  rewrite response_after_fib. f_equal.
  apply list_fmap_ext. intros _ i _. rewrite Hlen.
  replace (2 + 10 * (length earlier1 + 150 * j) + i)
    with (2 + 10 * length earlier1 + i + 1500 * j) by lia.
  rewrite Z.mul_mod, fib_period_1000_mul, <- Z.mul_mod by lia. done.
Qed.

Lemma entropy_repeats_every_150_requests_witness :
  ∃ entropy,
    response_after [] 42 = Ok entropy ∧
    response_after (replicate 150 7%Z) 42 = Ok entropy.
Proof.
  apply (entropy_repeats_every_150_requests [] (replicate 150 7%Z) 42 1).
  reflexivity.
Defined.

(** * security.py *)

Lemma py_bytes_ok (ints : list Z) :
  Forall (λ x, 0 ≤ x < 256)%Z ints → py_bytes ints = Ok ints.
Proof.
  intros Hall. unfold py_bytes.
  assert (forallb (λ x, bool_decide (0 ≤ x < 256)%Z) ints = true) as ->; [|done].
  apply Is_true_true. rewrite forallb_True.
  eapply Forall_impl; [done|]. intros x Hx. by apply bool_decide_spec.
Qed.

Lemma py_range_step_8 (n : nat) : py_range_step (8 * n) 8 = (λ j, j * 8) <$> seq 0 n.
Proof.
  unfold py_range_step. do 2 f_equal.
  replace (8 * n + 8 - 1) with (7 + n * 8) by lia.
  rewrite Nat.div_add by lia. done.
Qed.

(** A key drawn for [key_length] bytes has [key_length] bytes. *)
Lemma generate_quantum_key_ok (key_length : nat) (quantum_random : list R) :
  length quantum_random = 8 * key_length →
  ∃ key, _generate_quantum_key key_length quantum_random = Ok key ∧
         length key = key_length ∧ Forall (λ x, 0 ≤ x < 256)%Z key.
Proof.
  intros Hlen. unfold _generate_quantum_key.
  rewrite length_fmap, Hlen, py_range_step_8.
  set (bits := (λ r, if Rlt_dec quantum_noise_threshold r then true else false)
                 <$> quantum_random).
  set (key := (λ i, Z.of_nat (int_of_bin (take 8 (drop i bits))))
                <$> ((λ j, j * 8) <$> seq 0 key_length)).
  assert (length key = key_length) as Hkey.
  { unfold key. by rewrite !length_fmap, length_seq. }
  assert (Forall (λ x, 0 ≤ x < 256)%Z key) as Hrange.
  { unfold key. rewrite Forall_fmap. apply Forall_forall. intros i _.
    unfold compose.
    pose proof (int_of_bin_bound (take 8 (drop i bits))) as Hb.
    assert (2 ^ length (take 8 (drop i bits)) ≤ 2 ^ 8) as Hp.
    { apply Nat.pow_le_mono_r; [lia|]. rewrite length_take. lia. }
    change (2 ^ 8) with 256 in Hp. lia. }
  exists key. rewrite py_bytes_ok by done. rewrite bind_Ok.
  rewrite take_ge by lia. done.
Qed.

Lemma lxor_byte (a b : Z) :
  (0 ≤ a < 256)%Z → (0 ≤ b < 256)%Z → (0 ≤ Z.lxor a b < 256)%Z.
Proof.
  intros Ha Hb. split; [apply Z.lxor_nonneg; lia|].
  destruct (decide (Z.lxor a b = 0%Z)) as [->|Hne]; [lia|].
  assert (0 < Z.lxor a b)%Z as Hpos.
  { pose proof (proj2 (Z.lxor_nonneg a b)). lia. }
  change 256%Z with (2 ^ 8)%Z. apply Z.log2_lt_pow2; [done|].
  pose proof (Z.log2_lxor a b ltac:(lia) ltac:(lia)) as Hl.
  assert (Z.log2 a < 8)%Z.
  { destruct (decide (a = 0%Z)) as [->|]; [done|].
    apply Z.log2_lt_pow2; [lia|]. change (2 ^ 8)%Z with 256%Z. lia. }
  assert (Z.log2 b < 8)%Z.
  { destruct (decide (b = 0%Z)) as [->|]; [done|].
    apply Z.log2_lt_pow2; [lia|]. change (2 ^ 8)%Z with 256%Z. lia. }
  lia.
Qed.

Lemma zip_lxor_bytes (data noise : list Z) :
  Forall (λ x, 0 ≤ x < 256)%Z data → Forall (λ x, 0 ≤ x < 256)%Z noise →
  Forall (λ x, 0 ≤ x < 256)%Z (zip_with Z.lxor data noise).
Proof.
  intros Hd. revert noise. induction Hd as [|d data Hd _ IH]; intros noise Hn.
  - constructor.
  - destruct Hn as [|n noise Hn Hns]; [constructor|].
    cbn. constructor; [by apply lxor_byte|by apply IH].
Qed.

Lemma noise_ok (quantum_random : list R) (data : list Z) :
  length quantum_random = 8 * length data →
  Forall (λ x, 0 ≤ x < 256)%Z data →
  ∃ noise, _generate_quantum_key (length data) quantum_random = Ok noise ∧
           length noise = length data ∧
           Forall (λ x, 0 ≤ x < 256)%Z noise ∧
           _add_quantum_noise quantum_random data = Ok (zip_with Z.lxor data noise) ∧
           _remove_quantum_noise quantum_random data = Ok (zip_with Z.lxor data noise).
Proof.
  intros Hlen Hdata.
  destruct (generate_quantum_key_ok _ _ Hlen) as (noise & Hkey & Hn & Hrange).
  exists noise. split_and!; [done..| |].
  - unfold _add_quantum_noise. rewrite Hkey, bind_Ok.
    apply py_bytes_ok. by apply zip_lxor_bytes.
  - unfold _remove_quantum_noise. rewrite Hkey, bind_Ok.
    apply py_bytes_ok. by apply zip_lxor_bytes.
Qed.

Lemma zip_lxor_twice (data n1 n2 : list Z) :
  zip_with Z.lxor (zip_with Z.lxor data n1) n2
  = zip_with Z.lxor data (zip_with Z.lxor n1 n2).
Proof.
  revert n1 n2. induction data as [|d data IH]; intros [|a n1] [|b n2]; try done.
  cbn. by rewrite Z.lxor_assoc, IH.
Qed.

Lemma zip_lxor_fixes (data n1 n2 : list Z) :
  length n1 = length data → length n2 = length data →
  zip_with Z.lxor data (zip_with Z.lxor n1 n2) = data ↔ n1 = n2.
Proof.
  revert n1 n2. induction data as [|d data IH]; intros [|a n1] [|b n2] H1 H2;
    simplify_eq/=; [done|].
  split.
  - intros Heq. injection Heq as Hd Hrest.
    assert (Z.lxor a b = 0%Z) as Hab.
    { transitivity (Z.lxor d (Z.lxor d (Z.lxor a b))).
      - by rewrite <- Z.lxor_assoc, Z.lxor_nilpotent, Z.lxor_0_l.
      - by rewrite Hd, Z.lxor_nilpotent. }
    apply Z.lxor_eq in Hab. subst. f_equal. by apply IH.
  - intros [= -> ->]. rewrite Z.lxor_nilpotent, Z.lxor_0_r. f_equal.
    by apply IH.
Qed.

(** Every measured bit is 1: the modulus of [exp(1j * psi)] is 1. *)
Lemma generate_quantum_entropy_ones (psi : list R) :
  _generate_quantum_entropy psi = replicate (length psi) 1%Z.
Proof.
  assert (1 / sqrt 2 < 1)%R as Hlt.
  { pose proof sqrt2_sq as Hs. pose proof (sqrt_pos 2) as Hp.
    pose proof sqrt2_neq_0 as Hn.
    apply (Rmult_lt_reg_r (sqrt 2)); [lra|].
    unfold Rdiv. rewrite Rmult_assoc, Rinv_l by done. nra. }
  unfold _generate_quantum_entropy. rewrite <- list_fmap_compose.
  induction psi as [|p psi IH]; [done|].
  cbn [fmap list_fmap length replicate]. f_equal; [|apply IH].
  unfold compose.
  replace (Cmul (0, 1)%R (RtoC p)) with ((0, p)%R : C)
    by (apply C_eq; cbn; ring).
  rewrite Cabs_unit. by destruct (Rlt_dec (1 / sqrt 2) 1).
Qed.

Lemma foldl_snoc_map {X Y : Type} (f : X → Y) (l : list X) (acc : list Y) :
  foldl (λ acc x, acc ++ [f x]) acc l = acc ++ (f <$> l).
Proof.
  revert acc. induction l as [|x l IH]; intros acc; cbn.
  - by rewrite app_nil_r.
  - by rewrite IH, <- app_assoc.
Qed.

Lemma generate_quantum_signature_constant hmac_sha3_512
    (self : QuantumSecurityProtocol) (psi : list R) (data : list Z) :
  generate_quantum_signature hmac_sha3_512 self psi data
  = Ok (concat ((λ key, hmac_sha3_512 key (data ++ replicate (length psi) 1%Z))
                  <$> security_layers self)).
Proof.
  unfold generate_quantum_signature. rewrite generate_quantum_entropy_ones.
  rewrite py_bytes_ok by (apply Forall_replicate; lia). rewrite bind_Ok.
  by rewrite foldl_snoc_map.
Qed.

(** X14.  [_generate_quantum_entropy] returns only ones, whatever the
    random phases drawn: every state [exp(1j * psi)] has modulus 1,
    which exceeds [1/sqrt(2)].  So [generate_quantum_signature] is the
    concatenation, over the security layers, of the HMAC of the data
    followed by 256 bytes of value 1: it does not depend on the draw. *)
Theorem quantum_entropy_bits_are_all_ones
    (hmac_sha3_512 : list Z → list Z → list Z)
    (self : QuantumSecurityProtocol) (psi : list R) (data : list Z) :
  _generate_quantum_entropy psi = replicate (length psi) 1%Z ∧
  generate_quantum_signature hmac_sha3_512 self psi data
  = Ok (concat ((λ key, hmac_sha3_512 key (data ++ replicate (length psi) 1%Z))
                  <$> security_layers self)).
Proof.
  split.
  - apply generate_quantum_entropy_ones.
  - apply generate_quantum_signature_constant.
Qed.

(** X15.  [decrypt_multi_layer] does not give back what
    [encrypt_multi_layer] was given.  With an AES-GCM whose [decrypt]
    inverts its [encrypt], encrypting a byte string and decrypting the
    result passes the tag check and returns the data XOR the noise key
    drawn by [_add_quantum_noise] XOR the noise key drawn anew by
    [_remove_quantum_noise]; this is the data exactly when the two
    independently drawn keys are equal. *)
Theorem decrypt_returns_data_xor_both_noises
    (hmac_sha3_512 : list Z → list Z → list Z)
    (aesgcm_encrypt : list Z → list Z → list Z → list Z)
    (aesgcm_decrypt : list Z → list Z → list Z → option (list Z))
    (self : QuantumSecurityProtocol) (urandom : list Z)
    (random_add psi_encrypt psi_decrypt random_remove : list R) (data : list Z) :
  (∀ key nonce plain,
     aesgcm_decrypt key nonce (aesgcm_encrypt key nonce plain) = Some plain) →
  Forall (λ x, 0 ≤ x < 256)%Z data →
  length random_add = 8 * length data →
  length random_remove = 8 * length data →
  length psi_encrypt = length psi_decrypt →
  ∃ encrypted_data md noise_add noise_remove,
    encrypt_multi_layer hmac_sha3_512 aesgcm_encrypt self urandom
      random_add psi_encrypt data = Ok (encrypted_data, md) ∧
    _generate_quantum_key (length data) random_add = Ok noise_add ∧
    _generate_quantum_key (length data) random_remove = Ok noise_remove ∧
    decrypt_multi_layer hmac_sha3_512 aesgcm_decrypt self
      psi_decrypt random_remove encrypted_data md
    = Decrypted (zip_with Z.lxor data (zip_with Z.lxor noise_add noise_remove)) ∧
    (zip_with Z.lxor data (zip_with Z.lxor noise_add noise_remove) = data
     ↔ noise_add = noise_remove).
Proof.
  intros Haes Hdata Hadd Hremove Hpsi.
  destruct (noise_ok random_add data Hadd Hdata)
    as (noise_add & Hkey_add & Hlen_add & Hrange_add & Hnoisy & _).
  set (noisy := zip_with Z.lxor data noise_add) in *.
  assert (length noisy = length data) as Hlen_noisy.
  { unfold noisy. rewrite length_zip_with. lia. }
  assert (Forall (λ x, 0 ≤ x < 256)%Z noisy) as Hrange_noisy
    by (by apply zip_lxor_bytes).
  destruct (noise_ok random_remove noisy) as
    (noise_remove & Hkey_remove & Hlen_remove & _ & _ & Hclean);
    [by rewrite Hlen_noisy|done|].
  rewrite Hlen_noisy in Hkey_remove, Hlen_remove.
  eexists _, _, noise_add, noise_remove. split_and!; [|done|done| |].
  - unfold encrypt_multi_layer. rewrite Hnoisy, bind_Ok.
    rewrite generate_quantum_signature_constant, bind_Ok. done.
  - unfold decrypt_multi_layer. cbn [auth_tag nonce].
    rewrite generate_quantum_signature_constant, Hpsi.
    rewrite bool_decide_eq_true_2 by done.
    rewrite Haes, Hclean. unfold noisy. by rewrite zip_lxor_twice.
  - by apply zip_lxor_fixes.
Qed.

Lemma decrypt_returns_data_xor_both_noises_witness :
  let hmac := λ key msg : list Z, key ++ msg in
  let encrypt := λ key nonce plain : list Z, plain in
  let decrypt := λ key nonce cipher : list Z, Some cipher in
  let self := mkSecurity [] [[1%Z]] in
  let data := [5%Z] in
  let random_add := replicate 8 0%R in
  let random_remove := replicate 8 1%R in
  ∃ encrypted_data md noise_add noise_remove,
    encrypt_multi_layer hmac encrypt self [] random_add [] data
    = Ok (encrypted_data, md) ∧
    _generate_quantum_key (length data) random_add = Ok noise_add ∧
    _generate_quantum_key (length data) random_remove = Ok noise_remove ∧
    decrypt_multi_layer hmac decrypt self [] random_remove encrypted_data md
    = Decrypted (zip_with Z.lxor data (zip_with Z.lxor noise_add noise_remove)) ∧
    (zip_with Z.lxor data (zip_with Z.lxor noise_add noise_remove) = data
     ↔ noise_add = noise_remove).
Proof.
  intros hmac encrypt decrypt self data random_add random_remove.
  apply (decrypt_returns_data_xor_both_noises hmac encrypt decrypt self []
           random_add [] [] random_remove data).
  - done.
  - repeat constructor; lia.
  - reflexivity.
  - reflexivity.
  - reflexivity.
Defined.

(** * quantum_intelligence.py and monitoring.py *)

Lemma Rsum_constant (v : list R) (c : R) :
  (∀ x, x ∈ v → x = c) → Rsum v = (INR (length v) * c)%R.
Proof.
  induction v as [|y v IH]; intros Hv; [cbn; lra|].
  rewrite Rsum_cons. change (length (y :: v)) with (S (length v)).
  rewrite S_INR, IH by (intros z Hz; apply Hv; by right).
  rewrite (Hv y) by (by left). lra.
Qed.

(** The standard deviation is zero exactly on a constant array. *)
Lemma np_std_zero_iff (v : list R) :
  v ≠ [] → np_std v = Finite 0 ↔ ∃ c, ∀ x, x ∈ v → x = c.
Proof.
  intros Hv. rewrite np_std_nonempty by done.
  set (n := INR (length v)). set (μ := (Rsum v / n)%R).
  assert (0 < n)%R as Hn.
  { unfold n. apply lt_0_INR. destruct v; [done|cbn; lia]. }
  set (S2 := Rsum ((λ x, Rabs (x - μ) ^ 2)%R <$> v)).
  assert (0 <= S2)%R as HS2.
  { apply Rsum_nonneg. intros y [x [-> _]]%list_elem_of_fmap.
    apply pow2_ge_0. }
  split.
  - intros Hs. exists μ. intros x Hx.
    assert (sqrt (S2 / n) = 0)%R as H0 by congruence.
    apply sqrt_eq_0 in H0.
    2: { apply Rmult_le_pos; [done|]. left. by apply Rinv_0_lt_compat. }
    assert (S2 = 0)%R as HS0.
    { apply (Rmult_eq_reg_r (/ n)); [|apply Rinv_neq_0_compat; lra].
      unfold Rdiv in H0. lra. }
    assert (Rabs (x - μ) ^ 2 = 0)%R as Hx0.
    { apply (Rsum_nonneg_zero ((λ x, Rabs (x - μ) ^ 2)%R <$> v)); [|done|].
      - intros y [z [-> _]]%list_elem_of_fmap. apply pow2_ge_0.
      - apply list_elem_of_fmap. by exists x. }
    rewrite pow2_abs in Hx0.
    assert ((x - μ) * (x - μ) = 0)%R as Hsq by (rewrite <- Hx0; ring).
    apply Rmult_integral in Hsq. lra.
  - intros [c Hc]. f_equal.
    assert (μ = c) as Hμ.
    { unfold μ. rewrite (Rsum_constant v c Hc). fold n. field. lra. }
    assert (S2 = 0)%R as ->.
    { unfold S2. transitivity (Rsum ((λ _, 0%R) <$> v)).
      - apply Rsum_fmap_ext. intros x Hx. rewrite (Hc x Hx), Hμ.
        rewrite pow2_abs. ring.
      - rewrite (Rsum_constant _ 0); [ring|].
        by intros y [z [-> _]]%list_elem_of_fmap. }
    unfold Rdiv. rewrite Rmult_0_l. apply sqrt_0.
Qed.

Lemma length_fit_to_input_shape (L : nat) (signal : list R) :
  length (fit_to_input_shape L signal) = L.
Proof.
  unfold fit_to_input_shape. repeat case_decide.
  - rewrite length_app, length_replicate. lia.
  - rewrite length_take. lia.
  - lia.
Qed.

Lemma fit_to_input_shape_take (L : nat) (signal : list R) :
  fit_to_input_shape L signal
  = take L signal ++ replicate (L - length signal) 0%R.
Proof.
  unfold fit_to_input_shape. repeat case_decide.
  - by rewrite take_ge by lia.
  - replace (L - length signal) with 0 by lia. by rewrite app_nil_r.
  - replace (L - length signal) with 0 by lia.
    by rewrite app_nil_r, take_ge by lia.
Qed.

Lemma quantum_entropy_finite (data : list R) :
  ∃ s, quantum_entropy data = Finite s ∧ (0 <= s)%R.
Proof.
  unfold quantum_entropy. case_decide.
  - exists 0%R. split; [done|lra].
  - apply np_std_finite_nonneg.
    destruct data as [|x [|y v]]; [cbn in *; lia..|]. by rewrite np_diff_cons2.
Qed.

Lemma process_signal_try_ok {NF : Type} (predict : list R → result NF)
    (L : nat) (phase signal : list R) :
  0 < L →
  let fitted := fit_to_input_shape L signal in
  ∃ p,
    _detect_periodicity (_prepare_quantum_state fitted) = Ok p ∧
    process_signal_try predict L phase signal
    = nf ← predict fitted;
      Ok (mkApiResult
            (_serialize_complex (_quantum_feature_extraction (_prepare_quantum_state fitted)))
            nf
            (mkPatterns p (_estimate_noise (_prepare_quantum_state fitted))
               (_quantum_complexity (_prepare_quantum_state fitted)))
            (_serialize_complex (_quantum_feature_extraction (_prepare_quantum_state fitted)))
            (_prepare_quantum_state fitted)
            (quantum_entropy fitted)
            (_serialize_complex (quantum_phase_shift phase))).
Proof.
  intros HL fitted.
  assert (_prepare_quantum_state fitted ≠ []) as Hne.
  { intros Heq. apply (f_equal length) in Heq.
    rewrite length_prepare in Heq. unfold fitted in Heq.
    rewrite length_fit_to_input_shape in Heq. cbn in Heq. lia. }
  destruct (phase_estimation_nonempty _ Hne) as (θ & Hθ).
  destruct (pattern_recognition_nonempty _ Hne) as (p & Hp & Hpat).
  exists p. split; [done|].
  unfold process_signal_try, process_signal. fold fitted.
  rewrite Hθ, Hpat. rewrite !bind_Ok. done.
Qed.

Lemma all_zero_replicate (v : list R) :
  (∀ x, x ∈ v → x = 0%R) → v = replicate (length v) 0%R.
Proof.
  induction v as [|x v IH]; intros Hv; [done|].
  cbn. rewrite (Hv x) by (by left). f_equal. apply IH.
  intros y Hy. apply Hv. by right.
Qed.

Lemma filter_all {X : Type} (P : X → Prop) `{∀ x, Decision (P x)} (l : list X) :
  Forall P l → filter P l = l.
Proof.
  induction 1 as [|x l Hx _ IH]; [done|].
  rewrite filter_cons_True by done. by rewrite IH.
Qed.

(** Every request that [process_signal] logs has the status
    ["success"], and every call is logged once, as a request or as an
    error. *)
Lemma api_reachable_inv {NF : Type} (predict : list R → result NF) (L : nat)
    (self : QuantumIntelligenceAPI) :
  api_reachable predict L self →
  Forall (λ r, status r = "success") (requests (monitor self)) ∧
  length (errors (monitor self)) + length (requests (monitor self))
  = metrics_requests self.
Proof.
  induction 1 as [now|t0 t1 now phase signal self _ [IH1 IH2]].
  - split; [constructor|done].
  - unfold api_process_signal.
    destruct (process_signal_try predict L phase signal) as [result|e];
      cbn [snd log_request log_error monitor metrics_requests errors requests].
    + split.
      * apply Forall_app. split; [done|]. by repeat constructor.
      * rewrite length_app. cbn. lia.
    + split; [done|]. rewrite length_app. cbn. lia.
Qed.

(** X16.  On samples within the float64 range [quantum_entropy] returns
    a finite number that is not negative, also on fewer than two
    samples.  In exact arithmetic it is zero exactly when the samples
    are equally spaced, that is when all the differences of consecutive
    samples are equal; the float64 result is then zero up to
    rounding. *)
Theorem quantum_entropy_zero_iff_equally_spaced (data : list R) :
  float64_safe data →
  ∃ s, quantum_entropy data = Finite s ∧ (0 <= s)%R ∧
       (s = 0%R ↔ ∃ step, ∀ d, d ∈ np_diff data → d = step).
Proof.
  intros _.
  destruct (quantum_entropy_finite data) as (s & Hs & Hpos).
  exists s. split; [done|]. split; [done|].
  unfold quantum_entropy in Hs. case_decide as Hlen.
  - assert (np_diff data = []) as ->
      by (destruct data as [|x [|y v]]; [done..|cbn in Hlen; lia]).
    split; [|intros _; congruence].
    intros _. exists 0%R. by intros d Hd%elem_of_nil.
  - assert (np_diff data ≠ []) as Hne.
    { destruct data as [|x [|y v]]; [cbn in Hlen; lia..|].
      by rewrite np_diff_cons2. }
    rewrite <- (np_std_zero_iff _ Hne), Hs. split; [by intros ->|congruence].
Qed.

Lemma quantum_entropy_zero_iff_equally_spaced_witness :
  ∃ s, quantum_entropy [1; 3; 2]%R = Finite s ∧ (0 <= s)%R ∧
       (s = 0%R ↔ ∃ step, ∀ d, d ∈ np_diff [1; 3; 2]%R → d = step).
Proof.
  apply (quantum_entropy_zero_iff_equally_spaced [1; 3; 2]%R).
  apply float64_safe_of_bound. simpl. lra.
Defined.

(** X17.  [QuantumIntelligenceAPI.process_signal] on a one-dimensional
    input of any length, the empty one included, works on the first
    [required_length] samples followed by zeros up to that length.  The
    quantum part never raises: the call raises exactly what the neural
    network raises.  Each call counts one request and adds one record
    to the monitor: a request with status ["success"] when it returns,
    an error when it raises. *)
Theorem api_process_signal_fits_and_logs {NF : Type}
    (predict : list R → result NF) (L : nat)
    (time_start time_end now : R) (phase signal : list R)
    (self : QuantumIntelligenceAPI) :
  0 < L →
  let fitted := take L signal ++ replicate (L - length signal) 0%R in
  let out := api_process_signal predict L time_start time_end now phase signal self in
  metrics_requests out.2 = S (metrics_requests self) ∧
  match predict fitted with
  | Raise e =>
      out.1 = Raise e ∧
      monitor out.2
      = mkMonitor (errors (monitor self) ++ [mkErrorData now e [1; L; 1]])
          (requests (monitor self)) (start_time (monitor self))
  | Ok nf =>
      ∃ result,
        out.1 = Ok result ∧
        res_neural_features result = nf ∧
        res_processed_signal result = _prepare_quantum_state fitted ∧
        length (res_processed_signal result) = L ∧
        res_phases result = res_quantum_features result ∧
        monitor out.2
        = mkMonitor (errors (monitor self))
            (requests (monitor self)
               ++ [mkRequestData now "process_signal" (time_end - time_start)
                     "success"])
            (start_time (monitor self))
  end.
Proof.
  intros HL fitted out. unfold out, api_process_signal.
  destruct (process_signal_try_ok predict L phase signal HL) as (p & _ & ->).
  rewrite fit_to_input_shape_take. fold fitted.
  destruct (predict fitted) as [nf|e]; cbn [mbind result_bind fst snd].
  - split; [done|]. eexists. split; [done|].
    cbn [res_neural_features res_processed_signal res_phases
         res_quantum_features monitor log_request].
    split_and!; [done..| |done|done].
    rewrite length_prepare. unfold fitted.
    rewrite <- fit_to_input_shape_take. apply length_fit_to_input_shape.
  - done.
Qed.

Lemma api_process_signal_fits_and_logs_witness :
  let predict := λ _ : list R, Ok tt in
  let self := QuantumIntelligenceAPI_init 0 in
  let out := api_process_signal predict 2 0 1 5 [] [3; 4; 5]%R self in
  metrics_requests out.2 = 1 ∧
  ∃ result,
    out.1 = Ok result ∧
    res_neural_features result = tt ∧
    res_processed_signal result = _prepare_quantum_state [3; 4]%R ∧
    length (res_processed_signal result) = 2 ∧
    res_phases result = res_quantum_features result ∧
    monitor out.2
    = mkMonitor [] [mkRequestData 5 "process_signal" (1 - 0) "success"] 0%R.
Proof.
  apply (api_process_signal_fits_and_logs (λ _ : list R, Ok tt) 2 0 1 5 []
           [3; 4; 5]%R (QuantumIntelligenceAPI_init 0)).
  lia.
Defined.

(** X18.  Through the API an input whose first [required_length]
    samples are all zero, the empty input included, is answered with a
    [periodic] value that is NaN, beside an all-zero processed signal
    and entropy 0: no exception is raised, although the processor alone
    raises on the empty signal. *)
Theorem api_zero_signal_periodic_NaN {NF : Type}
    (predict : list R → result NF) (L : nat)
    (time_start time_end now : R) (phase signal : list R)
    (self : QuantumIntelligenceAPI) (nf : NF) :
  0 < L →
  (∀ x, x ∈ take L signal → x = 0%R) →
  predict (replicate L 0%R) = Ok nf →
  ∃ result,
    (api_process_signal predict L time_start time_end now phase signal self).1
    = Ok result ∧
    periodic (res_patterns result) = NaN ∧
    res_processed_signal result = replicate L 0%R ∧
    res_entropy result = Finite 0.
Proof.
  intros HL Hzero Hnf. unfold api_process_signal.
  destruct (process_signal_try_ok predict L phase signal HL) as (p & Hp & ->).
  assert (fit_to_input_shape L signal = replicate L 0%R) as Hfit.
  { rewrite <- (length_fit_to_input_shape L signal) at 2.
    apply all_zero_replicate. rewrite fit_to_input_shape_take.
    intros x [Hx|[-> _]%elem_of_replicate]%elem_of_app; [by apply Hzero|done]. }
  rewrite Hfit in *. rewrite Hnf, bind_Ok. cbn [fst].
  rewrite prepare_zeros in *.
  rewrite detect_periodicity_zeros in Hp by done.
  assert (p = NaN) as -> by congruence.
  eexists. split; [done|].
  cbn [res_patterns periodic res_processed_signal res_entropy].
  split_and!; [done..|].
  unfold quantum_entropy. rewrite length_replicate. case_decide; [done|].
  rewrite np_diff_replicate, Rminus_diag. apply np_std_zeros. lia.
Qed.

Lemma api_zero_signal_periodic_NaN_witness :
  let predict := λ _ : list R, Ok tt in
  ∃ result,
    (api_process_signal predict 2 0 1 5 [] [] (QuantumIntelligenceAPI_init 0)).1
    = Ok result ∧
    periodic (res_patterns result) = NaN ∧
    res_processed_signal result = replicate 2 0%R ∧
    res_entropy result = Finite 0.
Proof.
  apply (api_zero_signal_periodic_NaN (λ _ : list R, Ok tt) 2 0 1 5 [] []
           (QuantumIntelligenceAPI_init 0) tt).
  - lia.
  - intros x Hx. by apply elem_of_nil in Hx.
  - reflexivity.
Defined.

(** X19.  In every state that calls of [process_signal] reach, the
    monitor's metrics satisfy: all logged requests are successful ones,
    errors and requests together number the calls made, and the
    reported [error_rate] is the number of failed calls divided by the
    number of successful ones (0 when no call succeeded), not by the
    number of calls. *)
Theorem api_monitor_counts_calls {NF : Type}
    (predict : list R → result NF) (L : nat)
    (self : QuantumIntelligenceAPI) (now : R) :
  api_reachable predict L self →
  let m := get_metrics now (monitor self) in
  successful_requests m = total_requests m ∧
  total_errors m + total_requests m = metrics_requests self ∧
  error_rate m
  = if decide (0 < successful_requests m)
    then (INR (metrics_requests self - successful_requests m)
          / INR (successful_requests m))%R
    else 0%R.
Proof.
  intros Hreach m. destruct (api_reachable_inv predict L self Hreach) as [Hall Hcount].
  assert (successful_requests m = total_requests m) as Hsucc.
  { unfold m, get_metrics. cbn [successful_requests total_requests].
    by rewrite filter_all. }
  split; [done|]. split; [done|].
  rewrite Hsucc. unfold m, get_metrics. cbn [error_rate total_requests].
  case_decide; [|done]. do 2 f_equal. lia.
Qed.

Lemma api_monitor_counts_calls_witness :
  let predict := λ _ : list R, Ok tt in
  let self := (api_process_signal predict 2 0 1 5 [] [3; 4]%R
                 (QuantumIntelligenceAPI_init 0)).2 in
  let m := get_metrics 9 (monitor self) in
  successful_requests m = total_requests m ∧
  total_errors m + total_requests m = metrics_requests self ∧
  error_rate m
  = if decide (0 < successful_requests m)
    then (INR (metrics_requests self - successful_requests m)
          / INR (successful_requests m))%R
    else 0%R.
Proof.
  apply (api_monitor_counts_calls (λ _ : list R, Ok tt) 2).
  apply api_reachable_call, api_reachable_init.
Defined.

(** * Scaling.py *)

(** X20.  One round of the scaler, started with a replica count within
    [[min_replicas, max_replicas]]: a patch keeps the count within
    these bounds and changes it by exactly one, up when the CPU
    utilisation exceeds its target and down otherwise.  So a round that
    is triggered only by latency or by pending requests, the CPU being
    at or below target, removes a replica whenever more than
    [min_replicas] are running. *)
Theorem scaling_round_moves_one_replica
    (self : QuantumScaler) (metrics : scaler_metrics) :
  (min_replicas self ≤ active_pods metrics ≤ max_replicas self)%Z →
  (∀ new_replicas, scaling_round self metrics = Some new_replicas →
     (min_replicas self ≤ new_replicas ≤ max_replicas self)%Z ∧
     (if Rgtb (cpu_utilization metrics) (target_cpu_utilization self)
      then new_replicas = (active_pods metrics + 1)%Z
      else new_replicas = (active_pods metrics - 1)%Z)) ∧
  ((cpu_utilization metrics <= target_cpu_utilization self)%R →
   (LATENCY_THRESHOLD self < latency metrics)%R
   ∨ (MAX_PENDING_REQUESTS self < pending_requests metrics)%Z →
   (min_replicas self < active_pods metrics)%Z →
   scaling_round self metrics = Some (active_pods metrics - 1)%Z).
Proof.
  intros Hrange. split.
  - intros new_replicas. unfold scaling_round, _scale_deployment.
    destruct (_should_scale self metrics); [|done].
    destruct (Rgtb _ _); case_decide; intros [= <-]; lia.
  - intros Hcpu Hload Hmin. unfold scaling_round, _should_scale, _scale_deployment, Rgtb.
    destruct (Rlt_dec (target_cpu_utilization self) (cpu_utilization metrics));
      [lra|].
    assert ((if Rlt_dec (LATENCY_THRESHOLD self) (latency metrics) then true else false)
            || bool_decide (pending_requests metrics > MAX_PENDING_REQUESTS self)%Z
            = true) as Htrig.
    { destruct Hload as [Hl|Hp].
      - by destruct (Rlt_dec (LATENCY_THRESHOLD self) (latency metrics)).
      - rewrite bool_decide_eq_true_2 by lia. apply orb_true_r. }
    cbn [orb]. rewrite Htrig.
    rewrite decide_True by lia. f_equal. lia.
Qed.

Lemma scaling_round_moves_one_replica_witness :
  let self := mkScaler 2 10 70 50 100 in
  let metrics := mkScalerMetrics 50 40 5 0 80 in
  (∀ new_replicas, scaling_round self metrics = Some new_replicas →
     (2 ≤ new_replicas ≤ 10)%Z ∧
     (if Rgtb 50 70 then new_replicas = (5 + 1)%Z else new_replicas = (5 - 1)%Z)) ∧
  ((50 <= 70)%R → (50 < 80)%R ∨ (100 < 0)%Z → (2 < 5)%Z →
   scaling_round self metrics = Some (5 - 1)%Z).
Proof.
  apply (scaling_round_moves_one_replica (mkScaler 2 10 70 50 100)
           (mkScalerMetrics 50 40 5 0 80)).
  cbn. lia.
Defined.

(** * quantum_transfer.py *)

Lemma argmin_scan_opp (v : list R) (best_i : nat) (best : R) (i : nat) :
  argmin_scan best_i best i v = argmax_scan best_i (- best) i (Ropp <$> v).
Proof.
  revert best_i best i. induction v as [|x v IH]; intros best_i best i; [done|].
  cbn [argmin_scan argmax_scan fmap list_fmap].
  destruct (Rlt_dec x best), (Rlt_dec (- best) (- x)); try lra; apply IH.
Qed.

Lemma np_argmin_spec (v : list R) :
  v ≠ [] →
  ∃ k, np_argmin v = Ok k ∧ k < length v ∧
       (∀ j, j < length v → (v !!! k <= v !!! j)%R).
Proof.
  intros Hv.
  destruct (np_argmax_spec (Ropp <$> v)) as (k & Hk & Hlt & Hle & _).
  { by destruct v. }
  rewrite length_fmap in Hlt, Hle.
  exists k. split.
  - destruct v as [|x v]; [done|]. cbn in Hk. cbn [np_argmin].
    by rewrite argmin_scan_opp.
  - split; [done|]. intros j Hj. specialize (Hle j Hj).
    rewrite (list_lookup_total_fmap Ropp v j), (list_lookup_total_fmap Ropp v k) in Hle
      by lia. lra.
Qed.

Lemma Rsum_bounds (v : list R) (lo hi : R) :
  (∀ x, x ∈ v → (lo <= x <= hi)%R) →
  (INR (length v) * lo <= Rsum v <= INR (length v) * hi)%R.
Proof.
  induction v as [|x v IH]; intros Hv; [cbn; lra|].
  rewrite Rsum_cons. change (length (x :: v)) with (S (length v)).
  rewrite S_INR.
  pose proof (Hv x (list_elem_of_here _ _)).
  assert (INR (length v) * lo <= Rsum v <= INR (length v) * hi)%R
    by (apply IH; intros y Hy; apply Hv; by right).
  lra.
Qed.

(** X21.  What a transfer returns for its data: [_quantum_transform]
    followed by [_optimize_transfer] multiplies every sample by a
    random phase of modulus 1 and by the entry of one row of the random
    matrix [paths], a row whose sum of absolute values is least.  The
    result has the length of the data, and the modulus of sample [j] is
    the modulus of the input sample times [|path[j]|]. *)
Theorem transfer_scales_each_sample
    (random : list R) (paths : list (list R)) (data : list C) :
  length random = length data →
  paths ≠ [] →
  (∀ row, row ∈ paths → length row = length data) →
  ∃ optimal_path optimized_data,
    _optimize_transfer paths (_quantum_transform random data) = Ok optimized_data ∧
    optimal_path ∈ paths ∧
    (∀ row, row ∈ paths →
       (Rsum (Rabs <$> optimal_path) <= Rsum (Rabs <$> row))%R) ∧
    length optimized_data = length data ∧
    ∀ j, j < length data →
      Cabs (optimized_data !!! j)
      = (Cabs (data !!! j) * Rabs (optimal_path !!! j))%R.
Proof.
  intros Hrandom Hpaths Hrows.
  set (scores := (λ row, Rsum (Rabs <$> row)) <$> paths).
  destruct (np_argmin_spec scores) as (k & Hk & Hlt & Hmin).
  { unfold scores. by destruct paths. }
  unfold scores in Hlt. rewrite length_fmap in Hlt.
  destruct (lookup_lt_is_Some_2 paths k Hlt) as [path Hpath].
  assert (path ∈ paths) as Hin by (by eapply list_elem_of_lookup_2).
  exists path. eexists. split_and!.
  - unfold _optimize_transfer. fold scores. rewrite Hk, bind_Ok.
    rewrite py_index_nat by done.
    rewrite (list_lookup_total_correct _ _ _ Hpath), bind_Ok. done.
  - done.
  - intros row [i Hi]%list_elem_of_lookup_1.
    assert (i < length scores) as Hi'.
    { unfold scores. rewrite length_fmap. by eapply lookup_lt_Some. }
    specialize (Hmin i Hi'). unfold scores in Hmin.
    rewrite (list_lookup_total_fmap _ paths k), (list_lookup_total_fmap _ paths i)
      in Hmin by (done || by eapply lookup_lt_Some).
    by rewrite (list_lookup_total_correct _ _ _ Hpath),
      (list_lookup_total_correct _ _ _ Hi) in Hmin.
  - unfold _quantum_transform.
    rewrite !length_zip_with, length_fmap, (Hrows path Hin). lia.
  - intros j Hj. unfold _quantum_transform.
    assert (j < length random) as Hjr by lia.
    assert (j < length path) as Hjp by (rewrite (Hrows path Hin); lia).
    destruct (lookup_lt_is_Some_2 data j Hj) as [z Hz].
    destruct (lookup_lt_is_Some_2 random j Hjr) as [u Hu].
    destruct (lookup_lt_is_Some_2 path j Hjp) as [p Hp].
    rewrite (list_lookup_total_correct data j z Hz),
      (list_lookup_total_correct path j p Hp).
    erewrite list_lookup_total_correct.
    2: { rewrite !lookup_zip_with, list_lookup_fmap, Hz, Hu, Hp. cbn. done. }
    rewrite !Cabs_mul, Cabs_RtoC.
    replace (Cmul (Cmul (0, 2)%R (RtoC PI)) (RtoC u)) with ((0, 2 * PI * u)%R : C)
      by (apply C_eq; cbn; ring).
    rewrite Cabs_unit. ring.
Qed.

Lemma transfer_scales_each_sample_witness :
  let data := [RtoC 3; (0, 4)%R] in
  let paths := [[1; 2]; [1; -1]]%R in
  ∃ optimal_path optimized_data,
    _optimize_transfer paths (_quantum_transform [0; 1]%R data) = Ok optimized_data ∧
    optimal_path ∈ paths ∧
    (∀ row, row ∈ paths →
       (Rsum (Rabs <$> optimal_path) <= Rsum (Rabs <$> row))%R) ∧
    length optimized_data = length data ∧
    ∀ j, j < length data →
      Cabs (optimized_data !!! j)
      = (Cabs (data !!! j) * Rabs (optimal_path !!! j))%R.
Proof.
  apply (transfer_scales_each_sample [0; 1]%R [[1; 2]; [1; -1]]%R
           [RtoC 3; (0, 4)%R]).
  - reflexivity.
  - done.
  - intros row Hrow. repeat (apply elem_of_cons in Hrow as [->|Hrow]); [done..|].
    by apply elem_of_nil in Hrow.
Defined.

(** X22.  [_calculate_average_latency] never fails: it is 0.0 with no
    transfers recorded and otherwise the mean of the latest recorded
    latencies, at most ten.  Entries older than the last ten have no
    influence, and the average lies within any bounds that hold for the
    last ten. *)
Theorem average_latency_of_last_ten
    (older recent : list transfer_metric) (lo hi : R) :
  recent ≠ [] →
  length recent = 10 ∨ older = [] ∧ length recent ≤ 10 →
  (∀ m, m ∈ recent → (lo <= tm_latency m <= hi)%R) →
  _calculate_average_latency [] = Finite 0 ∧
  ∃ average,
    _calculate_average_latency (older ++ recent) = Finite average ∧
    average = (Rsum (tm_latency <$> recent) / INR (length recent))%R ∧
    (lo <= average <= hi)%R.
Proof.
  intros Hne Hlen Hbounds. split; [done|].
  assert (drop (length (older ++ recent) - 10) (older ++ recent) = recent) as Hdrop.
  { destruct Hlen as [Hlen|[-> Hlen]].
    - rewrite length_app, Hlen.
      replace (length older + 10 - 10) with (length older) by lia.
      by rewrite drop_app_length.
    - cbn [app]. replace (length recent - 10) with 0 by lia. done. }
  assert (0 < INR (length recent))%R as Hn.
  { apply lt_0_INR. destruct recent; [done|cbn; lia]. }
  exists (Rsum (tm_latency <$> recent) / INR (length recent))%R.
  split; [|split].
  - unfold _calculate_average_latency.
    destruct (older ++ recent) as [|m l] eqn:Heq.
    { by apply app_eq_nil in Heq as [_ ->]. }
    rewrite Hdrop, np_mean_nonempty by (by destruct recent).
    by rewrite length_fmap.
  - done.
  -
    pose proof (Rsum_bounds (tm_latency <$> recent) lo hi) as Hb.
    rewrite length_fmap in Hb.
    destruct Hb as [Hb1 Hb2].
    { intros x [m [-> Hm]]%list_elem_of_fmap. by apply Hbounds. }
    split.
    + apply (Rmult_le_reg_r (INR (length recent))); [done|].
      unfold Rdiv. rewrite Rmult_assoc, Rinv_l by lra. lra.
    + apply (Rmult_le_reg_r (INR (length recent))); [done|].
      unfold Rdiv. rewrite Rmult_assoc, Rinv_l by lra. lra.
Qed.

Lemma average_latency_of_last_ten_witness :
  let recent := [mkTransferMetric 20 false None; mkTransferMetric 40 true None] in
  _calculate_average_latency [] = Finite 0 ∧
  ∃ average,
    _calculate_average_latency ([] ++ recent) = Finite average ∧
    average = (Rsum (tm_latency <$> recent) / INR (length recent))%R ∧
    (20 <= average <= 40)%R.
Proof.
  apply (average_latency_of_last_ten []
           [mkTransferMetric 20 false None; mkTransferMetric 40 true None] 20 40).
  - done.
  - right. split; [done|]. cbn. lia.
  - intros m Hm. repeat (apply elem_of_cons in Hm as [->|Hm]); cbn; [lra..|].
    by apply elem_of_nil in Hm.
Defined.

(** * Config.py *)

Section ConfigFacts.
Variable py_int : string → option Z.
Variable py_float : string → option R.
Variable str_lower : string → string.
Variable str_split_comma : string → list string.
Variable env : string → option string.
Variable token_hex : string.

Local Abbreviation convert := (_convert_type py_int py_float str_lower str_split_comma).
Local Abbreviation load_env := (_load_env_vars py_int py_float str_lower str_split_comma env).
Local Abbreviation jwt := (JWT_SECRET_KEY env token_hex).

Lemma load_defaults_eq : _load_defaults env token_hex = class_attributes jwt.
Proof. reflexivity. Qed.

(** Loading the environment changes values, not keys. *)
Lemma dict_get_load_env (key : string) (d : list (string * pyval)) :
  dict_get key (load_env d)
  = (λ v, match env ("QUANTUM_API_" +:+ key) with
          | Some env_value => convert env_value v
          | None => v
          end) <$> dict_get key d.
Proof.
  induction d as [|[k v] d IH]; [done|].
  cbn [_load_env_vars fmap list_fmap dict_get fst snd].
  destruct (env ("QUANTUM_API_" +:+ k)) as [e|] eqn:He; cbn [dict_get fst snd];
    destruct (String.eqb k key) eqn:Hk.
  - apply String.eqb_eq in Hk as <-. by rewrite He.
  - apply IH.
  - apply String.eqb_eq in Hk as <-. by rewrite He.
  - apply IH.
Qed.

Lemma convert_int (value : string) (z : Z) :
  ∃ z', convert value (PInt z) = PInt z'.
Proof.
  unfold _convert_type. destruct (py_int value) as [z'|]; cbn; by eexists.
Qed.

(** An integer setting is an integer after loading, whatever the
    environment holds. *)
Lemma loaded_int (key : string) (z : Z) :
  dict_get key (class_attributes jwt) = Some (PInt z) →
  ∃ z', dict_get key (load_env (class_attributes jwt)) = Some (PInt z').
Proof.
  intros Hkey. rewrite dict_get_load_env, Hkey. cbn [fmap option_fmap option_map].
  destruct (env ("QUANTUM_API_" +:+ key)) as [e|]; [|by eexists].
  destruct (convert_int e z) as [z' ->]. by eexists.
Qed.

Lemma assert_key_passes (d : list (string * pyval)) (key : string)
    (test : pyval → config_exn + bool) :
  assert_key d key test = inr () →
  ∃ v, dict_get key d = Some v ∧ test v = inr true.
Proof.
  unfold assert_key. destruct (dict_get key d) as [v|]; [|done].
  destruct (test v) as [e|[|]] eqn:Htest; [done| |done]. intros _. by exists v.
Qed.

Lemma validate_passes (d : list (string * pyval)) :
  _validate_config d = inr () →
  assert_key d "INPUT_SHAPE" input_shape_test = inr () ∧
  assert_key d "QUANTUM_DEPTH" py_gt_0 = inr () ∧
  assert_key d "N_QUBITS" py_gt_0 = inr () ∧
  assert_key d "MAX_WORKERS" py_gt_0 = inr ().
Proof.
  unfold _validate_config. cbn [foldl].
  destruct (assert_key d "INPUT_SHAPE" input_shape_test) as [?|[]]; [done|].
  destruct (assert_key d "QUANTUM_DEPTH" py_gt_0) as [?|[]]; [done|].
  destruct (assert_key d "N_QUBITS" py_gt_0) as [?|[]]; [done|].
  destruct (assert_key d "MAX_WORKERS" py_gt_0) as [?|[]]; [done|].
  done.
Qed.

Lemma loaded_positive (d : list (string * pyval)) (key : string) (z : Z) :
  d = load_env (class_attributes jwt) →
  dict_get key (class_attributes jwt) = Some (PInt z) →
  assert_key d key py_gt_0 = inr () →
  ∃ n, dict_get key d = Some (PInt n) ∧ (0 < n)%Z.
Proof.
  intros -> Hkey (v & Hv & Htest)%assert_key_passes.
  destruct (loaded_int key z Hkey) as [n Hn].
  rewrite Hn in Hv. simplify_eq. exists n. split; [done|].
  cbn in Htest. by apply (inj inr), bool_decide_eq_true in Htest.
Qed.

Lemma load_env_none (d : list (string * pyval)) :
  (∀ name, env name = None) → load_env d = d.
Proof.
  intros Hnone. induction d as [|kv d IH]; [done|].
  cbn [_load_env_vars fmap list_fmap]. rewrite Hnone. f_equal. apply IH.
Qed.
End ConfigFacts.

(** X23.  The setting [INPUT_SHAPE] cannot be given through the
    environment: when the variable [QUANTUM_API_INPUT_SHAPE] is set, to
    any text at all, [_convert_type] keeps the text as a string, the
    first assertion of [_validate_config] fails and the constructor of
    [Config] raises [AssertionError]. *)
Theorem config_input_shape_from_environment_fails
    (py_int : string → option Z) (py_float : string → option R)
    (str_lower : string → string) (str_split_comma : string → list string)
    (env : string → option string) (token_hex : string) (text : string) :
  env "QUANTUM_API_INPUT_SHAPE" = Some text →
  Config_init py_int py_float str_lower str_split_comma env token_hex
  = inl AssertionError.
Proof.
  intros Henv. unfold Config_init, _validate_config.
  rewrite load_defaults_eq. cbn [foldl].
  assert (assert_key
            (_load_env_vars py_int py_float str_lower str_split_comma env
               (class_attributes (JWT_SECRET_KEY env token_hex)))
            "INPUT_SHAPE" input_shape_test = inl AssertionError) as ->; [|done].
  unfold assert_key. rewrite dict_get_load_env.
  change ("QUANTUM_API_" +:+ "INPUT_SHAPE") with "QUANTUM_API_INPUT_SHAPE".
  rewrite Henv. done.
Qed.

Lemma config_input_shape_from_environment_fails_witness :
  let env := λ name : string,
    if String.eqb name "QUANTUM_API_INPUT_SHAPE" then Some "(64, 1)" else None in
  Config_init (λ _, None) (λ _, None) (λ s, s) (λ s, [s]) env "0a"
  = inl AssertionError.
Proof.
  intros env.
  apply (config_input_shape_from_environment_fails (λ _, None) (λ _, None)
           (λ s, s) (λ s, [s]) env "0a" "(64, 1)").
  reflexivity.
Defined.

(** X24.  A [Config] object that the constructor returns holds the
    default [INPUT_SHAPE], [(128, 1)], and integers greater than zero
    for [N_QUBITS], [QUANTUM_DEPTH] and [MAX_WORKERS], whatever the
    environment holds: a text that [int()] rejects leaves the default
    in place.  With no variable of the prefix [QUANTUM_API_] set and a
    non-empty random secret, the constructor returns the defaults. *)
Theorem config_constructed_is_valid
    (py_int : string → option Z) (py_float : string → option R)
    (str_lower : string → string) (str_split_comma : string → list string)
    (env : string → option string) (token_hex : string)
    (config_dict : list (string * pyval)) :
  Config_init py_int py_float str_lower str_split_comma env token_hex
  = inr config_dict →
  dict_get "INPUT_SHAPE" config_dict = Some (PTuple [PInt 128; PInt 1]) ∧
  (∃ n, dict_get "N_QUBITS" config_dict = Some (PInt n) ∧ (0 < n)%Z) ∧
  (∃ n, dict_get "QUANTUM_DEPTH" config_dict = Some (PInt n) ∧ (0 < n)%Z) ∧
  (∃ n, dict_get "MAX_WORKERS" config_dict = Some (PInt n) ∧ (0 < n)%Z) ∧
  ((∀ name, env name = None) → config_dict = class_attributes token_hex).
Proof.
  unfold Config_init. rewrite load_defaults_eq.
  set (d := _load_env_vars _ _ _ _ _ _).
  destruct (_validate_config d) as [e|[]] eqn:Hvalid; [done|].
  intros [= <-].
  destruct (validate_passes d Hvalid) as (Hshape & Hdepth & Hqubits & Hworkers).
  split_and!.
  - apply assert_key_passes in Hshape as (v & Hv & Htest).
    unfold d in Hv. rewrite dict_get_load_env in Hv.
    change ("QUANTUM_API_" +:+ "INPUT_SHAPE") with "QUANTUM_API_INPUT_SHAPE" in Hv.
    unfold d. rewrite dict_get_load_env.
    change ("QUANTUM_API_" +:+ "INPUT_SHAPE") with "QUANTUM_API_INPUT_SHAPE".
    destruct (env "QUANTUM_API_INPUT_SHAPE") as [text|]; [|done].
    cbn in Hv. by simplify_eq.
  - apply (loaded_positive py_int py_float str_lower str_split_comma env token_hex d "N_QUBITS" 4);
      [reflexivity|reflexivity|exact Hqubits].
  - apply (loaded_positive py_int py_float str_lower str_split_comma env token_hex d "QUANTUM_DEPTH" 3);
      [reflexivity|reflexivity|exact Hdepth].
  - apply (loaded_positive py_int py_float str_lower str_split_comma env token_hex d "MAX_WORKERS" 4);
      [reflexivity|reflexivity|exact Hworkers].
  - intros Hnone. unfold d. rewrite load_env_none by done.
    unfold JWT_SECRET_KEY. by rewrite Hnone.
Qed.

Lemma config_constructed_is_valid_witness :
  let config_dict := class_attributes "0a" in
  dict_get "INPUT_SHAPE" config_dict = Some (PTuple [PInt 128; PInt 1]) ∧
  (∃ n, dict_get "N_QUBITS" config_dict = Some (PInt n) ∧ (0 < n)%Z) ∧
  (∃ n, dict_get "QUANTUM_DEPTH" config_dict = Some (PInt n) ∧ (0 < n)%Z) ∧
  (∃ n, dict_get "MAX_WORKERS" config_dict = Some (PInt n) ∧ (0 < n)%Z) ∧
  ((∀ name : string, (λ _ : string, @None string) name = None) →
   config_dict = class_attributes "0a").
Proof.
  apply (config_constructed_is_valid (λ _, None) (λ _, None) (λ s, s) (λ s, [s])
           (λ _, None) "0a" (class_attributes "0a")).
  reflexivity.
Defined.
